(** * gdb_chibios: thread awareness and core dumps for ChibiOS under gdb

    A shallow embedding of [corefile.py] (the ELF32 core-file writer
    and the note encoder), [chibios.py] (register cache, thread
    registry, context reconstruction) and [coredump.py] (the [gcore]
    command and the dump on a segmentation fault), followed by the
    properties proved about them.

    Conventions.  Python integers are unbounded, so they are [Z].  Values
    obtained through a gdb cast to [unsigned long] are reduced modulo
    [2^32] (the target is a 32-bit ARM).  Byte strings are [list byte].
    A Python exception is an explicit [Raise] outcome; mutations made to
    an object before the exception is raised stay in the returned state. *)

From Stdlib Require Import String Ascii ZArith List Bool Lia Sorted.
From Stdlib Require Import DecimalString HexadecimalString.
From Stdlib Require Strings.Byte.
Import Strings.Byte.
Import ListNotations.
Local Open Scope Z_scope.

(* ================================================================= *)
(** ** Python exceptions and outcomes *)

Inductive exn : Type :=
| StructError      (* struct.error *)
| IndexError
| AttributeError
| ValueError
| GdbError         (* gdb.error *)
| MemoryError.     (* gdb.MemoryError *)

Inductive result (A : Type) : Type :=
| Val (a : A)
| Raise (e : exn).
Arguments Val {A} a.
Arguments Raise {A} e.

Definition rbind {A B} (r : result A) (k : A -> result B) : result B :=
  match r with
  | Val a => k a
  | Raise e => Raise e
  end.

Declare Scope result_scope.
Delimit Scope result_scope with result.
Notation "x <- r ;; k" := (rbind r (fun x => k))
  (at level 61, r at next level, right associativity) : result_scope.

(* ================================================================= *)
(** ** [struct]: fixed-width little-endian packing *)

Module Pack.

Definition byte_val (b : byte) : Z := Z.of_N (Byte.to_N b).

Definition byte_of_Z (v : Z) : byte :=
  match Byte.of_N (Z.to_N (v mod 256)) with
  | Some b => b
  | None => x00
  end.

(** The [n] low-order bytes of [v], least significant first. *)
Fixpoint le_encode (n : nat) (v : Z) : list byte :=
  match n with
  | O => []
  | S n' => byte_of_Z v :: le_encode n' (v / 256)
  end.

Fixpoint le_decode (bs : list byte) : Z :=
  match bs with
  | [] => 0
  | b :: bs' => byte_val b + 256 * le_decode bs'
  end.

(** [struct.pack] of one unsigned field of [n] bytes ([H]: 2, [L]: 4,
    [Q]: 8): out-of-range arguments raise [struct.error]. *)
Definition pack_uint (n : nat) (v : Z) : result (list byte) :=
  if (0 <=? v) && (v <? 256 ^ Z.of_nat n)
  then Val (le_encode n v)
  else Raise StructError.

(** The field code [<n>s]: exactly [n] bytes, truncated or padded with
    NUL bytes. *)
Definition pack_bytes (n : nat) (s : list byte) : list byte :=
  firstn n (s ++ repeat x00 n).

(** Python's [buf[a:b]] for non-negative bounds. *)
Definition slice {A} (l : list A) (a b : Z) : list A :=
  firstn (Z.to_nat (b - a)) (skipn (Z.to_nat a) l).

(** Consecutive unsigned fields of the given widths read from [buf];
    the caller has checked the total length. *)
Fixpoint unpack_fields (widths : list nat) (buf : list byte) : list Z :=
  match widths with
  | [] => []
  | w :: ws => le_decode (firstn w buf) :: unpack_fields ws (skipn w buf)
  end.

(** [struct.unpack("<kL", buf)]: [k] unsigned 32-bit words; the buffer
    must have exactly [4k] bytes. *)
Definition unpack_words (k : nat) (buf : list byte) : result (list Z) :=
  if Nat.eqb (length buf) (4 * k)
  then Val (unpack_fields (repeat 4%nat k) buf)
  else Raise StructError.

(** [struct.pack("<kL", *vs)]: exactly [k] arguments, each in range. *)
Fixpoint pack_all (vs : list Z) : result (list byte) :=
  match vs with
  | [] => Val []
  | v :: vs' =>
      (b <- pack_uint 4 v ;;
       bs <- pack_all vs' ;;
       Val (b ++ bs))%result
  end.

Definition pack_words (k : nat) (vs : list Z) : result (list byte) :=
  if Nat.eqb (length vs) k then pack_all vs else Raise StructError.

End Pack.

(* ================================================================= *)
(** ** [corefile.py] *)

Module Corefile.
Import Pack.

Definition ET_NONE : Z := 0.
Definition ET_EXEC : Z := 2.
Definition ET_CORE : Z := 4.

Definition PT_NULL : Z := 0.
Definition PT_LOAD : Z := 1.
Definition PT_NOTE : Z := 4.

(** [class Elf32_Ehdr], format [<16sHHLLLLLHHHHHH]. *)
Record Elf32_Ehdr : Type := mkEhdr {
  e_ident : list byte;
  e_type : Z;
  e_machine : Z;
  e_version : Z;
  e_entry : Z;
  e_phoff : Z;
  e_shoff : Z;
  e_flags : Z;
  e_ehsize : Z;
  e_phentsize : Z;
  e_phnum : Z;
  e_shentsize : Z;
  e_shnum : Z;
  e_shstrndx : Z
}.

(** [struct.calcsize("<16sHHLLLLLHHHHHH")] *)
Definition Ehdr_sizeof : Z := 52.

(** [class Elf32_Phdr], format [<LLLLLLLL], with the [data] attribute
    that [CoreFile] attaches to every program header. *)
Record Elf32_Phdr : Type := mkPhdr {
  p_type : Z;
  p_offset : Z;
  p_vaddr : Z;
  p_paddr : Z;
  p_filesz : Z;
  p_memsz : Z;
  p_flags : Z;
  p_align : Z;
  data : list byte
}.

(** [struct.calcsize("<LLLLLLLL")] *)
Definition Phdr_sizeof : Z := 32.

(** ["\x7fELF\1\1\1\0\0\0\0\0\0\0\0\0"] *)
Definition ELF_IDENT : list byte :=
  [x7f; x45; x4c; x46; x01; x01; x01; x00;
   x00; x00; x00; x00; x00; x00; x00; x00].

(** [Elf32_Ehdr()]: all fields unpacked from a zero buffer, then the
    identification, version and header size filled in. *)
Definition Ehdr_default : Elf32_Ehdr :=
  mkEhdr ELF_IDENT 0 0 1 0 0 0 0 Ehdr_sizeof 0 0 0 0 0.

(** [Elf32_Ehdr(buf)] *)
Definition Ehdr_parse (buf : list byte) : result Elf32_Ehdr :=
  let b := slice buf 0 Ehdr_sizeof in
  if Nat.eqb (length b) (Z.to_nat Ehdr_sizeof) then
    match unpack_fields [2;2;4;4;4;4;4;2;2;2;2;2;2]%nat (skipn 16 b) with
    | [ty; ma; ve; en; pho; sho; fl; ehs; phe; phn; she; shn; shs] =>
        Val (mkEhdr (firstn 16 b) ty ma ve en pho sho fl ehs phe phn she shn
                    shs)
    | _ => Raise StructError
    end
  else Raise StructError.

(** [Elf32_Phdr()]: every field zero; [data] is set by the caller. *)
Definition Phdr_default : Elf32_Phdr := mkPhdr 0 0 0 0 0 0 0 0 [].

(** [Elf32_Phdr(chunk)]; [data] is attached afterwards. *)
Definition Phdr_parse (chunk : list byte) : result Elf32_Phdr :=
  let b := slice chunk 0 Phdr_sizeof in
  if Nat.eqb (length b) (Z.to_nat Phdr_sizeof) then
    match unpack_fields (repeat 4%nat 8) b with
    | [ty; off; va; pa; fsz; msz; fl; al] =>
        Val (mkPhdr ty off va pa fsz msz fl al [])
    | _ => Raise StructError
    end
  else Raise StructError.

Definition set_data (p : Elf32_Phdr) (d : list byte) : Elf32_Phdr :=
  mkPhdr (p_type p) (p_offset p) (p_vaddr p) (p_paddr p) (p_filesz p)
         (p_memsz p) (p_flags p) (p_align p) d.

(** [Elf32_Ehdr.dumps] *)
Definition Ehdr_dumps (h : Elf32_Ehdr) : result (list byte) :=
  (b1 <- pack_uint 2 (e_type h) ;;
   b2 <- pack_uint 2 (e_machine h) ;;
   b3 <- pack_uint 4 (e_version h) ;;
   b4 <- pack_uint 4 (e_entry h) ;;
   b5 <- pack_uint 4 (e_phoff h) ;;
   b6 <- pack_uint 4 (e_shoff h) ;;
   b7 <- pack_uint 4 (e_flags h) ;;
   b8 <- pack_uint 2 (e_ehsize h) ;;
   b9 <- pack_uint 2 (e_phentsize h) ;;
   b10 <- pack_uint 2 (e_phnum h) ;;
   b11 <- pack_uint 2 (e_shentsize h) ;;
   b12 <- pack_uint 2 (e_shnum h) ;;
   b13 <- pack_uint 2 (e_shstrndx h) ;;
   Val (pack_bytes 16 (e_ident h) ++ b1 ++ b2 ++ b3 ++ b4 ++ b5 ++ b6 ++ b7
          ++ b8 ++ b9 ++ b10 ++ b11 ++ b12 ++ b13))%result.

(** [Elf32_Phdr.dumps] *)
Definition Phdr_dumps (p : Elf32_Phdr) : result (list byte) :=
  (b1 <- pack_uint 4 (p_type p) ;;
   b2 <- pack_uint 4 (p_offset p) ;;
   b3 <- pack_uint 4 (p_vaddr p) ;;
   b4 <- pack_uint 4 (p_paddr p) ;;
   b5 <- pack_uint 4 (p_filesz p) ;;
   b6 <- pack_uint 4 (p_memsz p) ;;
   b7 <- pack_uint 4 (p_flags p) ;;
   b8 <- pack_uint 4 (p_align p) ;;
   Val (b1 ++ b2 ++ b3 ++ b4 ++ b5 ++ b6 ++ b7 ++ b8))%result.

(** [class CoreFile]: the file header and the program headers. *)
Record CoreFile : Type := mkCore {
  _ehdr : Elf32_Ehdr;
  _phdr : list Elf32_Phdr
}.

(** [CoreFile()] *)
Definition CoreFile_new : CoreFile := mkCore Ehdr_default [].

(** The loop of [CoreFile.__init__] over [range(e_phnum)], from index
    [i], for [n] more iterations. *)
Fixpoint parse_phdrs (fileobj : list byte) (ehdr : Elf32_Ehdr)
    (i : Z) (n : nat) : result (list Elf32_Phdr) :=
  match n with
  | O => Val []
  | S n' =>
      let chunk := slice fileobj (e_phoff ehdr + i * e_phentsize ehdr)
                         (e_phoff ehdr + (i + 1) * e_phentsize ehdr) in
      (phdr <- Phdr_parse chunk ;;
       let phdr' := set_data phdr
         (slice fileobj (p_offset phdr) (p_offset phdr + p_filesz phdr)) in
       rest <- parse_phdrs fileobj ehdr (i + 1) n' ;;
       Val (phdr' :: rest))%result
  end.

(** [CoreFile(fileobj)] *)
Definition CoreFile_parse (fileobj : list byte) : result CoreFile :=
  (ehdr <- Ehdr_parse fileobj ;;
   phdrs <- parse_phdrs fileobj ehdr 0 (Z.to_nat (e_phnum ehdr)) ;;
   Val (mkCore ehdr phdrs))%result.

Definition set_phtable (h : Elf32_Ehdr) (phoff phentsize phnum : Z)
  : Elf32_Ehdr :=
  mkEhdr (e_ident h) (e_type h) (e_machine h) (e_version h) (e_entry h)
         phoff (e_shoff h) (e_flags h) (e_ehsize h) phentsize phnum
         (e_shentsize h) (e_shnum h) (e_shstrndx h).

(** The body of the loop of [update_headers] for one program header,
    with the running offset [ofs]. *)
Definition place (ofs : Z) (phdr : Elf32_Phdr) : Elf32_Phdr :=
  let filesz := Z.of_nat (length (data phdr)) in
  let memsz := if filesz >? p_memsz phdr then filesz else p_memsz phdr in
  mkPhdr (p_type phdr) ofs (p_vaddr phdr) (p_paddr phdr) filesz memsz
         (p_flags phdr) (p_align phdr) (data phdr).

(** The loop of [update_headers] over the program headers. *)
Fixpoint layout (ofs : Z) (ps : list Elf32_Phdr) : list Elf32_Phdr :=
  match ps with
  | [] => []
  | p :: ps' => place ofs p :: layout (ofs + Z.of_nat (length (data p))) ps'
  end.

(** [CoreFile.update_headers] *)
Definition update_headers (cf : CoreFile) : CoreFile :=
  let ehdr :=
    match _phdr cf with
    | [] => set_phtable (_ehdr cf) 0 0 0
    | _ :: _ =>
        set_phtable (_ehdr cf) Ehdr_sizeof Phdr_sizeof
                    (Z.of_nat (length (_phdr cf)))
    end in
  let ofs := e_phoff ehdr + e_phentsize ehdr * e_phnum ehdr in
  mkCore ehdr (layout ofs (_phdr cf)).

(** The first loop of [dump]: [f.write(phdr.dumps())] for every
    program header.  [f] is the content written so far; it is returned
    also when a header cannot be packed. *)
Fixpoint write_phdrs (ps : list Elf32_Phdr) (f : list byte)
  : list byte * result unit :=
  match ps with
  | [] => (f, Val tt)
  | p :: ps' =>
      match Phdr_dumps p with
      | Val b => write_phdrs ps' (f ++ b)
      | Raise e => (f, Raise e)
      end
  end.

(** The second loop of [dump]: [f.write(phdr.data)]. *)
Definition write_datas (ps : list Elf32_Phdr) (f : list byte) : list byte :=
  fold_left (fun acc p => acc ++ data p) ps f.

(** [CoreFile.dump(f)]: the updated object, the content of [f]
    afterwards, and the outcome. *)
Definition dump (cf : CoreFile) (f : list byte)
  : CoreFile * list byte * result unit :=
  let cf' := update_headers cf in
  match Ehdr_dumps (_ehdr cf') with
  | Raise e => (cf', f, Raise e)
  | Val hb =>
      match write_phdrs (_phdr cf') (f ++ hb) with
      | (f1, Raise e) => (cf', f1, Raise e)
      | (f1, Val _) => (cf', write_datas (_phdr cf') f1, Val tt)
      end
  end.

Definition set_type (cf : CoreFile) (t : Z) : CoreFile :=
  let h := _ehdr cf in
  mkCore (mkEhdr (e_ident h) t (e_machine h) (e_version h) (e_entry h)
            (e_phoff h) (e_shoff h) (e_flags h) (e_ehsize h) (e_phentsize h)
            (e_phnum h) (e_shentsize h) (e_shnum h) (e_shstrndx h))
         (_phdr cf).

Definition set_machine (cf : CoreFile) (m : Z) : CoreFile :=
  let h := _ehdr cf in
  mkCore (mkEhdr (e_ident h) (e_type h) m (e_version h) (e_entry h)
            (e_phoff h) (e_shoff h) (e_flags h) (e_ehsize h) (e_phentsize h)
            (e_phnum h) (e_shentsize h) (e_shnum h) (e_shstrndx h))
         (_phdr cf).

(** [CoreFile.add_program] *)
Definition add_program (cf : CoreFile) (ptype vaddr : Z) (d : list byte)
  : CoreFile :=
  let n := Z.of_nat (length d) in
  mkCore (_ehdr cf)
         (_phdr cf ++ [mkPhdr ptype 0 vaddr 0 n n 0 0 d]).

(** [class ARM_prstatus], format [<3LHHLLLLLLQQQQ]. *)
Record ARM_prstatus : Type := mkPrstatus {
  si_signo : Z;
  si_code : Z;
  si_errno : Z;
  pr_cursig : Z;
  pr_pad0 : Z;
  pr_sigpend : Z;
  pr_sighold : Z;
  pr_pid : Z;
  pr_ppid : Z;
  pr_pgrp : Z;
  pr_sid : Z;
  pr_utime : Z;
  pr_stime : Z;
  pr_cutime : Z;
  pr_cstime : Z
}.

(** [ARM_prstatus()]: every field unpacked from a zero buffer. *)
Definition prstatus_default : ARM_prstatus :=
  mkPrstatus 0 0 0 0 0 0 0 0 0 0 0 0 0 0 0.

(** [prstatus.pr_cursig = v] and [prstatus.pr_pid = v] *)
Definition set_pr_cursig (v : Z) (p : ARM_prstatus) : ARM_prstatus :=
  mkPrstatus (si_signo p) (si_code p) (si_errno p) v (pr_pad0 p)
             (pr_sigpend p) (pr_sighold p) (pr_pid p) (pr_ppid p)
             (pr_pgrp p) (pr_sid p) (pr_utime p) (pr_stime p) (pr_cutime p)
             (pr_cstime p).
Definition set_pr_pid (v : Z) (p : ARM_prstatus) : ARM_prstatus :=
  mkPrstatus (si_signo p) (si_code p) (si_errno p) (pr_cursig p) (pr_pad0 p)
             (pr_sigpend p) (pr_sighold p) v (pr_ppid p)
             (pr_pgrp p) (pr_sid p) (pr_utime p) (pr_stime p) (pr_cutime p)
             (pr_cstime p).

(** [ARM_prstatus.dumps] *)
Definition prstatus_dumps (p : ARM_prstatus) : result (list byte) :=
  (b1 <- pack_uint 4 (si_signo p) ;;
   b2 <- pack_uint 4 (si_code p) ;;
   b3 <- pack_uint 4 (si_errno p) ;;
   b4 <- pack_uint 2 (pr_cursig p) ;;
   b5 <- pack_uint 2 (pr_pad0 p) ;;
   b6 <- pack_uint 4 (pr_sigpend p) ;;
   b7 <- pack_uint 4 (pr_sighold p) ;;
   b8 <- pack_uint 4 (pr_pid p) ;;
   b9 <- pack_uint 4 (pr_ppid p) ;;
   b10 <- pack_uint 4 (pr_pgrp p) ;;
   b11 <- pack_uint 4 (pr_sid p) ;;
   b12 <- pack_uint 8 (pr_utime p) ;;
   b13 <- pack_uint 8 (pr_stime p) ;;
   b14 <- pack_uint 8 (pr_cutime p) ;;
   b15 <- pack_uint 8 (pr_cstime p) ;;
   Val (b1 ++ b2 ++ b3 ++ b4 ++ b5 ++ b6 ++ b7 ++ b8 ++ b9 ++ b10 ++ b11
          ++ b12 ++ b13 ++ b14 ++ b15))%result.

(** [((4 - n) % 4) * '\0'] *)
Definition padding (n : nat) : list byte :=
  repeat x00 (Z.to_nat ((4 - Z.of_nat n) mod 4)).

(** [note_desc(name, type, desc)] *)
Definition note_desc (name : list byte) (type : Z) (desc : list byte)
  : result (list byte) :=
  let name1 := name ++ [x00] in
  (b1 <- pack_uint 4 (Z.of_nat (length name1)) ;;
   b2 <- pack_uint 4 (Z.of_nat (length desc)) ;;
   b3 <- pack_uint 4 type ;;
   let header := b1 ++ b2 ++ b3 in
   let name2 := name1 ++ padding (length name1) in
   let desc2 := desc ++ padding (length desc) in
   Val (header ++ name2 ++ desc2))%result.

(** The header as it is read back: the identification is the sixteen
    bytes that [16s] wrote. *)
Definition Ehdr_written (h : Elf32_Ehdr) : Elf32_Ehdr :=
  mkEhdr (pack_bytes 16 (e_ident h)) (e_type h) (e_machine h) (e_version h)
         (e_entry h) (e_phoff h) (e_shoff h) (e_flags h) (e_ehsize h)
         (e_phentsize h) (e_phnum h) (e_shentsize h) (e_shnum h)
         (e_shstrndx h).

(** The total size of the payloads of the first [i] program headers. *)
Definition payload_before (ps : list Elf32_Phdr) (i : nat) : Z :=
  Z.of_nat (length (concat (map data (firstn i ps)))).

(** Every field of the header, or of a program header, is in the range
    of its format code. *)
Definition fits (n : nat) (v : Z) : bool :=
  (0 <=? v) && (v <? 256 ^ Z.of_nat n).

Definition Ehdr_fits (h : Elf32_Ehdr) : bool :=
  fits 2 (e_type h) && fits 2 (e_machine h) && fits 4 (e_version h)
  && fits 4 (e_entry h) && fits 4 (e_phoff h) && fits 4 (e_shoff h)
  && fits 4 (e_flags h) && fits 2 (e_ehsize h) && fits 2 (e_phentsize h)
  && fits 2 (e_phnum h) && fits 2 (e_shentsize h) && fits 2 (e_shnum h)
  && fits 2 (e_shstrndx h).

Definition Phdr_fits (p : Elf32_Phdr) : bool :=
  fits 4 (p_type p) && fits 4 (p_offset p) && fits 4 (p_vaddr p)
  && fits 4 (p_paddr p) && fits 4 (p_filesz p) && fits 4 (p_memsz p)
  && fits 4 (p_flags p) && fits 4 (p_align p).

End Corefile.

(* ================================================================= *)
(** ** A state monad with exceptions

    [M S A] is a computation over a mutable state [S] that returns an
    [A] or raises; the state reached is returned in both cases, as a
    Python object keeps the attributes assigned before a raise. *)

Definition M (S A : Type) : Type := S -> S * result A.

Definition ret {S A} (a : A) : M S A := fun s => (s, Val a).
Definition raise {S A} (e : exn) : M S A := fun s => (s, Raise e).
Definition bind {S A B} (m : M S A) (k : A -> M S B) : M S B :=
  fun s =>
    match m s with
    | (s', Val a) => k a s'
    | (s', Raise e) => (s', Raise e)
    end.
Definition get {S} : M S S := fun s => (s, Val s).
Definition modify {S} (f : S -> S) : M S unit := fun s => (f s, Val tt).
Definition lift {S A} (r : result A) : M S A := fun s => (s, r).

(** [try: m  except: h] with a bare [except]. *)
Definition try_except {S} (m : M S unit) (h : M S unit) : M S unit :=
  fun s =>
    match m s with
    | (s', Val _) => (s', Val tt)
    | (s', Raise _) => h s'
    end.

Declare Scope monad_scope.
Delimit Scope monad_scope with monad.
Notation "x <-- m ;; k" := (bind m (fun x => k))
  (at level 61, m at next level, right associativity) : monad_scope.
Notation "m ;;; k" := (bind m (fun _ => k))
  (at level 61, right associativity) : monad_scope.

(** [for x in xs: body x] *)
Fixpoint for_each {S A} (xs : list A) (body : A -> M S unit) : M S unit :=
  match xs with
  | [] => ret tt
  | x :: xs' => (body x ;;; for_each xs' body)%monad
  end.

(** [l[i] = v]: raises [IndexError] out of range. *)
Fixpoint list_set {A} (l : list A) (i : nat) (v : A) : result (list A) :=
  match l, i with
  | [], _ => Raise IndexError
  | _ :: l', O => Val (v :: l')
  | x :: l', S i' => (r <- list_set l' i' v ;; Val (x :: r))%result
  end.

(** [l[i]]: raises [IndexError] out of range. *)
Definition list_get {A} (l : list A) (i : nat) : result A :=
  match nth_error l i with
  | Some v => Val v
  | None => Raise IndexError
  end.

(** [keeps P m Q]: from a state in [P], [m] ends in a state in [P],
    whether it returns or raises, and a returned value is in [Q]. *)
Definition keeps {S A} (P : S -> Prop) (m : M S A) (Q : A -> Prop) : Prop :=
  forall s, P s ->
            P (fst (m s)) /\ forall a, snd (m s) = Val a -> Q a.

(* ================================================================= *)
(** ** String formatting used by the scripts *)

Module Fmt.
Local Open Scope string_scope.

(** ["%d" % n] *)
Definition dec (n : Z) : string :=
  DecimalString.NilZero.string_of_int (Z.to_int n).

Definition upper_hex (c : ascii) : ascii :=
  match c with
  | "a"%char => "A"%char
  | "b"%char => "B"%char
  | "c"%char => "C"%char
  | "d"%char => "D"%char
  | "e"%char => "E"%char
  | "f"%char => "F"%char
  | _ => c
  end.

Fixpoint map_string (f : ascii -> ascii) (s : string) : string :=
  match s with
  | EmptyString => EmptyString
  | String c s' => String (f c) (map_string f s')
  end.

(** ["%X" % n] *)
Definition hex (n : Z) : string :=
  match n with
  | Z0 => "0"
  | Zpos p =>
      map_string upper_hex
        (HexadecimalString.NilEmpty.string_of_uint (Pos.to_hex_uint p))
  | Zneg p =>
      "-" ++ map_string upper_hex
        (HexadecimalString.NilEmpty.string_of_uint (Pos.to_hex_uint p))
  end.

Fixpoint spaces (n : nat) : string :=
  match n with
  | O => EmptyString
  | S n' => String " "%char (spaces n')
  end.

(** ["%-<w>s" % s]: left-justified in a field of [w] characters. *)
Definition ljust (w : nat) (s : string) : string :=
  s ++ spaces (w - String.length s).

End Fmt.

(* ================================================================= *)
(** ** The debugger and the stopped target, as [chibios.py] sees them *)

Module Gdb.

(** Registers named in the commands and expressions of the script:
    [$r0] .. [$r15], [$xpsr], [$msp], [$psp]. *)
Inductive reg_name : Type :=
| R (i : nat)
| XPSR
| MSP
| PSP.

(** The command [set $<reg> = <value>] given to [gdb.execute]. *)
Record set_cmd : Type := SetReg { cmd_reg : reg_name; cmd_value : Z }.

(** [gdb.Block]: the function it belongs to, if it is a function's
    outermost block, and the enclosing block; the outermost block of a
    symbol table has no superblock. *)
Inductive Block : Type :=
| Outermost (function : option string)
| Inner (function : option string) (superblock : Block).

Definition function (b : Block) : option string :=
  match b with
  | Outermost f => f
  | Inner f _ => f
  end.

Definition superblock (b : Block) : option Block :=
  match b with
  | Outermost _ => None
  | Inner _ sb => Some sb
  end.

(** The fields of the kernel's thread structure that the script reads
    through a thread pointer: [p_name] (the C string it points to, when
    readable), [p_newer] and [p_ctx.r13] (a pointer to the saved
    context record on the thread's stack). *)
Record Thread : Type := mkKThread {
  p_name : option string;
  p_newer : Z;
  p_ctx_r13 : Z
}.

(** The fields read through [p_ctx.r13]: [r4] .. [r11] and [lr]. *)
Record intctx : Type := mkIntctx {
  ctx_r : nat -> Z;
  ctx_lr : Z
}.

(** What gdb answers while the target is stopped.  The kernel's type
    declarations are not part of the scripts, so the size of the record
    [p_ctx.r13] points to is a field here; it is the unit of the
    pointer arithmetic [r13+1]. *)
Record Inferior : Type := mkInferior {
  (** [gdb.newest_frame().select()] succeeds *)
  newest_frame : bool;
  (** the value of [$<reg>], when it can be evaluated *)
  reg_value : reg_name -> option Z;
  (** [gdb.parse_and_eval('currp')] *)
  sym_currp : option Z;
  (** [gdb.parse_and_eval('rlist.r_newer')] *)
  sym_rlist_r_newer : option Z;
  (** the thread structure at an address, when readable *)
  thread_at : Z -> option Thread;
  (** the saved context record at an address, when readable *)
  intctx_at : Z -> option intctx;
  (** [sizeof] of the saved context record *)
  intctx_sizeof : Z;
  (** target memory, byte by byte *)
  memory : Z -> option byte;
  (** [gdb.block_for_pc] *)
  block_for_pc : Z -> option Block;
  (** whether the target refuses a command, given the commands issued
      before it *)
  rejects : list set_cmd -> set_cmd -> bool
}.

(** [int(v.cast(gdb.lookup_type('unsigned long')))] and
    [int(gdb.parse_and_eval("(unsigned long)..."))] on the 32-bit
    target. *)
Definition cast_long (v : Z) : Z := v mod 2 ^ 32.

Definition deref_thread (inf : Inferior) (a : Z) : result Thread :=
  match thread_at inf a with
  | Some th => Val th
  | None => Raise MemoryError
  end.

Definition deref_intctx (inf : Inferior) (a : Z) : result intctx :=
  match intctx_at inf a with
  | Some c => Val c
  | None => Raise MemoryError
  end.

(** [tp.dereference()['p_name'].string()] *)
Definition thread_name (inf : Inferior) (a : Z) : result string :=
  (th <- deref_thread inf a ;;
   match p_name th with
   | Some s => Val s
   | None => Raise MemoryError
   end)%result.

(** [gdb.selected_inferior().read_memory(addr, n)] *)
Fixpoint read_memory (inf : Inferior) (addr : Z) (n : nat)
  : result (list byte) :=
  match n with
  | O => Val []
  | S n' =>
      match memory inf addr with
      | None => Raise MemoryError
      | Some b => (bs <- read_memory inf (addr + 1) n' ;; Val (b :: bs))%result
      end
  end.

(** What the script does to the outside: the commands it has given to
    [gdb.execute], in order, and the lines it has printed. *)
Record World : Type := mkWorld {
  gdb_log : list set_cmd;
  console : list string
}.

Definition print (line : string) : M World unit :=
  modify (fun w => mkWorld (gdb_log w) (console w ++ [line])).

(** [gdb.execute("set $<reg> = %d" % v)]: the command is issued; the
    target may refuse it, which raises [gdb.error]. *)
Definition execute (inf : Inferior) (c : set_cmd) : M World unit :=
  fun w =>
    let w' := mkWorld (gdb_log w ++ [c]) (console w) in
    if rejects inf (gdb_log w) c then (w', Raise GdbError) else (w', Val tt).

(** Issuing [cmds] in order after the commands [log]: the position of
    the first one that the target refuses, if any. *)
Fixpoint first_refused (inf : Inferior) (log cmds : list set_cmd)
  : option nat :=
  match cmds with
  | [] => None
  | c :: cmds' =>
      if rejects inf log c then Some O
      else option_map S (first_refused inf (log ++ [c]) cmds')
  end.

End Gdb.

(* ================================================================= *)
(** ** [chibios.py] *)

Module Chibios.
Import Pack Gdb.
Local Open Scope monad_scope.

(** [class ChibiThread].  [block] is [None] when the last frame lookup
    ran out of blocks. *)
Record ChibiThread : Type := mkThread {
  tp : Z;
  name : string;
  lwp : Z;
  regs : list Z;
  active : bool;
  block : option Block;
  frame_str : string
}.

Definition set_name (v : string) (t : ChibiThread) : ChibiThread :=
  mkThread (tp t) v (lwp t) (regs t) (active t) (block t) (frame_str t).
Definition set_regs (v : list Z) (t : ChibiThread) : ChibiThread :=
  mkThread (tp t) (name t) (lwp t) v (active t) (block t) (frame_str t).
Definition set_active (v : bool) (t : ChibiThread) : ChibiThread :=
  mkThread (tp t) (name t) (lwp t) (regs t) v (block t) (frame_str t).
Definition set_block (v : option Block) (t : ChibiThread) : ChibiThread :=
  mkThread (tp t) (name t) (lwp t) (regs t) (active t) v (frame_str t).
Definition set_frame_str (v : string) (t : ChibiThread) : ChibiThread :=
  mkThread (tp t) (name t) (lwp t) (regs t) (active t) (block t) v.

(** The module's global state, [ChibiThread.next_lwp], and the outside
    world. *)
Record Session : Type := mkSession {
  reg_cache : list Z;
  thread_cache : list ChibiThread;
  currp : option Z;
  next_lwp : Z;
  world : World
}.

(** The state when the module has been loaded, before its first
    [stop_handler()]. *)
Definition initial : Session := mkSession [] [] None 1 (mkWorld [] []).

Definition set_thread_cache (v : list ChibiThread) (s : Session) : Session :=
  mkSession (reg_cache s) v (currp s) (next_lwp s) (world s).
Definition set_world (v : World) (s : Session) : Session :=
  mkSession (reg_cache s) (thread_cache s) (currp s) (next_lwp s) v.

(** Run a computation on the outside world inside the session. *)
Definition in_world {A} (m : M World A) : M Session A :=
  fun s => let '(w, r) := m (world s) in (set_world w s, r).

(** [self.regs[i] = v] *)
Definition assign (i : nat) (v : Z) : M ChibiThread unit :=
  fun t =>
    match list_set (regs t) i v with
    | Val l => (set_regs l t, Val tt)
    | Raise e => (t, Raise e)
    end.

(** [self.regs[i]] *)
Definition reg (i : nat) : M ChibiThread Z :=
  fun t => (t, list_get (regs t) i).

(** The loop of [_update_frame]: the innermost block at or around [b]
    that has a function, with the function's name. *)
Fixpoint function_block (b : Block) : option (Block * string) :=
  match function b with
  | Some f => Some (b, f)
  | None =>
      match b with
      | Outermost _ => None
      | Inner _ sb => function_block sb
      end
  end.

(** The scopes around a program counter, as the frame lookup is
    described: the block [b] and the blocks enclosing it, from the
    inside out; and the first of them that has a function. *)
Fixpoint outward (b : Block) : list Block :=
  match b with
  | Outermost _ => [b]
  | Inner _ sb => b :: outward sb
  end.

Definition named_scope (b : Block) : option (Block * string) :=
  match find (fun x => match function x with Some _ => true | None => false end)
             (outward b) with
  | Some fb =>
      match function fb with
      | Some f => Some (fb, f)
      | None => None
      end
  | None => None
  end.

(** [ChibiThread._update_frame].  [self.block.function] on [None]
    raises [AttributeError]. *)
Definition _update_frame (inf : Inferior) : M ChibiThread unit :=
  pc <-- reg 15 ;;
  match block_for_pc inf pc with
  | None => modify (set_block None) ;;; raise AttributeError
  | Some b =>
      match function_block b with
      | None => modify (set_block None) ;;; raise AttributeError
      | Some (fb, f) =>
          modify (set_block (Some fb)) ;;;
          modify (set_frame_str
                    ("0x" ++ Fmt.hex pc ++ " in " ++ f ++ " ()")%string)
      end
  end.

(** [str(self.block.function) == fname] *)
Definition in_function (fname : string) (t : ChibiThread) : bool :=
  match block t with
  | Some b =>
      match function b with
      | Some f => String.eqb f fname
      | None => false
      end
  | None => false
  end.

(** The exception-frame branch of [_update]. *)
Definition pop_exception_frame (inf : Inferior) : M ChibiThread unit :=
  sp <-- reg 13 ;;
  bytes <-- lift (read_memory inf sp 32) ;;
  stack <-- lift (unpack_words 8 bytes) ;;
  modify (fun t => set_regs (firstn 4 stack ++ skipn 4 (regs t)) t) ;;;
  s4 <-- lift (list_get stack 4) ;;
  assign 12 s4 ;;;
  s5 <-- lift (list_get stack 5) ;;
  assign 14 s5 ;;;
  s6 <-- lift (list_get stack 6) ;;
  assign 15 s6 ;;;
  s7 <-- lift (list_get stack 7) ;;
  assign 16 s7 ;;;
  sp' <-- reg 13 ;;
  assign 13 (sp' + 0x68) ;;;
  _update_frame inf.

(** The inactive branch of [_update] up to and including the first
    frame lookup.  [r13] is a pointer value, through which the script
    reads the fields [lr] and [r4] .. [r11]; [r13+1] is therefore gdb's
    pointer arithmetic and advances by one record. *)
Definition saved_context (inf : Inferior) : M ChibiThread unit :=
  modify (set_active false) ;;;
  t <-- get ;;
  th <-- lift (deref_thread inf (tp t)) ;;
  let r13 := p_ctx_r13 th in
  assign 13 (cast_long (r13 + 1 * intctx_sizeof inf)) ;;;
  ctx <-- lift (deref_intctx inf r13) ;;
  assign 15 (cast_long (ctx_lr ctx)) ;;;
  for_each (seq 4 8) (fun i => assign i (cast_long (ctx_r ctx i))) ;;;
  _update_frame inf.

(** [self.tp == currp] *)
Definition is_currp (cp : option Z) (a : Z) : bool :=
  match cp with
  | Some c => a =? c
  | None => false
  end.

(** [ChibiThread._update], with the globals it reads. *)
Definition _update (inf : Inferior) (rc : list Z) (cp : option Z)
  : M ChibiThread unit :=
  t <-- get ;;
  nm <-- lift (thread_name inf (tp t)) ;;
  modify (set_name nm) ;;;
  modify (set_regs rc) ;;;
  if is_currp cp (tp t) then
    modify (set_active true) ;;;
    _update_frame inf
  else
    saved_context inf ;;;
    t' <-- get ;;
    if in_function "_port_switch_from_isr" t'
    then pop_exception_frame inf
    else ret tt.

(** [ChibiThread(tp)]: the new object, unless its construction raises.
    The label is taken once the name has been read. *)
Definition ChibiThread_init (inf : Inferior) (a : Z) : M Session ChibiThread :=
  nm <-- lift (thread_name inf a) ;;
  s <-- get ;;
  modify (fun s => mkSession (reg_cache s) (thread_cache s) (currp s)
                             (next_lwp s + 1) (world s)) ;;;
  let t0 := mkThread a nm (next_lwp s) [] false None EmptyString in
  match _update inf (reg_cache s) (currp s) t0 with
  | (t, Val _) => ret t
  | (_, Raise e) => raise e
  end.

(** The loop of [get_cpu_regs] over the general-purpose registers. *)
Fixpoint read_gprs (inf : Inferior) (idx : list nat) (regs : list Z)
  : result (list Z) :=
  match idx with
  | [] => Val regs
  | i :: idx' =>
      match reg_value inf (R i) with
      | None => Raise GdbError
      | Some v =>
          (regs' <- list_set regs i (cast_long v) ;;
           read_gprs inf idx' regs')%result
      end
  end.

(** [get_cpu_regs] *)
Definition get_cpu_regs (inf : Inferior) : result (list Z) :=
  if newest_frame inf then
    (regs <- read_gprs inf (seq 0 16) (repeat 0 19) ;;
     match reg_value inf XPSR with
     | None => Raise GdbError
     | Some v => list_set regs 16 (cast_long v)
     end)%result
  else Raise GdbError.

(** The loop of [set_cpu_regs] over the general-purpose registers. *)
Definition write_gprs (inf : Inferior) (regs : list Z) : M World unit :=
  for_each (seq 0 16)
    (fun i => v <-- lift (list_get regs i) ;; execute inf (SetReg (R i) v)).

(** [set_cpu_regs] *)
Definition set_cpu_regs (inf : Inferior) (regs : list Z) : M World unit :=
  (if newest_frame inf then ret tt else raise GdbError) ;;;
  write_gprs inf regs ;;;
  try_except
    (x <-- lift (list_get regs 16) ;; execute inf (SetReg XPSR x))
    (print "Failed to set xpsr") ;;;
  x <-- lift (list_get regs 16) ;;
  if negb (Z.land x 0xff =? 0) then
    sp <-- lift (list_get regs 13) ;;
    execute inf (SetReg MSP sp)
  else
    sp <-- lift (list_get regs 13) ;;
    execute inf (SetReg PSP sp).

(** The commands that the first loop of [set_cpu_regs] issues when no
    command is refused. *)
Definition gpr_cmds (regs : list Z) : list set_cmd :=
  map (fun i => SetReg (R i) (nth i regs 0)) (seq 0 16).

(** The stack-pointer alias that [set_cpu_regs] writes for a given
    [xpsr]. *)
Definition sp_alias (xpsr : Z) : reg_name :=
  if negb (Z.land xpsr 0xff =? 0) then MSP else PSP.

(** A thread object for the thread pointer [a], with the label [l] and
    a register list of 19 entries. *)
Definition thread_of (a l : Z) (t : ChibiThread) : Prop :=
  tp t = a /\ lwp t = l /\ length (regs t) = 19%nat.

(** The [while True] loop of [stop_handler]: the thread pointers that
    follow [last] on the ring, up to the first one that is [first]
    again or whose saved [r13] is zero.  [None]: the loop is still
    running when the fuel is spent. *)
Fixpoint walk (inf : Inferior) (fuel : nat) (first last : Z)
  : option (result (list Z)) :=
  match fuel with
  | O => None
  | S fuel' =>
      match deref_thread inf last with
      | Raise e => Some (Raise e)
      | Val th =>
          let tp := p_newer th in
          if tp =? first then Some (Val [])
          else
            match deref_thread inf tp with
            | Raise e => Some (Raise e)
            | Val th' =>
                if p_ctx_r13 th' =? 0 then Some (Val [])
                else
                  match walk inf fuel' first tp with
                  | None => None
                  | Some r => Some (rest <- r ;; Val (tp :: rest))%result
                  end
            end
      end
  end.

(** [tmp_thread_list] at the end of the loop. *)
Definition scan (inf : Inferior) (fuel : nat) : option (result (list Z)) :=
  match sym_rlist_r_newer inf with
  | None => Some (Raise GdbError)
  | Some first =>
      match walk inf fuel first first with
      | None => None
      | Some r => Some (rest <- r ;; Val (first :: rest))%result
      end
  end.

(** The walk on the ring, as it is described: starting after the record
    [last], the records [rest] are visited in order; each of them is
    not [first] and has a non-zero saved [r13]; the record after the
    last of them is [first] again, or has a zero saved [r13]. *)
Inductive follows (inf : Inferior) (first : Z) : Z -> list Z -> Prop :=
| follows_closed (last : Z) (th : Thread) :
    thread_at inf last = Some th ->
    p_newer th = first ->
    follows inf first last []
| follows_zero (last : Z) (th th' : Thread) :
    thread_at inf last = Some th ->
    p_newer th <> first ->
    thread_at inf (p_newer th) = Some th' ->
    p_ctx_r13 th' = 0 ->
    follows inf first last []
| follows_step (last : Z) (th th' : Thread) (rest : list Z) :
    thread_at inf last = Some th ->
    p_newer th <> first ->
    thread_at inf (p_newer th) = Some th' ->
    p_ctx_r13 th' <> 0 ->
    follows inf first (p_newer th) rest ->
    follows inf first last (p_newer th :: rest).

(** [for t in thread_cache: t._update()] *)
Fixpoint update_all (inf : Inferior) (rc : list Z) (cp : option Z)
    (ts : list ChibiThread) : list ChibiThread * result unit :=
  match ts with
  | [] => ([], Val tt)
  | t :: ts' =>
      match _update inf rc cp t with
      | (t', Val _) =>
          let '(ts'', r) := update_all inf rc cp ts' in (t' :: ts'', r)
      | (t', Raise e) => (t' :: ts', Raise e)
      end
  end.

(** ["[New thread '%s']" % ct.name] *)
Definition new_thread_line (ct : ChibiThread) : string :=
  ("[New thread '" ++ name ct ++ "']")%string.

(** The body of the announcing loop, for one pointer of
    [tmp_thread_list].  The script compares [str(t)]; the printed form
    of a pointer is taken to determine the pointer. *)
Definition announce (inf : Inferior) (old_thread_set : list Z) (a : Z)
  : M Session unit :=
  if existsb (Z.eqb a) old_thread_set then ret tt
  else
    ct <-- ChibiThread_init inf a ;;
    modify (fun s => set_thread_cache (thread_cache s ++ [ct]) s) ;;;
    in_world (print (new_thread_line ct)).

(** The pointers of [tmp_thread_list] that are not in
    [old_thread_set]. *)
Definition fresh_of (old_thread_set tmp_thread_list : list Z) : list Z :=
  filter (fun a => negb (existsb (Z.eqb a) old_thread_set)) tmp_thread_list.

(** [s.startswith(p)] *)
Fixpoint starts_with (p s : string) : bool :=
  match p, s with
  | EmptyString, _ => true
  | String a p', String b s' => Ascii.eqb a b && starts_with p' s'
  | String _ _, EmptyString => false
  end.

(** The printed lines that announce a thread. *)
Definition is_new_thread_line (line : string) : bool :=
  starts_with "[New thread '" line.

(** [stop_handler] from the update of the known threads on. *)
Definition rescan (inf : Inferior) (tmp_thread_list : list Z)
  : M Session unit :=
  (fun s =>
     let '(ts, r) := update_all inf (reg_cache s) (currp s) (thread_cache s) in
     (set_thread_cache ts s, r)) ;;;
  s <-- get ;;
  let old_thread_set := map tp (thread_cache s) in
  for_each tmp_thread_list (announce inf old_thread_set) ;;;
  s' <-- get ;;
  in_world (set_cpu_regs inf (reg_cache s')).

(** [stop_handler].  [None]: the ring walk does not end within the
    fuel. *)
Definition stop_handler (inf : Inferior) (fuel : nat) (s : Session)
  : option (Session * result unit) :=
  match get_cpu_regs inf with
  | Raise e => Some (s, Raise e)
  | Val rc =>
      match sym_currp inf with
      | None => Some (mkSession rc [] None (next_lwp s) (world s), Val tt)
      | Some c =>
          let s1 := mkSession rc (thread_cache s) (Some c) (next_lwp s)
                              (world s) in
          match scan inf fuel with
          | None => None
          | Some (Raise e) => Some (s1, Raise e)
          | Some (Val tmp_thread_list) => Some (rescan inf tmp_thread_list s1)
          end
      end
  end.

(** [cont_handler] *)
Definition cont_handler (inf : Inferior) : M Session unit :=
  s <-- get ;;
  match reg_cache s with
  | [] => ret tt
  | _ :: _ => in_world (set_cpu_regs inf (reg_cache s))
  end.

(** [exit_handler] *)
Definition exit_handler : M Session unit :=
  modify (fun s => mkSession [] [] None 1 (world s)).

(** One row of [info threads]: ["%c %-4d %-20s %s"]. *)
Definition thread_row (t : ChibiThread) : string :=
  ((if active t then "*" else " ") ++ " " ++ Fmt.ljust 4 (Fmt.dec (lwp t))
     ++ " " ++ Fmt.ljust 20 (name t) ++ " " ++ frame_str t)%string.

(** [CommandInfoThreads.invoke] *)
Definition CommandInfoThreads_invoke : M Session unit :=
  in_world (print "  Id   Target Id            Frame") ;;;
  s <-- get ;;
  for_each (thread_cache s) (fun t => in_world (print (thread_row t))).

(** The selecting loop of [CommandThread.invoke] over the threads
    [ts], with the locals [old_lwp] and [found]; [n] is [int(arg)],
    evaluated at each comparison.  The threads are returned as the
    loop leaves them, also when it raises. *)
Fixpoint select_loop (inf : Inferior) (n : result Z) (ts : list ChibiThread)
    (old_lwp : Z) (found : bool) (w : World)
  : list ChibiThread * (Z * bool) * World * result unit :=
  match ts with
  | [] => ([], (old_lwp, found), w, Val tt)
  | t :: ts' =>
      match n with
      | Raise e => (ts, (old_lwp, found), w, Raise e)
      | Val k =>
          if lwp t =? k then
            match set_cpu_regs inf (regs t) w with
            | (w', Raise e) =>
                (set_active true t :: ts', (old_lwp, true), w', Raise e)
            | (w', Val _) =>
                let '(r, st, w'', o) := select_loop inf n ts' old_lwp true w' in
                (set_active true t :: r, st, w'', o)
            end
          else if active t then
            let '(r, st, w', o) := select_loop inf n ts' (lwp t) found w in
            (set_active false t :: r, st, w', o)
          else
            let '(r, st, w', o) := select_loop inf n ts' old_lwp found w in
            (t :: r, st, w', o)
      end
  end.

(** The restoring loop of [CommandThread.invoke]. *)
Definition reactivate (old_lwp : Z) (ts : list ChibiThread)
  : list ChibiThread :=
  map (fun t => if lwp t =? old_lwp then set_active true t else t) ts.

(** [int(arg)], which raises [ValueError] on a string that is not a
    number. *)
Definition py_int (int_of : string -> option Z) (arg : string) : result Z :=
  match int_of arg with
  | Some k => Val k
  | None => Raise ValueError
  end.

(** The local [old_lwp] at the end of the selecting loop when no label
    matches: the label of the last active thread, if any. *)
Fixpoint last_active (ts : list ChibiThread) (old_lwp : Z) : Z :=
  match ts with
  | [] => old_lwp
  | t :: ts' => last_active ts' (if active t then lwp t else old_lwp)
  end.

(** [CommandThread.invoke(arg)].  [int_of] is Python's [int] on
    strings. *)
Definition CommandThread_invoke (inf : Inferior)
    (int_of : string -> option Z) (arg : string) : M Session unit :=
  fun s =>
    let current :=
      if String.eqb arg EmptyString
      then find active (thread_cache s)
      else None in
    match current with
    | Some thread =>
        in_world
          (print ("[Current thread is " ++ Fmt.dec (lwp thread) ++ " ("
                    ++ name thread ++ ")]")%string) s
    | None =>
        let '(ts, (old_lwp, found), w, o) :=
          select_loop inf (py_int int_of arg) (thread_cache s) 0 false
                      (world s) in
        let s1 := set_world w (set_thread_cache ts s) in
        match o with
        | Raise e => (s1, Raise e)
        | Val _ =>
            if found then (s1, Val tt)
            else
              match py_int int_of arg with
              | Raise e => (s1, Raise e)
              | Val k =>
                  let line := ("Thread ID " ++ Fmt.dec k ++ " not known.")%string in
                  let '(w', _) := print line w in
                  (set_world w' (set_thread_cache (reactivate old_lwp ts) s),
                   Val tt)
              end
        end
    end.

(** What can happen to the loaded module: the debugger's events and
    the two commands, each with the target as it is then. *)
Inductive event : Type :=
| Stop (inf : Inferior)
| Cont (inf : Inferior)
| Exited
| CmdInfoThreads
| CmdThread (inf : Inferior) (int_of : string -> option Z) (arg : string).

(** One event.  An exception ends the handler and is reported by gdb;
    the state stays as the handler left it.  [None]: the handler does
    not return within the fuel. *)
Definition step (fuel : nat) (ev : event) (s : Session) : option Session :=
  match ev with
  | Stop inf =>
      match stop_handler inf fuel s with
      | Some (s', _) => Some s'
      | None => None
      end
  | Cont inf => Some (fst (cont_handler inf s))
  | Exited => Some (fst (exit_handler s))
  | CmdInfoThreads => Some (fst (CommandInfoThreads_invoke s))
  | CmdThread inf int_of arg =>
      Some (fst (CommandThread_invoke inf int_of arg s))
  end.

Fixpoint run (fuel : nat) (evs : list event) (s : Session) : option Session :=
  match evs with
  | [] => Some s
  | ev :: evs' =>
      match step fuel ev s with
      | Some s' => run fuel evs' s'
      | None => None
      end
  end.

(** The thread objects that a handler has added to [thread_cache],
    which are those it has announced. *)
Definition announced (s s' : Session) : list ChibiThread :=
  skipn (length (thread_cache s)) (thread_cache s').

(** A session of rescans: [stop_handler] at each of the given target
    states in turn, with the thread objects announced on the way, in
    order.  [None]: some handler does not return within the fuel. *)
Fixpoint rescans (fuel : nat) (infs : list Inferior) (s : Session)
  : option (Session * list ChibiThread) :=
  match infs with
  | [] => Some (s, [])
  | inf :: infs' =>
      match stop_handler inf fuel s with
      | None => None
      | Some (s', _) =>
          match rescans fuel infs' s' with
          | None => None
          | Some (s'', anns) => Some (s'', announced s s' ++ anns)
          end
      end
  end.

(** The registry is in order: no two thread objects for the same
    pointer, labels positive, increasing along the list and below the
    next label, 19 registers in every thread object. *)
Definition registry_ok (s : Session) : Prop :=
  0 < next_lwp s /\
  NoDup (map tp (thread_cache s)) /\
  StronglySorted Z.lt (map lwp (thread_cache s)) /\
  Forall (fun t => 0 < lwp t < next_lwp s) (thread_cache s) /\
  Forall (fun t => length (regs t) = 19%nat) (thread_cache s).

(** What a refresh that returns establishes for a thread object: it
    is active exactly when its pointer is [currp], and then its
    registers are the register cache. *)
Definition marked (rc : list Z) (cp : option Z) (t : ChibiThread) : Prop :=
  active t = is_currp cp (tp t) /\ (active t = true -> regs t = rc).

(** An unsigned 32-bit value. *)
Definition word (v : Z) : Prop := 0 <= v < 2 ^ 32.

(** The thread object has 19 registers, all unsigned 32-bit values. *)
Definition words_ok (t : ChibiThread) : Prop :=
  length (regs t) = 19%nat /\ Forall word (regs t).

(** The registers of a thread object are 19 unsigned 32-bit values,
    except that the stack pointer, after the [0x68] bytes of an
    exception frame have been added to it, may exceed 32 bits by less
    than that. *)
Definition regs_ok (t : ChibiThread) : Prop :=
  length (regs t) = 19%nat /\
  (forall i, i <> 13%nat -> word (nth i (regs t) 0)) /\
  0 <= nth 13 (regs t) 0 < 2 ^ 32 + 0x68.

End Chibios.

(* ================================================================= *)
(** ** [coredump.py] *)

Module Coredump.
Import Pack Chibios.

(** [struct.pack("<19L", *t.regs)] *)
Definition pack_regs (t : ChibiThread) : result (list byte) :=
  pack_words 19 (regs t).

Import Gdb Corefile.

Definition SIGINT : Z := 2.
Definition SIGSEGV : Z := 11.

(** ["CORE"] *)
Definition CORE : list byte := [x43; x4f; x52; x45].

(** The status record that the loop of [CommandGCore.invoke] fills in
    for one thread: [pr_cursig] only for the active thread, [pr_pid]
    for every thread. *)
Definition thread_prstatus (sig : Z) (t : ChibiThread) : ARM_prstatus :=
  let prstatus := prstatus_default in
  let prstatus :=
    if active t then set_pr_cursig sig prstatus else prstatus in
  set_pr_pid (lwp t) prstatus.

(** The body of the loop of [CommandGCore.invoke]: the note of one
    thread. *)
Definition thread_note (sig : Z) (t : ChibiThread) : result (list byte) :=
  (d1 <- prstatus_dumps (thread_prstatus sig t) ;;
   d2 <- pack_regs t ;;
   note_desc CORE 1 (d1 ++ d2))%result.

(** The loop of [CommandGCore.invoke] over [chibios.thread_cache]. *)
Fixpoint notes_of (sig : Z) (ts : list ChibiThread) (notes : list byte)
  : result (list byte) :=
  match ts with
  | [] => Val notes
  | t :: ts' =>
      (n <- thread_note sig t ;; notes_of sig ts' (notes ++ n))%result
  end.

(** What [CommandGCore.invoke] takes from outside gdb:
    [time.strftime("%y%m%d-%H%M%S")], the [%r] form of a string, and
    whether [open(fn, "w")] succeeds. *)
Record Host : Type := mkHost {
  strftime : string;
  repr : string -> string;
  can_open : string -> bool
}.

(** How [CommandGCore.invoke] ends: the file written and the line
    printed; or an exception from [dump], with what the file holds
    then; or [IOError] from [open]; or an exception before the file is
    opened. *)
Inductive gcore_result : Type :=
| Dumped (fn : string) (content : list byte) (line : string)
| DumpFailed (fn : string) (content : list byte) (e : exn)
| OpenFailed (fn : string)
| Raised (e : exn).

(** The core object that [CommandGCore.invoke] builds. *)
Definition build_core (notes ccmram ram scs : list byte) : CoreFile :=
  add_program
    (add_program
       (add_program
          (add_program (set_machine (set_type CoreFile_new ET_CORE) 0x28)
                       PT_NOTE 0 notes)
          PT_LOAD 0x10000000 ccmram)
       PT_LOAD 0x20000000 ram)
    PT_LOAD 0xE000ED00 scs.

(** [CommandGCore.invoke(arg, sig=sig)] with the value of the parameter
    [gcore-file-name] and the thread objects of [chibios]. *)
Definition CommandGCore_invoke (inf : Inferior) (host : Host)
    (gcore_file_name : string) (thread_cache : list ChibiThread)
    (arg : string) (sig : Z) : gcore_result :=
  match notes_of sig thread_cache [] with
  | Raise e => Raised e
  | Val notes =>
      match read_memory inf 0x20000000 (Z.to_nat (128 * 1024)) with
      | Raise e => Raised e
      | Val ram =>
          match read_memory inf 0x10000000 (Z.to_nat (64 * 1024)) with
          | Raise e => Raised e
          | Val ccmram =>
              match read_memory inf 0xE000ED00 (Z.to_nat 0x40) with
              | Raise e => Raised e
              | Val scs =>
                  let core := build_core notes ccmram ram scs in
                  let fn :=
                    ((if String.eqb arg EmptyString
                      then gcore_file_name else arg)
                       ++ "-" ++ strftime host)%string in
                  if can_open host fn then
                    match dump core [] with
                    | (_, content, Val _) =>
                        Dumped fn content
                          ("(core dumped to " ++ repr host fn ++ ")")%string
                    | (_, content, Raise e) => DumpFailed fn content e
                    end
                  else OpenFailed fn
              end
          end
      end
  end.

(** The stop event that [coredump.stop_handler] receives: a
    [gdb.SignalEvent] with its [stop_signal], or another event. *)
Inductive stop_event : Type :=
| SignalEvent (stop_signal : string)
| OtherEvent.

(** [coredump.stop_handler(event)]; [None]: nothing is done. *)
Definition stop_handler (inf : Inferior) (host : Host)
    (gcore_file_name : string) (thread_cache : list ChibiThread)
    (event : stop_event) : option gcore_result :=
  match event with
  | SignalEvent stop_signal =>
      if String.eqb stop_signal "SIGSEGV"
      then Some (CommandGCore_invoke inf host gcore_file_name thread_cache
                                     EmptyString SIGSEGV)
      else None
  | OtherEvent => None
  end.

End Coredump.

(* ================================================================= *)
(** ** Concrete inputs used in the examples below *)

Module Examples.
Import Pack Corefile.

(** A core file with a note segment of three bytes and a load segment
    of two bytes at [0x20000000]. *)
Definition core_two_segments : CoreFile :=
  add_program
    (add_program (set_machine (set_type CoreFile_new ET_CORE) 0x28)
                 PT_NOTE 0 [x01; x02; x03])
    PT_LOAD 0x20000000 [x0a; x0b].

Import Gdb Chibios.

(** The chain of blocks around the body of function [f]: the function's
    block, the file's static block, the global block. *)
Definition function_body (f : string) : Block :=
  Inner (Some f) (Inner None (Outermost None)).

(** A stopped target with two threads on the registry ring: [main] at
    [0x20000100], which is running and has never been switched out (its
    saved [r13] is still zero), and [idle] at [0x20000200], which was
    preempted by an interrupt, so that its saved [lr] is in
    [_port_switch_from_isr] and an exception frame lies above its saved
    context at [0x20000800].  The ring is closed by the ready list at
    [0x20000010], whose context field is zero.  The saved context
    record has nine words. *)
Definition two_threads : Inferior :=
  mkInferior true
    (fun r =>
       match r with
       | R i => Some (0x1000 + Z.of_nat i)
       | XPSR => Some 0x01000000
       | _ => None
       end)
    (Some 0x20000100) (Some 0x20000100)
    (fun a =>
       if a =? 0x20000100
       then Some (mkKThread (Some "main"%string) 0x20000200 0)
       else if a =? 0x20000200
       then Some (mkKThread (Some "idle"%string) 0x20000010 0x20000800)
       else if a =? 0x20000010
       then Some (mkKThread None 0x20000100 0)
       else None)
    (fun a =>
       if a =? 0x20000800
       then Some (mkIntctx (fun i => 0x11 * Z.of_nat i) 0x08000101)
       else None)
    36
    (fun a =>
       if (0x20000824 <=? a) && (a <? 0x20000844)
       then Some (Pack.byte_of_Z (a - 0x20000824 + 1))
       else None)
    (fun pc =>
       if pc =? 0x08000101 then Some (function_body "_port_switch_from_isr")
       else if pc =? 0x1c1b1a19 then Some (Inner None (function_body "worker"))
       else if pc =? 0x100f then Some (function_body "main")
       else if pc =? 0x08000300 then Some (Inner None (Outermost None))
       else None)
    (fun _ _ => false).

Definition reg_name_eqb (a b : reg_name) : bool :=
  match a, b with
  | R i, R j => Nat.eqb i j
  | XPSR, XPSR => true
  | MSP, MSP => true
  | PSP, PSP => true
  | _, _ => false
  end.

(** The same target, except that it refuses every write to [r]. *)
Definition refusing (r : reg_name) (inf : Inferior) : Inferior :=
  mkInferior (newest_frame inf) (reg_value inf) (sym_currp inf)
             (sym_rlist_r_newer inf) (thread_at inf) (intctx_at inf)
             (intctx_sizeof inf) (memory inf) (block_for_pc inf)
             (fun _ c => reg_name_eqb (cmd_reg c) r).

(** A register set captured inside exception handler number 3. *)
Definition handler_regs : list Z :=
  [0; 1; 2; 3; 4; 5; 6; 7; 8; 9; 10; 11; 12; 0x20001000; 14; 0x08000200;
   0x01000003; 0; 0].

Definition empty_world : World := mkWorld [] [].

(** A thread object whose program counter, [0x08000200], has no block
    on [two_threads]; and the same with a program counter,
    [0x08000300], whose blocks have no function. *)
Definition lost_thread : ChibiThread :=
  mkThread 0x20000200 "idle" 2 handler_regs false None "0x8000101 in f ()".

(** A thread object whose program counter is in a nested block of
    [worker]. *)
Definition worker_thread : ChibiThread :=
  mkThread 0x20000200 "idle" 2
    [0; 0; 0; 0; 0; 0; 0; 0; 0; 0; 0; 0; 0; 0; 0; 0x1c1b1a19; 0; 0; 0]
    false None EmptyString.

Definition anonymous_thread : ChibiThread :=
  mkThread 0x20000200 "idle" 2
    [0; 1; 2; 3; 4; 5; 6; 7; 8; 9; 10; 11; 12; 0x20001000; 14; 0x08000300;
     0x01000000; 0; 0]
    false None "0x8000101 in f ()".

(** What [get_cpu_regs] returns on [two_threads]. *)
Definition captured : list Z :=
  [0x1000; 0x1001; 0x1002; 0x1003; 0x1004; 0x1005; 0x1006; 0x1007;
   0x1008; 0x1009; 0x100a; 0x100b; 0x100c; 0x100d; 0x100e; 0x100f;
   0x01000000; 0; 0].

(** The thread object of [idle] before its refresh. *)
Definition idle_thread : ChibiThread :=
  mkThread 0x20000200 "idle" 2 [] false None EmptyString.

(** A stopped target on which [currp] cannot be evaluated. *)
Definition no_kernel (inf : Inferior) : Inferior :=
  mkInferior (newest_frame inf) (reg_value inf) None
             (sym_rlist_r_newer inf) (thread_at inf) (intctx_at inf)
             (intctx_sizeof inf) (memory inf) (block_for_pc inf)
             (rejects inf).

(** The session after the first stop at [two_threads]. *)
Definition after_stop : Session :=
  match stop_handler two_threads 3 initial with
  | Some (s, _) => s
  | None => initial
  end.

(** The same target with every address readable. *)
Definition readable (inf : Inferior) : Inferior :=
  mkInferior (newest_frame inf) (reg_value inf) (sym_currp inf)
             (sym_rlist_r_newer inf) (thread_at inf) (intctx_at inf)
             (intctx_sizeof inf) (fun a => Some (Pack.byte_of_Z a))
             (block_for_pc inf) (rejects inf).

(** A host at the start of 1970 on which every file can be opened;
    the file names of the examples need no escapes in their [%r]
    form. *)
Definition host : Coredump.Host :=
  Coredump.mkHost "700101-000000" (fun s => ("'" ++ s ++ "'")%string)
                  (fun _ => true).

(** The same target without symbol information: no address has a
    block. *)
Definition no_symbols (inf : Inferior) : Inferior :=
  mkInferior (newest_frame inf) (reg_value inf) (sym_currp inf)
             (sym_rlist_r_newer inf) (thread_at inf) (intctx_at inf)
             (intctx_sizeof inf) (memory inf) (fun _ => None)
             (rejects inf).

(** The same target after a corruption of the registry ring: the
    record at [0x20000200] is linked to itself. *)
Definition self_linked (inf : Inferior) : Inferior :=
  mkInferior (newest_frame inf) (reg_value inf) (sym_currp inf)
             (sym_rlist_r_newer inf)
             (fun a =>
                if a =? 0x20000200
                then Some (mkKThread (Some "idle"%string) 0x20000200
                                     0x20000800)
                else thread_at inf a)
             (intctx_at inf) (intctx_sizeof inf) (memory inf)
             (block_for_pc inf) (rejects inf).

(** The same target after [idle] has been taken off the registry ring:
    [main] is linked to the ready list. *)
Definition without_idle (inf : Inferior) : Inferior :=
  mkInferior (newest_frame inf) (reg_value inf) (sym_currp inf)
             (sym_rlist_r_newer inf)
             (fun a =>
                if a =? 0x20000100
                then Some (mkKThread (Some "main"%string) 0x20000010 0)
                else thread_at inf a)
             (intctx_at inf) (intctx_sizeof inf) (memory inf)
             (block_for_pc inf) (rejects inf).

(** The same target with the saved context of [idle] at [0xFFFFFFB0],
    so that the exception frame above it lies in the last bytes of the
    address space. *)
Definition high_stack (inf : Inferior) : Inferior :=
  mkInferior (newest_frame inf) (reg_value inf) (sym_currp inf)
             (sym_rlist_r_newer inf)
             (fun a =>
                if a =? 0x20000200
                then Some (mkKThread (Some "idle"%string) 0x20000010
                                     0xFFFFFFB0)
                else thread_at inf a)
             (fun a =>
                if a =? 0xFFFFFFB0
                then Some (mkIntctx (fun i => 0x11 * Z.of_nat i) 0x08000101)
                else None)
             (intctx_sizeof inf)
             (fun a =>
                if (0xFFFFFFD4 <=? a) && (a <? 0xFFFFFFF4)
                then Some (Pack.byte_of_Z (a - 0xFFFFFFD4 + 1))
                else None)
             (block_for_pc inf) (rejects inf).

End Examples.

(* ================================================================= *)
(** * Properties *)

(** ** Little-endian packing *)

Section PackFacts.
Import Pack.

Lemma byte_val_range (b : byte) : 0 <= byte_val b < 256.
Proof.
  unfold byte_val. pose proof (Byte.to_N_bounded b). lia.
Qed.

Lemma byte_val_of_Z (v : Z) : byte_val (byte_of_Z v) = v mod 256.
Proof.
  unfold byte_val, byte_of_Z.
  assert (Hr : 0 <= v mod 256 < 256) by (apply Z.mod_pos_bound; lia).
  destruct (Byte.of_N (Z.to_N (v mod 256))) as [b|] eqn:E.
  - apply Byte.to_of_N in E. rewrite E. lia.
  - apply Byte.of_N_None_iff in E. lia.
Qed.

Lemma le_encode_length (n : nat) (v : Z) : length (le_encode n v) = n.
Proof.
  revert v. induction n as [|n IH]; intros v; simpl; [reflexivity|].
  now rewrite IH.
Qed.

Lemma le_decode_encode (n : nat) (v : Z) :
  le_decode (le_encode n v) = v mod 256 ^ Z.of_nat n.
Proof.
  revert v. induction n as [|n IH]; intros v.
  - simpl. now rewrite Z.mod_1_r.
  - cbn [le_encode le_decode]. rewrite byte_val_of_Z, IH.
    rewrite Nat2Z.inj_succ, Z.pow_succ_r by lia.
    rewrite Z.rem_mul_r; [reflexivity | lia | ].
    apply Z.pow_pos_nonneg; lia.
Qed.

Lemma le_decode_range (bs : list byte) :
  0 <= le_decode bs < 256 ^ Z.of_nat (length bs).
Proof.
  induction bs as [|b bs IH].
  - simpl. lia.
  - cbn [le_decode length]. rewrite Nat2Z.inj_succ, Z.pow_succ_r by lia.
    pose proof (byte_val_range b). lia.
Qed.

Lemma pack_uint_inv (n : nat) (v : Z) (b : list byte) :
  pack_uint n v = Val b ->
  b = le_encode n v /\ 0 <= v < 256 ^ Z.of_nat n.
Proof.
  unfold pack_uint.
  destruct (0 <=? v) eqn:E1; destruct (v <? 256 ^ Z.of_nat n) eqn:E2;
    simpl; intros H; inversion H; subst.
  split; [reflexivity | lia].
Qed.

Lemma pack_uint_length (n : nat) (v : Z) (b : list byte) :
  pack_uint n v = Val b -> length b = n.
Proof.
  intros H. apply pack_uint_inv in H as [-> _]. apply le_encode_length.
Qed.

Lemma pack_uint_decode (n : nat) (v : Z) (b : list byte) :
  pack_uint n v = Val b -> le_decode b = v.
Proof.
  intros H. apply pack_uint_inv in H as [-> Hr].
  rewrite le_decode_encode. now apply Z.mod_small.
Qed.

Lemma pack_uint_fits (n : nat) (v : Z) :
  0 <= v < 256 ^ Z.of_nat n -> pack_uint n v = Val (le_encode n v).
Proof.
  intros Hr. unfold pack_uint.
  replace (0 <=? v) with true by (symmetry; apply Z.leb_le; lia).
  replace (v <? 256 ^ Z.of_nat n) with true by (symmetry; apply Z.ltb_lt; lia).
  reflexivity.
Qed.

Lemma unpack_fields_cons (w : nat) (ws : list nat) (b rest : list byte) :
  length b = w ->
  unpack_fields (w :: ws) (b ++ rest) = le_decode b :: unpack_fields ws rest.
Proof.
  intros <-. cbn [unpack_fields].
  rewrite firstn_app, Nat.sub_diag, firstn_all, firstn_O, app_nil_r.
  rewrite skipn_app, Nat.sub_diag, skipn_all, skipn_O. reflexivity.
Qed.

Lemma slice_app_middle {A} (pre mid post : list A) (a b : Z) :
  a = Z.of_nat (length pre) ->
  b = a + Z.of_nat (length mid) ->
  slice (pre ++ mid ++ post) a b = mid.
Proof.
  intros -> ->. unfold slice.
  replace (Z.of_nat (length pre) + Z.of_nat (length mid) - Z.of_nat (length pre))
    with (Z.of_nat (length mid)) by lia.
  rewrite !Nat2Z.id.
  rewrite skipn_app, Nat.sub_diag, skipn_all, skipn_O. cbn [app].
  rewrite firstn_app, Nat.sub_diag, firstn_all, firstn_O, app_nil_r.
  reflexivity.
Qed.

Lemma slice_app_prefix {A} (pre post : list A) (b : Z) :
  b = Z.of_nat (length pre) -> slice (pre ++ post) 0 b = pre.
Proof.
  intros ->. change (pre ++ post) with ([] ++ pre ++ post).
  apply slice_app_middle; cbn [length]; lia.
Qed.

End PackFacts.

(** ** The core-file writer *)

Section CorefileFacts.
Import Pack Corefile.

Ltac bind_inv H :=
  repeat match type of H with
  | rbind ?r _ = Val _ =>
      let E := fresh "E" in
      destruct r eqn:E; cbn [rbind] in H; [ | discriminate H]
  end.

Lemma pack_bytes_length (n : nat) (s : list byte) :
  length (pack_bytes n s) = n.
Proof.
  unfold pack_bytes. rewrite length_firstn, length_app, repeat_length. lia.
Qed.

Lemma Phdr_dumps_length (p : Elf32_Phdr) (b : list byte) :
  Phdr_dumps p = Val b -> length b = 32%nat.
Proof.
  unfold Phdr_dumps. intros H. bind_inv H. inversion H; subst.
  repeat match goal with
  | E : pack_uint _ _ = Val _ |- _ => apply pack_uint_length in E
  end.
  rewrite !length_app. lia.
Qed.

Lemma Phdr_parse_dumps (p : Elf32_Phdr) (b rest : list byte) :
  Phdr_dumps p = Val b -> Phdr_parse (b ++ rest) = Val (set_data p []).
Proof.
  intros H. pose proof (Phdr_dumps_length _ _ H) as Hlen.
  unfold Phdr_parse.
  rewrite slice_app_prefix by (unfold Phdr_sizeof; lia).
  rewrite Hlen. cbn [Phdr_sizeof Z.to_nat Pos.to_nat Pos.iter_op Nat.eqb].
  change (Nat.eqb 32 (Pos.to_nat 32)) with true. cbv iota.
  rewrite <- (app_nil_r b).
  unfold Phdr_dumps in H. bind_inv H. inversion H; subst b; clear H.
  rewrite <- !app_assoc. cbn [repeat].
  repeat (rewrite unpack_fields_cons by (eapply pack_uint_length; eassumption)).
  cbn [unpack_fields].
  repeat match goal with
  | E : pack_uint _ _ = Val _ |- _ => apply pack_uint_decode in E; rewrite E
  end.
  reflexivity.
Qed.

Lemma Ehdr_dumps_length (h : Elf32_Ehdr) (b : list byte) :
  Ehdr_dumps h = Val b -> length b = 52%nat.
Proof.
  unfold Ehdr_dumps. intros H. bind_inv H. inversion H; subst.
  repeat match goal with
  | E : pack_uint _ _ = Val _ |- _ => apply pack_uint_length in E
  end.
  rewrite !length_app, pack_bytes_length. lia.
Qed.

Lemma Ehdr_parse_dumps (h : Elf32_Ehdr) (b rest : list byte) :
  Ehdr_dumps h = Val b -> Ehdr_parse (b ++ rest) = Val (Ehdr_written h).
Proof.
  intros H. pose proof (Ehdr_dumps_length _ _ H) as Hlen.
  unfold Ehdr_parse.
  rewrite slice_app_prefix by (unfold Ehdr_sizeof; lia).
  rewrite Hlen. change (Nat.eqb 52 (Z.to_nat Ehdr_sizeof)) with true. cbv iota.
  rewrite <- (app_nil_r b).
  unfold Ehdr_dumps in H. bind_inv H. inversion H; subst b; clear H.
  rewrite <- !app_assoc.
  rewrite firstn_app, skipn_app, pack_bytes_length.
  change (16 - 16)%nat with 0%nat. rewrite firstn_O, skipn_O.
  rewrite firstn_all2, skipn_all2 by (rewrite pack_bytes_length; lia).
  cbn [app].
  repeat (rewrite unpack_fields_cons by (eapply pack_uint_length; eassumption)).
  cbn [unpack_fields].
  repeat match goal with
  | E : pack_uint _ _ = Val _ |- _ => apply pack_uint_decode in E; rewrite E
  end.
  rewrite app_nil_r. reflexivity.
Qed.

Lemma layout_length (ps : list Elf32_Phdr) (ofs : Z) :
  length (layout ofs ps) = length ps.
Proof.
  revert ofs. induction ps as [|p ps IH]; intros ofs; simpl; [reflexivity|].
  now rewrite IH.
Qed.

Lemma layout_data (ps : list Elf32_Phdr) (ofs : Z) :
  map data (layout ofs ps) = map data ps.
Proof.
  revert ofs. induction ps as [|p ps IH]; intros ofs; simpl; [reflexivity|].
  now rewrite IH.
Qed.

Lemma payload_before_S (p : Elf32_Phdr) (ps : list Elf32_Phdr) (i : nat) :
  payload_before (p :: ps) (S i)
  = Z.of_nat (length (data p)) + payload_before ps i.
Proof.
  unfold payload_before. cbn [firstn map concat]. rewrite length_app. lia.
Qed.

Lemma layout_offsets (ps : list Elf32_Phdr) (ofs : Z) :
  map p_offset (layout ofs ps)
  = map (fun i => ofs + payload_before ps i) (seq 0 (length ps)).
Proof.
  revert ofs. induction ps as [|p ps IH]; intros ofs; [reflexivity|].
  cbn [layout length seq map place p_offset]. f_equal.
  - unfold payload_before. cbn. lia.
  - rewrite IH, <- seq_shift, map_map. apply map_ext.
    intros i. rewrite payload_before_S. lia.
Qed.

Lemma layout_filesz (ps : list Elf32_Phdr) (ofs : Z) :
  map p_filesz (layout ofs ps) = map (fun p => Z.of_nat (length (data p))) ps.
Proof.
  revert ofs. induction ps as [|p ps IH]; intros ofs; simpl; [reflexivity|].
  now rewrite IH.
Qed.

Lemma layout_vaddr (ps : list Elf32_Phdr) (ofs : Z) :
  map p_vaddr (layout ofs ps) = map p_vaddr ps.
Proof.
  revert ofs. induction ps as [|p ps IH]; intros ofs; simpl; [reflexivity|].
  now rewrite IH.
Qed.

Lemma layout_memsz (ps : list Elf32_Phdr) (ofs : Z) :
  Forall (fun q => p_filesz q <= p_memsz q) (layout ofs ps).
Proof.
  revert ofs. induction ps as [|p ps IH]; intros ofs; cbn [layout].
  - constructor.
  - constructor; [ | apply IH].
    cbn [place p_filesz p_memsz].
    destruct (Z.gtb_spec (Z.of_nat (length (data p))) (p_memsz p)); lia.
Qed.

Lemma layout_placed (ps : list Elf32_Phdr) :
  forall (ofs : Z) (pre post : list byte),
    Z.of_nat (length pre) = ofs ->
    Forall (fun q =>
              slice (pre ++ concat (map data ps) ++ post)
                    (p_offset q) (p_offset q + p_filesz q) = data q)
           (layout ofs ps).
Proof.
  induction ps as [|p ps IH]; intros ofs pre post Hpre; cbn [layout].
  - constructor.
  - constructor.
    + cbn [place p_offset p_filesz data map concat].
      rewrite <- app_assoc. apply slice_app_middle; lia.
    + cbn [map concat]. rewrite <- app_assoc.
      rewrite (app_assoc pre (data p)).
      apply IH. rewrite length_app. lia.
Qed.

Lemma write_datas_spec (ps : list Elf32_Phdr) (f : list byte) :
  write_datas ps f = f ++ concat (map data ps).
Proof.
  unfold write_datas. revert f.
  induction ps as [|p ps IH]; intros f; cbn.
  - now rewrite app_nil_r.
  - rewrite IH. now rewrite app_assoc.
Qed.

Lemma write_phdrs_ok (ps : list Elf32_Phdr) (f f1 : list byte) :
  write_phdrs ps f = (f1, Val tt) ->
  exists pbs,
    Forall2 (fun q b => Phdr_dumps q = Val b) ps pbs /\ f1 = f ++ concat pbs.
Proof.
  revert f. induction ps as [|p ps IH]; intros f H; cbn in H.
  - inversion H; subst. exists []. split; [constructor | now rewrite app_nil_r].
  - destruct (Phdr_dumps p) as [b|e] eqn:E; [ | discriminate H].
    destruct (IH _ H) as (pbs & HF & ->).
    exists (b :: pbs). split; [now constructor | ].
    cbn. now rewrite app_assoc.
Qed.

Lemma write_phdrs_fits (ps : list Elf32_Phdr) (f : list byte) :
  Forall (fun q => Phdr_fits q = true) ps ->
  exists f1, write_phdrs ps f = (f1, Val tt).
Proof.
  revert f. induction ps as [|p ps IH]; intros f HF; cbn.
  - now exists f.
  - inversion HF as [|? ? Hp Hps]; subst.
    unfold Phdr_fits in Hp. rewrite !andb_true_iff in Hp.
    destruct Hp as [[[[[[[H1 H2] H3] H4] H5] H6] H7] H8].
    unfold fits in *. unfold Phdr_dumps, pack_uint.
    rewrite H1, H2, H3, H4, H5, H6, H7, H8. cbn [rbind].
    apply IH, Hps.
Qed.

Lemma Ehdr_dumps_fits (h : Elf32_Ehdr) :
  Ehdr_fits h = true -> exists hb, Ehdr_dumps h = Val hb.
Proof.
  unfold Ehdr_fits. rewrite !andb_true_iff.
  intros [[[[[[[[[[[[H1 H2] H3] H4] H5] H6] H7] H8] H9] H10] H11] H12] H13].
  unfold fits in *. unfold Ehdr_dumps, pack_uint.
  rewrite H1, H2, H3, H4, H5, H6, H7, H8, H9, H10, H11, H12, H13.
  cbn [rbind]. eexists. reflexivity.
Qed.

Lemma set_data_id (q : Elf32_Phdr) : set_data (set_data q []) (data q) = q.
Proof. destruct q; reflexivity. Qed.

Lemma parse_phdrs_written (fileobj : list byte) (ehdr : Elf32_Ehdr)
    (qs : list Elf32_Phdr) (pbs : list (list byte)) :
  Forall2 (fun q b => Phdr_dumps q = Val b) qs pbs ->
  e_phentsize ehdr = Phdr_sizeof ->
  Forall (fun q =>
            slice fileobj (p_offset q) (p_offset q + p_filesz q) = data q) qs ->
  forall (i : Z) (pre post : list byte),
    Z.of_nat (length pre) = e_phoff ehdr + i * Phdr_sizeof ->
    fileobj = pre ++ concat pbs ++ post ->
    parse_phdrs fileobj ehdr i (length qs) = Val qs.
Proof.
  intros HF Hsz. induction HF as [|q b qs pbs Hq HF IH];
    intros Hpl i pre post Hpre Hfile.
  - reflexivity.
  - apply Forall_cons_iff in Hpl as [Hq_placed Hqs_placed].
    cbn [length parse_phdrs]. rewrite Hsz.
    pose proof (Phdr_dumps_length _ _ Hq) as Hb.
    assert (Hchunk : slice fileobj (e_phoff ehdr + i * Phdr_sizeof)
                       (e_phoff ehdr + (i + 1) * Phdr_sizeof) = b).
    { rewrite Hfile. cbn [concat]. rewrite <- app_assoc.
      apply slice_app_middle; [lia | ]. rewrite Hb. unfold Phdr_sizeof. lia. }
    rewrite Hchunk. rewrite <- (app_nil_r b) at 1.
    rewrite (Phdr_parse_dumps q b [] Hq). cbn [rbind].
    replace (p_offset (set_data q [])) with (p_offset q) by reflexivity.
    replace (p_filesz (set_data q [])) with (p_filesz q) by reflexivity.
    rewrite Hq_placed, set_data_id.
    rewrite (IH Hqs_placed (i + 1) (pre ++ b) post).
    + reflexivity.
    + rewrite length_app, Hb. unfold Phdr_sizeof in *. lia.
    + rewrite Hfile. cbn [concat]. now rewrite <- !app_assoc.
Qed.

Lemma update_headers_phdr (cf : CoreFile) :
  _phdr (update_headers cf)
  = layout (if (length (_phdr cf) =? 0)%nat then 0
            else Ehdr_sizeof + Phdr_sizeof * Z.of_nat (length (_phdr cf)))
           (_phdr cf).
Proof.
  unfold update_headers. destruct (_phdr cf) as [|p ps]; reflexivity.
Qed.

Lemma update_headers_ehdr (cf : CoreFile) :
  _ehdr (update_headers cf)
  = (if (length (_phdr cf) =? 0)%nat then set_phtable (_ehdr cf) 0 0 0
     else set_phtable (_ehdr cf) Ehdr_sizeof Phdr_sizeof
                      (Z.of_nat (length (_phdr cf)))).
Proof.
  unfold update_headers. destruct (_phdr cf) as [|p ps]; reflexivity.
Qed.

Lemma dump_inv (cf cf1 : CoreFile) (f out : list byte) :
  dump cf f = (cf1, out, Val tt) ->
  cf1 = update_headers cf /\
  exists hb pbs,
    Ehdr_dumps (_ehdr cf1) = Val hb /\
    Forall2 (fun q b => Phdr_dumps q = Val b) (_phdr cf1) pbs /\
    out = f ++ hb ++ concat pbs ++ concat (map data (_phdr cf1)).
Proof.
  unfold dump. intros H.
  destruct (Ehdr_dumps (_ehdr (update_headers cf))) as [hb|e] eqn:Eh;
    [ | discriminate H].
  destruct (write_phdrs (_phdr (update_headers cf)) (f ++ hb))
    as [f1 [[]|e]] eqn:Ew; [ | discriminate H].
  inversion H; subst cf1 out; clear H. split; [reflexivity|].
  destruct (write_phdrs_ok _ _ _ Ew) as (pbs & HF & ->).
  exists hb, pbs. repeat split; try assumption.
  rewrite write_datas_spec. now rewrite <- !app_assoc.
Qed.

Lemma dump_reparse (cf cf1 : CoreFile) (out : list byte) :
  dump cf [] = (cf1, out, Val tt) ->
  CoreFile_parse out = Val (mkCore (Ehdr_written (_ehdr cf1)) (_phdr cf1)).
Proof.
  intros H. destruct (dump_inv _ _ _ _ H) as (Hcf1 & hb & pbs & Hh & HF & Hout).
  cbn [app] in Hout. unfold CoreFile_parse.
  rewrite Hout at 1. rewrite (Ehdr_parse_dumps _ _ _ Hh). cbn [rbind].
  assert (Hn : Z.to_nat (e_phnum (Ehdr_written (_ehdr cf1)))
               = length (_phdr cf1)).
  { subst cf1. rewrite update_headers_ehdr, update_headers_phdr, layout_length.
    destruct (length (_phdr cf)) as [|n]; cbn [Nat.eqb]; [reflexivity | ].
    cbn [Ehdr_written set_phtable e_phnum]. apply Nat2Z.id. }
  rewrite Hn.
  destruct (_phdr cf) as [|p0 ps0] eqn:Eps.
  - assert (Hnil : _phdr cf1 = []).
    { subst cf1. rewrite update_headers_phdr, Eps. reflexivity. }
    rewrite Hnil. reflexivity.
  - erewrite (parse_phdrs_written out _ (_phdr cf1) pbs HF).
    + reflexivity.
    + subst cf1. rewrite update_headers_ehdr, Eps. reflexivity.
    + rewrite Hout. rewrite app_assoc.
      rewrite <- (app_nil_r (concat (map data (_phdr cf1)))).
      subst cf1. rewrite update_headers_phdr, layout_data.
      apply layout_placed.
      rewrite length_app, (Ehdr_dumps_length _ _ Hh).
      assert (Hpbs : length (concat pbs) = (32 * length pbs)%nat).
      { clear - HF. induction HF as [|q b qs pbs Hq HF IH]; [reflexivity|].
        cbn [concat length]. rewrite length_app, IH.
        rewrite (Phdr_dumps_length _ _ Hq). lia. }
      rewrite Hpbs, <- (Forall2_length HF).
      rewrite update_headers_phdr, layout_length, Eps.
      cbn [length Nat.eqb]. unfold Ehdr_sizeof, Phdr_sizeof. lia.
    + subst cf1. rewrite update_headers_ehdr, Eps. cbn [length Nat.eqb].
      cbn [Ehdr_written set_phtable e_phoff].
      rewrite (Ehdr_dumps_length _ _ Hh). unfold Ehdr_sizeof. lia.
    + rewrite Hout. reflexivity.
Qed.

Lemma dump_fits (cf : CoreFile) (f : list byte) :
  Ehdr_fits (_ehdr (update_headers cf)) = true ->
  forallb Phdr_fits (_phdr (update_headers cf)) = true ->
  exists out, dump cf f = (update_headers cf, out, Val tt).
Proof.
  intros Hh Hp. unfold dump.
  destruct (Ehdr_dumps_fits _ Hh) as [hb ->].
  rewrite forallb_forall in Hp. apply Forall_forall in Hp.
  destruct (write_phdrs_fits _ (f ++ hb) Hp) as [f1 ->].
  eexists. reflexivity.
Qed.

End CorefileFacts.

(** ** C3: what [dump] writes *)

Section SerializeClaims.
Import Pack Corefile.

(** C3, as stated, fails for a container without segments:
    [update_headers] then sets the segment-table offset to 0, not to
    the header size, and that 0 is what [dump] writes at bytes 28..31 of
    the file. *)
Lemma empty_container_table_offset_is_zero :
  _phdr CoreFile_new = [] /\
  e_phoff (_ehdr (update_headers CoreFile_new)) = 0 /\
  e_phoff (_ehdr (update_headers CoreFile_new)) <> Ehdr_sizeof /\
  exists out,
    dump CoreFile_new [] = (update_headers CoreFile_new, out, Val tt) /\
    le_decode (slice out 28 32) = 0.
Proof.
  split; [reflexivity | ]. split; [reflexivity | ].
  split; [discriminate | ].
  eexists. split; [vm_compute; reflexivity | vm_compute; reflexivity].
Qed.

(** C3 (amended).  For a container with N segments, [update_headers]
    (run by [dump]) sets the segment count to N and, when N >= 1, the
    segment-table offset to the header size and the descriptor size to
    32; when N = 0 both are 0.  The i-th descriptor's file offset is
    header size + N x descriptor size + the payload sizes of the
    segments before it, its file size is its payload length, its memory
    size is at least its file size, and its virtual address and payload
    are unchanged.  [dump] succeeds when every field fits its format
    code; when it succeeds on an empty file, the bytes written are the
    52 header bytes, then the 32-byte descriptors, then the payloads, in
    descriptor order, and parsing them back gives the header and exactly
    the updated descriptors with their payloads, hence every segment's
    virtual address and payload length. *)
Theorem serialize_layout (cf : CoreFile) :
  let N := length (_phdr cf) in
  let cf' := update_headers cf in
  e_phnum (_ehdr cf') = Z.of_nat N /\
  e_phoff (_ehdr cf') = (if (N =? 0)%nat then 0 else Ehdr_sizeof) /\
  e_phentsize (_ehdr cf') = (if (N =? 0)%nat then 0 else Phdr_sizeof) /\
  map p_offset (_phdr cf')
  = map (fun i => Ehdr_sizeof + Z.of_nat N * Phdr_sizeof
                  + payload_before (_phdr cf) i) (seq 0 N) /\
  map p_filesz (_phdr cf')
  = map (fun p => Z.of_nat (length (data p))) (_phdr cf) /\
  Forall (fun q => p_filesz q <= p_memsz q) (_phdr cf') /\
  map p_vaddr (_phdr cf') = map p_vaddr (_phdr cf) /\
  map data (_phdr cf') = map data (_phdr cf) /\
  (Ehdr_fits (_ehdr cf') = true ->
   forallb Phdr_fits (_phdr cf') = true ->
   exists out, dump cf [] = (cf', out, Val tt)) /\
  (forall cf1 out,
     dump cf [] = (cf1, out, Val tt) ->
     cf1 = cf' /\
     (exists hb pbs,
        Ehdr_dumps (_ehdr cf') = Val hb /\ length hb = 52%nat /\
        Forall2 (fun q b => Phdr_dumps q = Val b /\ length b = 32%nat)
                (_phdr cf') pbs /\
        out = hb ++ concat pbs ++ concat (map data (_phdr cf))) /\
     (exists cf2,
        CoreFile_parse out = Val cf2 /\
        _ehdr cf2 = Ehdr_written (_ehdr cf') /\
        _phdr cf2 = _phdr cf' /\
        map p_vaddr (_phdr cf2) = map p_vaddr (_phdr cf) /\
        map (fun p => length (data p)) (_phdr cf2)
        = map (fun p => length (data p)) (_phdr cf))).
Proof.
  intros N cf'. subst N cf'.
  rewrite update_headers_ehdr, update_headers_phdr.
  repeat apply conj.
  - destruct (length (_phdr cf)); reflexivity.
  - destruct (length (_phdr cf)); reflexivity.
  - destruct (length (_phdr cf)); reflexivity.
  - rewrite layout_offsets.
    destruct (length (_phdr cf)) as [|n] eqn:E; [reflexivity | ].
    apply map_ext. intros i. cbn [Nat.eqb]. lia.
  - apply layout_filesz.
  - apply layout_memsz.
  - apply layout_vaddr.
  - apply layout_data.
  - rewrite <- update_headers_ehdr, <- update_headers_phdr. apply dump_fits.
  - rewrite <- update_headers_ehdr, <- update_headers_phdr.
    intros cf1 out H.
    pose proof (dump_reparse _ _ _ H) as Hparse.
    destruct (dump_inv _ _ _ _ H) as (-> & hb & pbs & Hh & HF & Hout).
    split; [reflexivity | ]. split.
    + exists hb, pbs. split; [assumption | ].
      split; [eapply Ehdr_dumps_length; eassumption | ]. split.
      * clear - HF. induction HF as [|q b qs pbs Hq HF IH]; constructor.
        -- split; [assumption | eapply Phdr_dumps_length; eassumption].
        -- assumption.
      * rewrite Hout. cbn [app]. rewrite update_headers_phdr, layout_data.
        reflexivity.
    + eexists. split; [exact Hparse | ]. cbn [_ehdr _phdr].
      split; [reflexivity | ]. split; [reflexivity | ].
      rewrite update_headers_phdr. split; [apply layout_vaddr | ].
      rewrite <- (map_map data (@length byte)), layout_data.
      now rewrite map_map.
Qed.

(** The theorem at a container with two segments. *)
Lemma serialize_layout_witness :
  exists out cf2,
    dump Examples.core_two_segments []
    = (update_headers Examples.core_two_segments, out, Val tt) /\
    CoreFile_parse out = Val cf2 /\
    map p_vaddr (_phdr cf2) = [0; 0x20000000] /\
    map (fun p => length (data p)) (_phdr cf2) = [3%nat; 2%nat].
Proof.
  destruct (serialize_layout Examples.core_two_segments)
    as (_ & _ & _ & _ & _ & _ & _ & _ & Hfits & Hdump).
  destruct (Hfits eq_refl eq_refl) as [out Hout].
  destruct (Hdump _ _ Hout) as (_ & _ & cf2 & Hparse & _ & _ & Hv & Hl).
  exists out, cf2. split; [exact Hout | ]. split; [exact Hparse | ].
  split; [exact Hv | exact Hl].
Defined.

End SerializeClaims.

(** ** Writing the registers back *)

Section RestoreFacts.
Import Pack Gdb Chibios.

Lemma list_get_nth {A} (l : list A) (i : nat) (d : A) :
  (i < length l)%nat -> list_get l i = Val (nth i l d).
Proof.
  intros H. unfold list_get.
  destruct (nth_error l i) as [v|] eqn:E.
  - now rewrite (nth_error_nth _ _ d E).
  - apply nth_error_None in E. lia.
Qed.

(** The loop over the general-purpose registers stops at the first
    refused command; the commands up to and including it have been
    issued. *)
Lemma write_loop_spec (inf : Inferior) (regs : list Z) (idx : list nat) :
  Forall (fun i => (i < length regs)%nat) idx ->
  forall w : World,
    let cmds := map (fun i => SetReg (R i) (nth i regs 0)) idx in
    for_each idx
      (fun i => bind (lift (list_get regs i))
                     (fun v => execute inf (SetReg (R i) v))) w
    = match first_refused inf (gdb_log w) cmds with
      | None => (mkWorld (gdb_log w ++ cmds) (console w), Val tt)
      | Some k =>
          (mkWorld (gdb_log w ++ firstn (S k) cmds) (console w),
           Raise GdbError)
      end.
Proof.
  induction idx as [|i idx IH]; intros Hidx w; cbn zeta.
  - cbn. rewrite app_nil_r. now destruct w.
  - apply Forall_cons_iff in Hidx as [Hi Hidx].
    cbn [for_each map first_refused]. unfold bind at 1. unfold bind at 1.
    unfold lift. rewrite (list_get_nth regs i 0 Hi).
    unfold execute at 1.
    destruct (rejects inf (gdb_log w) (SetReg (R i) (nth i regs 0))) eqn:Er.
    + cbn [firstn]. reflexivity.
    + rewrite (IH Hidx). cbn [gdb_log console].
      destruct (first_refused inf _ _) as [k|]; cbn [option_map];
        cbn [firstn]; now rewrite <- app_assoc.
Qed.

Lemma write_gprs_spec (inf : Inferior) (regs : list Z) (w : World) :
  (16 <= length regs)%nat ->
  write_gprs inf regs w
  = match first_refused inf (gdb_log w) (gpr_cmds regs) with
    | None => (mkWorld (gdb_log w ++ gpr_cmds regs) (console w), Val tt)
    | Some k =>
        (mkWorld (gdb_log w ++ firstn (S k) (gpr_cmds regs)) (console w),
         Raise GdbError)
    end.
Proof.
  intros H. unfold write_gprs, gpr_cmds. apply write_loop_spec.
  apply Forall_forall. intros i Hi. apply in_seq in Hi. lia.
Qed.

(** [set_cpu_regs] when the target accepts the sixteen
    general-purpose writes. *)
Lemma set_cpu_regs_spec (inf : Inferior) (regs : list Z) (w : World) :
  (17 <= length regs)%nat ->
  newest_frame inf = true ->
  first_refused inf (gdb_log w) (gpr_cmds regs) = None ->
  let xpsr := nth 16 regs 0 in
  let sp := nth 13 regs 0 in
  let log1 := gdb_log w ++ gpr_cmds regs in
  let log2 := log1 ++ [SetReg XPSR xpsr] in
  set_cpu_regs inf regs w
  = (mkWorld (log2 ++ [SetReg (sp_alias xpsr) sp])
             (if rejects inf log1 (SetReg XPSR xpsr)
              then console w ++ ["Failed to set xpsr"%string]
              else console w),
     if rejects inf log2 (SetReg (sp_alias xpsr) sp)
     then Raise GdbError else Val tt).
Proof.
  intros Hlen Hframe Hgp. cbn zeta.
  cbv [set_cpu_regs bind ret raise lift try_except print modify].
  rewrite Hframe.
  rewrite write_gprs_spec, Hgp by lia.
  rewrite !(list_get_nth regs 16 0) by lia.
  rewrite !(list_get_nth regs 13 0) by lia.
  unfold execute, sp_alias. cbn [gdb_log console].
  destruct (rejects inf (gdb_log w ++ gpr_cmds regs)
                    (SetReg XPSR (nth 16 regs 0)));
    cbn [gdb_log console];
    destruct (negb (Z.land (nth 16 regs 0) 255 =? 0));
    destruct (rejects inf _ _); reflexivity.
Qed.

Lemma low_byte_bits (x : Z) :
  Z.land x 0xff <> 0 <-> exists i, 0 <= i < 8 /\ Z.testbit x i = true.
Proof.
  change 0xff with (Z.ones 8). rewrite Z.land_ones by lia. split.
  - intros Hne.
    destruct (Z.eq_dec (x mod 2 ^ 8) 0) as [E|_]; [contradiction | ].
    assert (Hex : exists i, Z.testbit (x mod 2 ^ 8) i = true).
    { destruct (Z.eq_dec (x mod 2 ^ 8) 0) as [E|E]; [contradiction | ].
      pose proof (Z.mod_pos_bound x (2 ^ 8) ltac:(lia)) as Hr.
      exists (Z.log2 (x mod 2 ^ 8)). apply Z.bit_log2. lia. }
    destruct Hex as [i Hi].
    assert (0 <= i) by (destruct (Z.neg_nonneg_cases i) as [Hn|]; [ | assumption];
                        rewrite (Z.testbit_neg_r _ _ Hn) in Hi; discriminate).
    destruct (Z.lt_ge_cases i 8) as [Hlt|Hge].
    + exists i. split; [lia | ].
      now rewrite Z.mod_pow2_bits_low in Hi by lia.
    + rewrite Z.mod_pow2_bits_high in Hi by lia. discriminate.
  - intros (i & Hi & Hb) E.
    rewrite <- (Z.mod_pow2_bits_low x 8 i) in Hb by lia.
    rewrite E, Z.bits_0 in Hb. discriminate.
Qed.

End RestoreFacts.

(** ** C4 and C5: [set_cpu_regs] *)

Section RestoreClaims.
Import Pack Gdb Chibios.

(** C4.  When [set_cpu_regs] is given a register set and the target
    takes the sixteen general-purpose writes, the commands issued are
    those sixteen writes, the write of [xpsr], and last one write of
    the stack-pointer value [regs[13]]: to [msp] if and only if one of
    the low eight bits of [xpsr] (the exception number) is set, and to
    [psp] otherwise. *)
Theorem restore_selects_stack_pointer
    (inf : Inferior) (regs : list Z) (w : World) :
  (17 <= length regs)%nat ->
  newest_frame inf = true ->
  first_refused inf (gdb_log w) (gpr_cmds regs) = None ->
  let xpsr := nth 16 regs 0 in
  let sp := nth 13 regs 0 in
  exists alias,
    gdb_log (fst (set_cpu_regs inf regs w))
    = gdb_log w ++ gpr_cmds regs ++ [SetReg XPSR xpsr; SetReg alias sp] /\
    (alias = MSP <-> exists i, 0 <= i < 8 /\ Z.testbit xpsr i = true) /\
    (alias = PSP <-> ~ exists i, 0 <= i < 8 /\ Z.testbit xpsr i = true).
Proof.
  intros Hlen Hframe Hgp xpsr sp.
  rewrite (set_cpu_regs_spec inf regs w Hlen Hframe Hgp).
  exists (sp_alias xpsr). cbn [fst gdb_log]. fold xpsr sp.
  split; [now rewrite <- !app_assoc | ].
  rewrite <- low_byte_bits. unfold sp_alias.
  destruct (Z.eqb_spec (Z.land xpsr 255) 0) as [E|E]; cbn [negb];
    intuition congruence.
Qed.

(** The theorem for a register set captured in an exception handler,
    on a target that takes every write. *)
Lemma restore_selects_stack_pointer_witness :
  exists alias,
    gdb_log (fst (set_cpu_regs Examples.two_threads Examples.handler_regs
                               Examples.empty_world))
    = gpr_cmds Examples.handler_regs
        ++ [SetReg XPSR 0x01000003; SetReg alias 0x20001000] /\
    (alias = MSP <->
     exists i, 0 <= i < 8 /\ Z.testbit 0x01000003 i = true) /\
    (alias = PSP <->
     ~ exists i, 0 <= i < 8 /\ Z.testbit 0x01000003 i = true).
Proof.
  exact (restore_selects_stack_pointer Examples.two_threads
           Examples.handler_regs Examples.empty_world
           ltac:(cbn; lia) eq_refl eq_refl).
Defined.

(** C5.  With a register set and a selectable frame: if the target
    takes the general-purpose writes and refuses the write of [xpsr],
    [set_cpu_regs] prints one line, still issues the stack-pointer
    write and returns normally when that write is taken; if the target
    refuses a general-purpose write, [set_cpu_regs] raises at once,
    having issued only general-purpose writes, so that neither [msp]
    nor [psp] is written and nothing is printed. *)
Theorem restore_failure_policy (inf : Inferior) (regs : list Z) (w : World) :
  (17 <= length regs)%nat ->
  newest_frame inf = true ->
  let xpsr := nth 16 regs 0 in
  let sp := nth 13 regs 0 in
  let log1 := gdb_log w ++ gpr_cmds regs in
  (first_refused inf (gdb_log w) (gpr_cmds regs) = None ->
   rejects inf log1 (SetReg XPSR xpsr) = true ->
   gdb_log (fst (set_cpu_regs inf regs w))
   = log1 ++ [SetReg XPSR xpsr; SetReg (sp_alias xpsr) sp] /\
   console (fst (set_cpu_regs inf regs w))
   = console w ++ ["Failed to set xpsr"%string] /\
   (rejects inf (log1 ++ [SetReg XPSR xpsr]) (SetReg (sp_alias xpsr) sp)
    = false ->
    snd (set_cpu_regs inf regs w) = Val tt))
  /\
  (forall k,
     first_refused inf (gdb_log w) (gpr_cmds regs) = Some k ->
     set_cpu_regs inf regs w
     = (mkWorld (gdb_log w ++ firstn (S k) (gpr_cmds regs)) (console w),
        Raise GdbError) /\
     Forall (fun c => exists i, cmd_reg c = R i)
            (firstn (S k) (gpr_cmds regs))).
Proof.
  intros Hlen Hframe xpsr sp log1. split.
  - intros Hgp Hx.
    rewrite (set_cpu_regs_spec inf regs w Hlen Hframe Hgp).
    fold xpsr sp log1. rewrite Hx. cbn [fst snd gdb_log console].
    split; [now rewrite <- !app_assoc | ]. split; [reflexivity | ].
    intros ->. reflexivity.
  - intros k Hk. split.
    + cbv [set_cpu_regs bind ret raise]. rewrite Hframe.
      rewrite write_gprs_spec, Hk by lia. reflexivity.
    + apply Forall_forall. intros c Hc.
      assert (Hin : In c (gpr_cmds regs)).
      { rewrite <- (firstn_skipn (S k) (gpr_cmds regs)).
        apply in_or_app. now left. }
      unfold gpr_cmds in Hin. apply in_map_iff in Hin as (i & <- & _).
      now exists i.
Qed.

(** The theorem on a target that refuses [xpsr], and on one that
    refuses [r5]. *)
Lemma restore_failure_policy_witness :
  (let r := set_cpu_regs (Examples.refusing XPSR Examples.two_threads)
                         Examples.handler_regs Examples.empty_world in
   gdb_log (fst r)
   = gpr_cmds Examples.handler_regs
       ++ [SetReg XPSR 0x01000003; SetReg MSP 0x20001000] /\
   console (fst r) = ["Failed to set xpsr"%string] /\
   snd r = Val tt)
  /\
  set_cpu_regs (Examples.refusing (R 5) Examples.two_threads)
               Examples.handler_regs Examples.empty_world
  = (mkWorld (firstn 6 (gpr_cmds Examples.handler_regs)) [], Raise GdbError).
Proof.
  split.
  - destruct (restore_failure_policy
                (Examples.refusing XPSR Examples.two_threads)
                Examples.handler_regs Examples.empty_world
                ltac:(cbn; lia) eq_refl) as [Ha _].
    destruct (Ha eq_refl eq_refl) as (Hlog & Hcon & Hres).
    split; [exact Hlog | ]. split; [exact Hcon | exact (Hres eq_refl)].
  - destruct (restore_failure_policy
                (Examples.refusing (R 5) Examples.two_threads)
                Examples.handler_regs Examples.empty_world
                ltac:(cbn; lia) eq_refl) as [_ Hb].
    exact (proj1 (Hb 5%nat eq_refl)).
Defined.

End RestoreClaims.

(** ** C8: the frame lookup *)

Section FrameClaims.
Import Pack Gdb Chibios.

Lemma function_block_named_scope (b : Block) :
  function_block b = named_scope b.
Proof.
  unfold named_scope. induction b as [f|f sb IH].
  - cbn. destruct f; reflexivity.
  - cbn [function_block outward find function].
    destruct f as [f|]; [reflexivity | exact IH].
Qed.

Lemma function_block_function (b fb : Block) (f : string) :
  function_block b = Some (fb, f) -> function fb = Some f.
Proof.
  induction b as [g|g sb IH]; cbn [function_block function].
  - destruct g; intros H; inversion H; subst; reflexivity.
  - destruct g; [intros H; inversion H; subst; reflexivity | exact IH].
Qed.

Lemma _update_frame_spec (inf : Inferior) (t : ChibiThread) (pc : Z) :
  nth_error (regs t) 15 = Some pc ->
  _update_frame inf t
  = match block_for_pc inf pc with
    | None => (set_block None t, Raise AttributeError)
    | Some b =>
        match function_block b with
        | None => (set_block None t, Raise AttributeError)
        | Some (fb, f) =>
            (set_frame_str ("0x" ++ Fmt.hex pc ++ " in " ++ f ++ " ()")%string
                           (set_block (Some fb) t),
             Val tt)
        end
    end.
Proof.
  intros Hpc. cbv [_update_frame bind reg list_get]. rewrite Hpc.
  destruct (block_for_pc inf pc) as [b|]; [ | reflexivity].
  destruct (function_block b) as [[fb f]|]; reflexivity.
Qed.

(** C8, as stated, fails: for a program counter without a block, and
    for one whose blocks have no function up to the outermost,
    [_update_frame] raises [AttributeError] and leaves the frame
    description as it was. *)
Lemma frame_lookup_raises :
  _update_frame Examples.two_threads Examples.lost_thread
  = (Examples.lost_thread, Raise AttributeError) /\
  block_for_pc Examples.two_threads 0x08000200 = None /\
  _update_frame Examples.two_threads Examples.anonymous_thread
  = (Examples.anonymous_thread, Raise AttributeError) /\
  block_for_pc Examples.two_threads 0x08000300
  = Some (Inner None (Outermost None)).
Proof. repeat split. Qed.

(** C8 (amended).  For the program counter [pc] of a thread,
    [_update_frame] yields the description ["0x<HEX> in <function> ()"]
    and returns normally exactly when [pc] has a block and, walking
    outward through the enclosing blocks, some block has a function; the
    function is that of the first such block.  When [pc] has no block,
    or no block up to the outermost has a function, it raises
    [AttributeError]; the frame description is left unchanged and no
    placeholder is produced. *)
Theorem frame_lookup (inf : Inferior) (t : ChibiThread) (pc : Z) :
  nth_error (regs t) 15 = Some pc ->
  _update_frame inf t
  = match block_for_pc inf pc with
    | None => (set_block None t, Raise AttributeError)
    | Some b =>
        match named_scope b with
        | None => (set_block None t, Raise AttributeError)
        | Some (fb, f) =>
            (set_frame_str ("0x" ++ Fmt.hex pc ++ " in " ++ f ++ " ()")%string
                           (set_block (Some fb) t),
             Val tt)
        end
    end.
Proof.
  intros Hpc. rewrite (_update_frame_spec inf t pc Hpc).
  destruct (block_for_pc inf pc) as [b|]; [ | reflexivity].
  now rewrite function_block_named_scope.
Qed.

(** The theorem for a program counter in a nested block of [worker]. *)
Lemma frame_lookup_witness :
  _update_frame Examples.two_threads Examples.worker_thread
  = (set_frame_str "0x1C1B1A19 in worker ()"
       (set_block (Some (Examples.function_body "worker"))
                  Examples.worker_thread),
     Val tt).
Proof.
  exact (frame_lookup Examples.two_threads Examples.worker_thread
                      0x1c1b1a19 eq_refl).
Defined.

End FrameClaims.

(** ** C2 and C1: the registers of a thread that is not running *)

Section ContextClaims.
Import Pack Gdb Chibios.

Ltac explode_list l n :=
  let rec go l n :=
    lazymatch n with
    | O => destruct l; [ | discriminate]
    | S ?n' =>
        let x := fresh "x" in
        let l' := fresh "l" in
        destruct l as [|x l']; [discriminate | go l' n']
    end in
  go l n.

(** The inactive branch up to the frame lookup: the register list it
    builds from the copy of the register cache [rs]. *)
Lemma saved_context_spec (inf : Inferior) (t : ChibiThread)
    (th : Thread) (ctx : intctx) :
  length (regs t) = 19%nat ->
  thread_at inf (tp t) = Some th ->
  intctx_at inf (p_ctx_r13 th) = Some ctx ->
  let rs := regs t in
  saved_context inf t
  = _update_frame inf
      (set_regs
         (firstn 4 rs
            ++ map (fun i => cast_long (ctx_r ctx i)) (seq 4 8)
            ++ [nth 12 rs 0;
                cast_long (p_ctx_r13 th + 1 * intctx_sizeof inf);
                nth 14 rs 0;
                cast_long (ctx_lr ctx)]
            ++ skipn 16 rs)
         (set_active false t)).
Proof.
  intros Hlen Hth Hctx rs. subst rs.
  destruct t as [a nm l rs act blk fs]. cbn [regs tp] in *.
  explode_list rs 19%nat.
  cbv [saved_context bind get modify lift assign deref_thread deref_intctx
       set_active tp regs].
  rewrite Hth. cbn [list_set rbind set_regs regs tp name lwp active block
                    frame_str].
  rewrite Hctx. cbn [list_set rbind set_regs regs tp name lwp active block
                    frame_str].
  cbv [for_each seq bind assign]. cbn [list_set rbind set_regs regs tp name
                    lwp active block frame_str].
  reflexivity.
Qed.

Lemma read_memory_spec (inf : Inferior) (n : nat) :
  forall (addr : Z) (bytes : list byte),
    read_memory inf addr n = Val bytes ->
    length bytes = n /\
    forall k, (k < n)%nat ->
              memory inf (addr + Z.of_nat k) = Some (nth k bytes x00).
Proof.
  induction n as [|n IH]; intros addr bytes H; cbn [read_memory] in H.
  - inversion H; subst. split; [reflexivity | intros k Hk; lia].
  - destruct (memory inf addr) as [b|] eqn:Eb; [ | discriminate H].
    destruct (read_memory inf (addr + 1) n) as [bs|e] eqn:Ebs;
      cbn [rbind] in H; [ | discriminate H].
    inversion H; subst bytes; clear H.
    destruct (IH _ _ Ebs) as [Hlen Hmem]. split; [cbn; now rewrite Hlen | ].
    intros [|k] Hk.
    + cbn [nth]. now rewrite Z.add_0_r.
    + cbn [nth]. rewrite <- (Hmem k) by lia. f_equal. lia.
Qed.

(** The frame lookup changes only [block] and [frame_str]. *)
Lemma _update_frame_keeps (inf : Inferior) (t : ChibiThread) :
  let t' := fst (_update_frame inf t) in
  tp t' = tp t /\ name t' = name t /\ lwp t' = lwp t /\
  regs t' = regs t /\ active t' = active t.
Proof.
  cbv [_update_frame bind reg list_get modify raise].
  destruct (nth_error (regs t) 15) as [pc|]; [ | repeat split].
  destruct (block_for_pc inf pc) as [b|]; [ | repeat split].
  destruct (function_block b) as [[fb f]|]; repeat split.
Qed.

(** The exception-frame branch, on a register list of 19 entries when
    the 32 bytes at the stack pointer are readable: the register list it
    builds before the second frame lookup. *)
Lemma pop_exception_frame_spec (inf : Inferior) (t : ChibiThread)
    (bytes : list byte) :
  length (regs t) = 19%nat ->
  read_memory inf (nth 13 (regs t) 0) 32 = Val bytes ->
  let word := fun i : nat => le_decode (firstn 4 (skipn (4 * i) bytes)) in
  pop_exception_frame inf t
  = _update_frame inf
      (set_regs
         ([word 0%nat; word 1%nat; word 2%nat; word 3%nat]
            ++ firstn 8 (skipn 4 (regs t))
            ++ [word 4%nat; nth 13 (regs t) 0 + 0x68; word 5%nat;
                word 6%nat; word 7%nat]
            ++ skipn 17 (regs t))
         t).
Proof.
  intros Hlen Hread word. subst word.
  destruct (read_memory_spec _ _ _ _ Hread) as [Hbytes _].
  destruct t as [a nm l rs act blk fs]. cbn [regs] in *.
  explode_list rs 19%nat. cbn [nth] in Hread.
  explode_list bytes 32%nat.
  cbv [pop_exception_frame bind reg lift modify assign regs list_get
       nth_error].
  rewrite Hread.
  cbn [unpack_words length Nat.eqb Nat.mul Nat.add unpack_fields repeat
       firstn skipn nth_error list_get list_set rbind set_regs regs tp name
       lwp active block frame_str app nth].
  reflexivity.
Qed.

(** [_update] on a thread that is not the running one. *)
Lemma _update_inactive (inf : Inferior) (rc : list Z) (cp : option Z)
    (t : ChibiThread) (nm : string) :
  is_currp cp (tp t) = false ->
  thread_name inf (tp t) = Val nm ->
  _update inf rc cp t
  = match saved_context inf (set_regs rc (set_name nm t)) with
    | (t1, Val _) =>
        if in_function "_port_switch_from_isr" t1
        then pop_exception_frame inf t1
        else (t1, Val tt)
    | (t1, Raise e) => (t1, Raise e)
    end.
Proof.
  intros Hcp Hnm. cbv [_update bind get lift modify ret].
  rewrite Hnm, Hcp.
  destruct (saved_context inf (set_regs rc (set_name nm t))) as [t1 [[]|e]];
    [ | reflexivity].
  destruct (in_function "_port_switch_from_isr" t1); reflexivity.
Qed.

Lemma thread_name_readable (inf : Inferior) (a : Z) (th : Thread)
    (nm : string) :
  thread_at inf a = Some th -> p_name th = Some nm ->
  thread_name inf a = Val nm.
Proof.
  intros Hth Hnm. unfold thread_name, deref_thread. rewrite Hth.
  cbn [rbind]. now rewrite Hnm.
Qed.

Lemma cast_long_word (v : Z) : 0 <= v < 2 ^ 32 -> cast_long v = v.
Proof. intros H. unfold cast_long. now apply Z.mod_small. Qed.

(** C2, as stated, fails: on [two_threads] the saved context pointer of
    [idle] is [0x20000800] and points to a record of 36 bytes, and the
    reconstructed stack pointer is [0x20000824], one record further, not
    [0x20000804], one word further. *)
Lemma saved_stack_pointer_skips_context_record :
  let t1 := fst (saved_context Examples.two_threads
                   (set_regs Examples.captured Examples.idle_thread)) in
  option_map p_ctx_r13 (thread_at Examples.two_threads 0x20000200)
  = Some 0x20000800 /\
  intctx_sizeof Examples.two_threads = 36 /\
  nth 13 (regs t1) 0 = 0x20000824 /\
  nth 13 (regs t1) 0 <> 0x20000800 + 4.
Proof.
  cbn zeta. split; [reflexivity | ]. split; [reflexivity | ].
  split; [vm_compute; reflexivity | vm_compute; discriminate].
Qed.

(** C2 (amended).  For a thread that is not the running one, whose
    thread structure and saved context record are readable and hold
    32-bit values, the register list before any exception-frame unwind
    (the state in which [_update] tests for [_port_switch_from_isr])
    has: [r13] = the saved context pointer plus the size of one saved
    context record, as an unsigned long; [r15] = the saved [lr]; [r4] to
    [r11] = the saved [r4] to [r11]; every other entry as in the
    register cache; and the thread is marked inactive. *)
Theorem inactive_context (inf : Inferior) (rc : list Z) (cp : option Z)
    (t : ChibiThread) (th : Thread) (nm : string) (ctx : intctx) :
  length rc = 19%nat ->
  is_currp cp (tp t) = false ->
  thread_at inf (tp t) = Some th ->
  p_name th = Some nm ->
  intctx_at inf (p_ctx_r13 th) = Some ctx ->
  0 <= ctx_lr ctx < 2 ^ 32 ->
  (forall i, (4 <= i <= 11)%nat -> 0 <= ctx_r ctx i < 2 ^ 32) ->
  let t1 := fst (saved_context inf (set_regs rc (set_name nm t))) in
  nth 13 (regs t1) 0 = (p_ctx_r13 th + intctx_sizeof inf) mod 2 ^ 32 /\
  nth 15 (regs t1) 0 = ctx_lr ctx /\
  (forall i, (4 <= i <= 11)%nat -> nth i (regs t1) 0 = ctx_r ctx i) /\
  (forall i, (i < 4 \/ i = 12 \/ i = 14 \/ 16 <= i)%nat ->
             nth i (regs t1) 0 = nth i rc 0) /\
  length (regs t1) = 19%nat /\
  active t1 = false /\
  _update inf rc cp t
  = match saved_context inf (set_regs rc (set_name nm t)) with
    | (t1, Val _) =>
        if in_function "_port_switch_from_isr" t1
        then pop_exception_frame inf t1
        else (t1, Val tt)
    | (t1, Raise e) => (t1, Raise e)
    end.
Proof.
  intros Hlen Hcp Hth Hnm Hctx Hlr Hr t1.
  assert (Hupd := _update_inactive inf rc cp t nm Hcp
                    (thread_name_readable _ _ _ _ Hth Hnm)).
  assert (Hc : forall i, (4 <= i <= 11)%nat ->
                         cast_long (ctx_r ctx i) = ctx_r ctx i)
    by (intros i Hi; apply cast_long_word, Hr, Hi).
  assert (Hspec := saved_context_spec inf (set_regs rc (set_name nm t)) th ctx
                     Hlen Hth Hctx).
  cbn zeta in Hspec.
  match type of Hspec with
  | _ = _update_frame inf ?u =>
      destruct (_update_frame_keeps inf u) as (_ & _ & _ & Hregs & Hact)
  end.
  rewrite <- Hspec in Hregs, Hact. fold t1 in Hregs, Hact.
  cbn [regs active set_regs set_active set_name] in Hregs, Hact.
  repeat apply conj; [ .. | exact Hupd]; try rewrite Hregs; try exact Hact;
    clear - Hlen Hlr Hc; explode_list rc 19%nat;
    cbn [firstn skipn nth map seq app length];
    rewrite ?(cast_long_word _ Hlr), ?Z.mul_1_l.
  - reflexivity.
  - reflexivity.
  - intros i Hi. rewrite !Hc by lia.
    do 4 (destruct i as [|i]; [lia | ]).
    do 8 (destruct i as [|i]; [reflexivity | ]). lia.
  - intros i Hi.
    do 4 (destruct i as [|i]; [reflexivity | ]).
    do 8 (destruct i as [|i]; [lia | ]).
    destruct i as [|i]; [reflexivity | ].
    destruct i as [|i]; [lia | ].
    destruct i as [|i]; [reflexivity | ].
    destruct i as [|i]; [lia | ].
    do 3 (destruct i as [|i]; [reflexivity | ]).
    now destruct i.
  - reflexivity.
Qed.

(** The theorem for [idle] on [two_threads]. *)
Lemma inactive_context_witness :
  let t1 := fst (saved_context Examples.two_threads
                   (set_regs Examples.captured
                             (set_name "idle" Examples.idle_thread))) in
  nth 13 (regs t1) 0 = (0x20000800 + 36) mod 2 ^ 32 /\
  nth 15 (regs t1) 0 = 0x08000101 /\
  (forall i, (4 <= i <= 11)%nat -> nth i (regs t1) 0 = 0x11 * Z.of_nat i).
Proof.
  destruct (inactive_context Examples.two_threads Examples.captured
              (Some 0x20000100) Examples.idle_thread
              (mkKThread (Some "idle"%string) 0x20000010 0x20000800)
              "idle"
              (mkIntctx (fun i => 0x11 * Z.of_nat i) 0x08000101)
              eq_refl eq_refl eq_refl eq_refl eq_refl
              ltac:(cbn; lia)
              ltac:(intros i Hi; cbv [ctx_r];
                    change (2 ^ 32) with 4294967296; lia))
    as (H13 & H15 & H4 & _).
  cbn zeta. split; [exact H13 | ]. split; [exact H15 | exact H4].
Defined.

(** C1.  For a thread that is not the running one, whose thread
    structure and saved context record are readable and whose
    reconstructed program counter (the saved [lr]) lies in
    [_port_switch_from_isr]: when the 32 bytes at the reconstructed
    stack pointer [base] are readable, [_update] takes them as eight
    little-endian words and leaves word 0-3 in [r0]-[r3], word 4 in
    [r12], word 5 in [r14], word 6 in [r15], word 7 in [xpsr], and
    [base + 0x68] in [r13]; [r4]-[r11] keep the values taken from the
    saved context, and the two last entries those of the register
    cache. *)
Theorem exception_frame_unwind (inf : Inferior) (rc : list Z)
    (cp : option Z) (t : ChibiThread) (th : Thread) (nm : string)
    (ctx : intctx) (b fb : Block) (bytes : list byte) :
  length rc = 19%nat ->
  is_currp cp (tp t) = false ->
  thread_at inf (tp t) = Some th ->
  p_name th = Some nm ->
  intctx_at inf (p_ctx_r13 th) = Some ctx ->
  block_for_pc inf (cast_long (ctx_lr ctx)) = Some b ->
  function_block b = Some (fb, "_port_switch_from_isr"%string) ->
  let base := cast_long (p_ctx_r13 th + 1 * intctx_sizeof inf) in
  read_memory inf base 32 = Val bytes ->
  let word := fun i : nat => le_decode (firstn 4 (skipn (4 * i) bytes)) in
  let t' := fst (_update inf rc cp t) in
  length bytes = 32%nat /\
  (forall k, (k < 32)%nat ->
             memory inf (base + Z.of_nat k) = Some (nth k bytes x00)) /\
  regs t'
  = [word 0%nat; word 1%nat; word 2%nat; word 3%nat]
      ++ map (fun i => cast_long (ctx_r ctx i)) (seq 4 8)
      ++ [word 4%nat; base + 0x68; word 5%nat; word 6%nat; word 7%nat]
      ++ skipn 17 rc /\
  active t' = false.
Proof.
  intros Hlen Hcp Hth Hnm Hctx Hblk Hfun base Hread word t'.
  destruct (read_memory_spec _ _ _ _ Hread) as [Hbytes Hmem].
  split; [exact Hbytes | ]. split; [exact Hmem | ].
  subst t'.
  rewrite (_update_inactive inf rc cp t nm Hcp
             (thread_name_readable _ _ _ _ Hth Hnm)).
  rewrite (saved_context_spec inf (set_regs rc (set_name nm t)) th ctx
             Hlen Hth Hctx).
  cbn zeta. cbn [regs set_regs set_name set_active].
  fold base.
  explode_list rc 19%nat. cbn [firstn skipn nth map seq app].
  erewrite _update_frame_spec by (cbn [regs set_regs nth_error]; reflexivity).
  rewrite Hblk, Hfun.
  unfold in_function. cbn [block set_frame_str set_block].
  rewrite (function_block_function _ _ _ Hfun), String.eqb_refl.
  erewrite pop_exception_frame_spec;
    [ | reflexivity | cbn [regs set_frame_str set_block set_regs nth];
                      exact Hread ].
  match goal with
  | |- context [_update_frame inf ?u] =>
      destruct (_update_frame_keeps inf u) as (_ & _ & _ & Hregs & Hact)
  end.
  rewrite Hregs, Hact. split; reflexivity.
Qed.

(** The theorem for [idle] on [two_threads]: the exception frame is the
    bytes 1, 2, ..., 32 at [0x20000824]. *)
Lemma exception_frame_unwind_witness :
  regs (fst (_update Examples.two_threads Examples.captured
                     (Some 0x20000100) Examples.idle_thread))
  = [0x04030201; 0x08070605; 0x0c0b0a09; 0x100f0e0d;
     0x44; 0x55; 0x66; 0x77; 0x88; 0x99; 0xaa; 0xbb;
     0x14131211; 0x20000824 + 0x68; 0x18171615; 0x1c1b1a19; 0x201f1e1d;
     0; 0].
Proof.
  destruct (exception_frame_unwind Examples.two_threads Examples.captured
              (Some 0x20000100) Examples.idle_thread
              (mkKThread (Some "idle"%string) 0x20000010 0x20000800)
              "idle"
              (mkIntctx (fun i => 0x11 * Z.of_nat i) 0x08000101)
              (Examples.function_body "_port_switch_from_isr")
              (Examples.function_body "_port_switch_from_isr")
              (map Pack.byte_of_Z
                   [1; 2; 3; 4; 5; 6; 7; 8; 9; 10; 11; 12; 13; 14; 15; 16;
                    17; 18; 19; 20; 21; 22; 23; 24; 25; 26; 27; 28; 29; 30;
                    31; 32])
              eq_refl eq_refl eq_refl eq_refl eq_refl eq_refl eq_refl
              eq_refl)
    as (_ & _ & Hregs & _).
  exact Hregs.
Defined.

End ContextClaims.

(** ** Invariants of monadic code *)

Section Hoare.
Context {S : Type}.

Lemma keeps_weaken {A} (P : S -> Prop) (m : M S A) (Q Q' : A -> Prop) :
  keeps P m Q -> (forall a, Q a -> Q' a) -> keeps P m Q'.
Proof.
  intros H HQ s Hs. destruct (H s Hs) as [H1 H2]. split; [exact H1 | ].
  intros a Ha. apply HQ, H2, Ha.
Qed.

Lemma keeps_ret {A} (P : S -> Prop) (a : A) : keeps P (ret a) (eq a).
Proof. intros s Hs. split; [exact Hs | ]. cbn. intros b H. now inversion H. Qed.

Lemma keeps_raise {A} (P : S -> Prop) (e : exn) (Q : A -> Prop) :
  keeps P (raise e) Q.
Proof. intros s Hs. split; [exact Hs | ]. cbn. discriminate. Qed.

Lemma keeps_lift {A} (P : S -> Prop) (r : result A) :
  keeps P (lift r) (fun a => r = Val a).
Proof. intros s Hs. split; [exact Hs | ]. cbn. auto. Qed.

Lemma keeps_get (P : S -> Prop) : keeps P get P.
Proof.
  intros s Hs. split; [exact Hs | ]. cbn. intros a H. now inversion H; subst.
Qed.

Lemma keeps_modify (P : S -> Prop) (f : S -> S) :
  (forall s, P s -> P (f s)) -> keeps P (modify f) (fun _ => True).
Proof. intros H s Hs. split; [apply H, Hs | auto]. Qed.

Lemma keeps_bind {A B} (P : S -> Prop) (m : M S A) (k : A -> M S B)
    (Q : A -> Prop) (R : B -> Prop) :
  keeps P m Q -> (forall a, Q a -> keeps P (k a) R) -> keeps P (bind m k) R.
Proof.
  intros Hm Hk s Hs. destruct (Hm s Hs) as [H1 H2]. unfold bind.
  destruct (m s) as [s' [a|e]]; cbn [fst snd] in *.
  - apply (Hk a (H2 a eq_refl) s' H1).
  - split; [exact H1 | discriminate].
Qed.

Lemma keeps_for_each {A} (P : S -> Prop) (xs : list A)
    (body : A -> M S unit) :
  (forall x, In x xs -> keeps P (body x) (fun _ => True)) ->
  keeps P (for_each xs body) (fun _ => True).
Proof.
  induction xs as [|x xs IH]; intros H; cbn [for_each].
  - eapply keeps_weaken; [apply keeps_ret | auto].
  - eapply keeps_bind; [apply H; now left | ].
    intros _ _. apply IH. intros y Hy. apply H. now right.
Qed.

Lemma keeps_try_except (P : S -> Prop) (m h : M S unit) :
  keeps P m (fun _ => True) -> keeps P h (fun _ => True) ->
  keeps P (try_except m h) (fun _ => True).
Proof.
  intros Hm Hh s Hs. destruct (Hm s Hs) as [H1 _]. unfold try_except.
  destruct (m s) as [s' [a|e]]; cbn [fst snd] in *.
  - split; auto.
  - apply Hh, H1.
Qed.

End Hoare.

(** ** What a refresh keeps of a thread object *)

Section ThreadFacts.
Import Pack Gdb Chibios.
Local Open Scope monad_scope.

Lemma list_set_length {A} (l : list A) :
  forall (i : nat) (v : A) (l' : list A),
    list_set l i v = Val l' -> length l' = length l.
Proof.
  induction l as [|x l IH]; intros i v l' H; cbn [list_set] in H.
  - discriminate H.
  - destruct i as [|i].
    + inversion H; subst. reflexivity.
    + destruct (list_set l i v) as [r|e] eqn:E; cbn [rbind] in H;
        [ | discriminate H].
      inversion H; subst. cbn [length]. f_equal. eapply IH, E.
Qed.

Lemma unpack_fields_length (ws : list nat) :
  forall buf, length (unpack_fields ws buf) = length ws.
Proof.
  induction ws as [|w ws IH]; intros buf; cbn; [reflexivity | ].
  now rewrite IH.
Qed.

Lemma unpack_words_length (k : nat) (buf : list byte) (l : list Z) :
  unpack_words k buf = Val l -> length l = k.
Proof.
  unfold unpack_words. destruct (Nat.eqb _ _); [ | discriminate].
  intros H. inversion H; subst.
  now rewrite unpack_fields_length, repeat_length.
Qed.

Variables (inf : Inferior) (a l : Z).

Lemma keeps_assign (i : nat) (v : Z) :
  keeps (thread_of a l) (assign i v) (fun _ => True).
Proof.
  intros t (Htp & Hlwp & Hlen). unfold assign.
  destruct (list_set (regs t) i v) as [r|e] eqn:E; cbn [fst snd].
  - split; [ | auto]. repeat split; try assumption.
    cbn [set_regs regs]. rewrite (list_set_length _ _ _ _ E). exact Hlen.
  - split; [ | auto]. repeat split; assumption.
Qed.

Lemma keeps_reg (i : nat) : keeps (thread_of a l) (reg i) (fun _ => True).
Proof. intros t Ht. split; [exact Ht | auto]. Qed.

Lemma keeps__update_frame :
  keeps (thread_of a l) (_update_frame inf) (fun _ => True).
Proof.
  intros t (Htp & Hlwp & Hlen).
  destruct (_update_frame_keeps inf t) as (H1 & _ & H3 & H4 & _).
  split; [ | auto]. unfold thread_of. now rewrite H1, H3, H4.
Qed.

Lemma keeps_saved_context :
  keeps (thread_of a l) (saved_context inf) (fun _ => True).
Proof.
  unfold saved_context.
  eapply keeps_bind; [apply keeps_modify; intros t Ht; exact Ht | ].
  intros _ _. eapply keeps_bind; [apply keeps_get | ]. intros t _.
  eapply keeps_bind; [apply keeps_lift | ]. intros th _.
  eapply keeps_bind; [apply keeps_assign | ]. intros _ _.
  eapply keeps_bind; [apply keeps_lift | ]. intros ctx _.
  eapply keeps_bind; [apply keeps_assign | ]. intros _ _.
  eapply keeps_bind;
    [apply keeps_for_each; intros i _; apply keeps_assign | ].
  intros _ _. apply keeps__update_frame.
Qed.

Lemma keeps_pop_exception_frame :
  keeps (thread_of a l) (pop_exception_frame inf) (fun _ => True).
Proof.
  unfold pop_exception_frame.
  eapply keeps_bind; [apply keeps_reg | ]. intros sp _.
  eapply keeps_bind; [apply keeps_lift | ]. intros bytes _.
  eapply keeps_bind; [apply keeps_lift | ]. intros stack Hstack.
  apply unpack_words_length in Hstack.
  eapply keeps_bind.
  { apply keeps_modify. intros t (Htp & Hlwp & Hlen).
    repeat split; try assumption. cbn [set_regs regs].
    rewrite length_app, length_firstn, length_skipn. lia. }
  intros _ _.
  repeat (eapply keeps_bind; [apply keeps_lift | ]; intros ? _;
          eapply keeps_bind; [apply keeps_assign | ]; intros _ _).
  eapply keeps_bind; [apply keeps_reg | ]. intros sp' _.
  eapply keeps_bind; [apply keeps_assign | ]. intros _ _.
  apply keeps__update_frame.
Qed.

(** [_update] either fails to read the name and changes nothing, or
    goes on from the thread with the new name and a copy of the register
    cache. *)
Lemma _update_unfold (rc : list Z) (cp : option Z) (t : ChibiThread) :
  _update inf rc cp t
  = match thread_name inf (tp t) with
    | Raise e => (t, Raise e)
    | Val nm =>
        (if is_currp cp (tp t) then
           modify (set_active true) ;;; _update_frame inf
         else
           saved_context inf ;;;
           t' <-- get ;;
           if in_function "_port_switch_from_isr" t'
           then pop_exception_frame inf
           else ret tt)
          (set_regs rc (set_name nm t))
    end.
Proof.
  unfold _update. unfold bind at 1. unfold get at 1.
  unfold bind at 1. unfold lift at 1.
  destruct (thread_name inf (tp t)) as [nm|e]; reflexivity.
Qed.

Lemma keeps__update_rest (b : bool) :
  keeps (thread_of a l)
        (if b then
           modify (set_active true) ;;; _update_frame inf
         else
           saved_context inf ;;;
           t' <-- get ;;
           if in_function "_port_switch_from_isr" t'
           then pop_exception_frame inf
           else ret tt)
        (fun _ => True).
Proof.
  destruct b.
  - eapply keeps_bind; [apply keeps_modify; intros t Ht; exact Ht | ].
    intros _ _. apply keeps__update_frame.
  - eapply keeps_bind; [apply keeps_saved_context | ]. intros _ _.
    eapply keeps_bind; [apply keeps_get | ]. intros t' _.
    destruct (in_function _ t').
    + apply keeps_pop_exception_frame.
    + eapply keeps_weaken; [apply keeps_ret | auto].
Qed.

(** A refresh keeps the pointer, the label and the 19 registers. *)
Lemma _update_thread_of (rc : list Z) (cp : option Z) (t : ChibiThread) :
  length rc = 19%nat ->
  thread_of a l t -> thread_of a l (fst (_update inf rc cp t)).
Proof.
  intros Hrc Ht. rewrite _update_unfold.
  destruct (thread_name inf (tp t)) as [nm|e]; [ | exact Ht].
  apply keeps__update_rest.
  destruct Ht as (Htp & Hlwp & _). repeat split; assumption.
Qed.

(** A refresh that returns leaves 19 registers, whatever the thread
    object had before. *)
Lemma _update_returns (rc : list Z) (cp : option Z) (t t' : ChibiThread) :
  length rc = 19%nat ->
  tp t = a -> lwp t = l ->
  _update inf rc cp t = (t', Val tt) ->
  thread_of a l t'.
Proof.
  intros Hrc Htp Hlwp H. rewrite _update_unfold in H.
  destruct (thread_name inf (tp t)) as [nm|e]; [ | discriminate H].
  replace t' with (fst (t', @Val unit tt)) by reflexivity. rewrite <- H.
  apply keeps__update_rest.
  repeat split; assumption.
Qed.

End ThreadFacts.

(** ** The walk on the registry ring *)

Section RingFacts.
Import Pack Gdb Chibios.

Variables (inf : Inferior) (first : Z).

Lemma walk_follows (fuel : nat) :
  forall last rest,
    walk inf fuel first last = Some (Val rest) ->
    follows inf first last rest.
Proof.
  induction fuel as [|fuel IH]; intros last rest H; cbn [walk] in H.
  - discriminate H.
  - unfold deref_thread in H.
    destruct (thread_at inf last) as [th|] eqn:Eth; [ | discriminate H].
    destruct (Z.eqb_spec (p_newer th) first) as [Efirst|Efirst].
    + inversion H; subst rest. eapply follows_closed; eassumption.
    + destruct (thread_at inf (p_newer th)) as [th'|] eqn:Eth';
        [ | discriminate H].
      destruct (Z.eqb_spec (p_ctx_r13 th') 0) as [Ez|Ez].
      * inversion H; subst rest. eapply follows_zero; eassumption.
      * destruct (walk inf fuel first (p_newer th)) as [[l|e]|] eqn:Ew;
          cbn [rbind] in H; try discriminate H.
        inversion H; subst rest.
        eapply follows_step; try eassumption. apply IH, Ew.
Qed.


Lemma follows_functional (last : Z) (l1 l2 : list Z) :
  follows inf first last l1 -> follows inf first last l2 -> l1 = l2.
Proof.
  intros H1. revert l2.
  induction H1 as [last th Hth Hn | last th th' Hth Hn Hth' Hz
                  | last th th' rest Hth Hn Hth' Hz Hf IH];
    intros l2 H2; inversion H2; subst;
    repeat match goal with
    | Ha : thread_at inf ?x = Some ?u, Hb : thread_at inf ?x = Some ?v |- _ =>
        rewrite Ha in Hb; inversion Hb; subst; clear Hb
    end; try reflexivity; try contradiction.
  f_equal. apply IH. assumption.
Qed.

Lemma follows_suffix (last : Z) (l1 : list Z) :
  forall (x : Z) (l2 : list Z),
    follows inf first last (l1 ++ x :: l2) -> follows inf first x l2.
Proof.
  revert last. induction l1 as [|y l1 IH]; intros last x l2 H;
    cbn [app] in H; inversion H; subst.
  - assumption.
  - eapply IH. eassumption.
Qed.

Lemma follows_nonzero (last : Z) (rest : list Z) :
  follows inf first last rest ->
  Forall (fun a => a <> first /\
                   exists th, thread_at inf a = Some th /\ p_ctx_r13 th <> 0)
         rest.
Proof.
  induction 1 as [last th Hth Hn | last th th' Hth Hn Hth' Hz
                 | last th th' rest Hth Hn Hth' Hz Hf IH];
    constructor; [ | exact IH].
  split; [exact Hn | ]. now exists th'.
Qed.

Lemma follows_NoDup (last : Z) (rest : list Z) :
  follows inf first last rest -> NoDup rest.
Proof.
  induction 1 as [last th Hth Hn | last th th' Hth Hn Hth' Hz
                 | last th th' rest Hth Hn Hth' Hz Hf IH];
    constructor; [ | exact IH].
  intros Hin. apply in_split in Hin as (l1 & l2 & Hrest).
  pose proof Hf as Hf'. rewrite Hrest in Hf'.
  apply follows_suffix in Hf'.
  pose proof (follows_functional _ _ _ Hf Hf') as Heq.
  apply (f_equal (@length Z)) in Heq. rewrite Hrest in Heq.
  rewrite length_app in Heq. cbn [length] in Heq. lia.
Qed.

End RingFacts.

Section ScanFacts.
Import Pack Gdb Chibios.

Lemma scan_inv (inf : Inferior) (fuel : nat) (l : list Z) :
  scan inf fuel = Some (Val l) ->
  exists first rest,
    sym_rlist_r_newer inf = Some first /\ l = first :: rest /\
    follows inf first first rest.
Proof.
  unfold scan. destruct (sym_rlist_r_newer inf) as [first|]; [ | discriminate].
  destruct (walk inf fuel first first) as [[rest|e]|] eqn:Ew;
    cbn [rbind]; try discriminate.
  intros H. inversion H; subst l. exists first, rest.
  repeat split. eapply walk_follows, Ew.
Qed.

Lemma scan_NoDup (inf : Inferior) (fuel : nat) (l : list Z) :
  scan inf fuel = Some (Val l) -> NoDup l.
Proof.
  intros H. destruct (scan_inv _ _ _ H) as (first & rest & _ & -> & Hf).
  constructor.
  - intros Hin. pose proof (follows_nonzero _ _ _ _ Hf) as Hnz.
    rewrite Forall_forall in Hnz. destruct (Hnz _ Hin) as [Hne _].
    now apply Hne.
  - eapply follows_NoDup, Hf.
Qed.

End ScanFacts.

(** ** What a stop keeps of the session *)

Section SessionFacts.
Import Pack Gdb Chibios.
Local Open Scope monad_scope.

Variable inf : Inferior.

Lemma read_gprs_length (idx : list nat) :
  forall regs r, read_gprs inf idx regs = Val r -> length r = length regs.
Proof.
  induction idx as [|i idx IH]; intros regs r H; cbn [read_gprs] in H.
  - now inversion H.
  - destruct (reg_value inf (R i)) as [v|]; [ | discriminate H].
    destruct (list_set regs i (cast_long v)) as [regs'|e] eqn:E;
      cbn [rbind] in H; [ | discriminate H].
    rewrite (IH _ _ H). eapply list_set_length, E.
Qed.

Lemma get_cpu_regs_length (rc : list Z) :
  get_cpu_regs inf = Val rc -> length rc = 19%nat.
Proof.
  unfold get_cpu_regs. destruct (newest_frame inf); [ | discriminate].
  destruct (read_gprs inf (seq 0 16) (repeat 0 19)) as [regs|e] eqn:E;
    cbn [rbind]; [ | discriminate].
  destruct (reg_value inf XPSR) as [v|]; [ | discriminate].
  intros H. rewrite (list_set_length _ _ _ _ H).
  rewrite (read_gprs_length _ _ _ E). apply repeat_length.
Qed.

Lemma update_all_spec (rc : list Z) (cp : option Z) (ts : list ChibiThread) :
  length rc = 19%nat ->
  Forall (fun t => length (regs t) = 19%nat) ts ->
  let ts' := fst (update_all inf rc cp ts) in
  map tp ts' = map tp ts /\ map lwp ts' = map lwp ts /\
  Forall (fun t => length (regs t) = 19%nat) ts'.
Proof.
  intros Hrc. induction ts as [|t ts IH]; intros Hts; cbn zeta.
  - cbn. repeat split. constructor.
  - apply Forall_cons_iff in Hts as [Ht Hts].
    specialize (IH Hts). cbn zeta in IH. destruct IH as (IH1 & IH2 & IH3).
    assert (Hof : thread_of (tp t) (lwp t) (fst (_update inf rc cp t))).
    { apply _update_thread_of; [exact Hrc | ]. repeat split. exact Ht. }
    destruct Hof as (Htp & Hlwp & Hlen).
    cbn [update_all].
    destruct (_update inf rc cp t) as [t' [[]|e]]; cbn [fst] in *.
    + destruct (update_all inf rc cp ts) as [ts'' r]. cbn [fst map] in *.
      rewrite Htp, Hlwp, IH1, IH2. repeat split. now constructor.
    + cbn [map]. rewrite Htp, Hlwp. repeat split. now constructor.
Qed.

(** The constructor leaves the session as it was, except for the label
    counter, and a thread it returns has the next label. *)
Lemma ChibiThread_init_spec (a : Z) (s s' : Session)
    (r : result ChibiThread) :
  length (reg_cache s) = 19%nat ->
  ChibiThread_init inf a s = (s', r) ->
  reg_cache s' = reg_cache s /\ thread_cache s' = thread_cache s /\
  currp s' = currp s /\ world s' = world s /\
  next_lwp s <= next_lwp s' /\
  match r with
  | Val ct => thread_of a (next_lwp s) ct /\ next_lwp s' = next_lwp s + 1
  | Raise _ => True
  end.
Proof.
  intros Hrc. cbv [ChibiThread_init bind lift get modify ret raise].
  destruct (thread_name inf a) as [nm|e].
  - destruct (_update inf (reg_cache s) (currp s)
                (mkThread a nm (next_lwp s) [] false None EmptyString))
      as [t [[]|e]] eqn:E; intros H; inversion H; subst; clear H;
      cbn [reg_cache thread_cache currp world next_lwp].
    + repeat split; try lia;
        eapply (_update_returns inf a (next_lwp s)) in E;
        try reflexivity; try exact Hrc; apply E.
    + repeat split; lia.
  - intros H; inversion H; subst. repeat split; lia.
Qed.

Lemma world_eta (w : World) : mkWorld (gdb_log w) (console w) = w.
Proof. now destruct w. Qed.

(** The announcing loop appends one thread object, with the next label,
    for each pointer that is not in [old], in order, until a
    construction raises; it prints one line for each. *)
Lemma announce_loop (old : list Z) (tmp : list Z) :
  forall (s s' : Session) (r : result unit),
    length (reg_cache s) = 19%nat ->
    for_each tmp (announce inf old) s = (s', r) ->
    exists new rest,
      thread_cache s' = thread_cache s ++ new /\
      gdb_log (world s') = gdb_log (world s) /\
      console (world s')
      = console (world s) ++ map new_thread_line new /\
      reg_cache s' = reg_cache s /\ currp s' = currp s /\
      next_lwp s <= next_lwp s' /\
      Forall (fun t => next_lwp s <= lwp t < next_lwp s'
                       /\ length (regs t) = 19%nat) new /\
      StronglySorted Z.lt (map lwp new) /\
      fresh_of old tmp = map tp new ++ rest.
Proof.
  induction tmp as [|a tmp IH]; intros s s' r Hrc H.
  - cbn in H. inversion H; subst. exists [], [].
    cbn [map app]. rewrite !app_nil_r.
    repeat split; try lia; constructor.
  - cbn [for_each] in H. unfold bind at 1 in H. unfold announce at 1 in H.
    cbn [fresh_of filter]. fold (fresh_of old tmp).
    destruct (existsb (Z.eqb a) old) eqn:Eold; cbn [negb].
    + cbn [ret] in H. apply (IH _ _ _ Hrc H).
    + unfold bind at 1 in H.
      destruct (ChibiThread_init inf a s) as [s1 [ct|e]] eqn:Einit;
        destruct (ChibiThread_init_spec a s s1 _ Hrc Einit)
          as (H1 & H2 & H3 & H4 & H5 & H6).
      * destruct H6 as [(Htp & Hlwp & Hlen) Hnext].
        cbv [bind modify in_world print set_world set_thread_cache] in H.
        cbn [thread_cache reg_cache currp next_lwp world gdb_log console]
          in H.
        match type of H with
        | for_each tmp _ ?s2 = _ =>
            destruct (IH s2 s' r) as (new & rest & I1 & I2 & I3 & I4 & I5
                                      & I6 & I7 & I8 & I9);
              [cbn [reg_cache]; congruence | exact H | ]
        end.
        cbn [thread_cache reg_cache currp next_lwp world gdb_log console]
          in *.
        exists (ct :: new), rest. cbn [map app].
        rewrite I1, I2, I3, I4, I5, H1, H2, H3, H4, Htp, <- !app_assoc.
        cbn [app]. repeat split; try lia.
        -- constructor; [lia | ].
           eapply Forall_impl; [ | exact I7]. cbn beta. intros t Ht. lia.
        -- constructor; [exact I8 | ].
           apply Forall_map.
           eapply Forall_impl; [ | exact I7]. cbn beta. intros t Ht. lia.
        -- now rewrite I9.
      * inversion H; subst s' r. exists [], (a :: fresh_of old tmp).
        cbn [map app]. rewrite !app_nil_r, H1, H2, H3, H4.
        repeat split; try lia; constructor.
Qed.

Lemma new_thread_line_is_new (ct : ChibiThread) :
  is_new_thread_line (new_thread_line ct) = true.
Proof. reflexivity. Qed.

Lemma filter_new_thread_lines (ts : list ChibiThread) :
  filter is_new_thread_line (map new_thread_line ts) = map new_thread_line ts.
Proof.
  induction ts as [|t ts IH]; [reflexivity | ].
  cbn [map filter]. rewrite new_thread_line_is_new. now rewrite IH.
Qed.

(** [set_cpu_regs] prints no announcement. *)
Lemma set_cpu_regs_console (regs : list Z) (w : World) :
  filter is_new_thread_line (console (fst (set_cpu_regs inf regs w)))
  = filter is_new_thread_line (console w).
Proof.
  set (P := fun w' : World =>
              filter is_new_thread_line (console w')
              = filter is_new_thread_line (console w)).
  assert (Hexec : forall c, keeps P (execute inf c) (fun _ => True)).
  { intros c w' Hw'. unfold execute.
    destruct (rejects inf (gdb_log w') c); split; auto. }
  assert (Hkeeps : keeps P (set_cpu_regs inf regs) (fun _ => True)).
  { unfold set_cpu_regs.
    eapply (keeps_bind _ _ _ (fun _ => True)).
    { destruct (newest_frame inf);
        [eapply keeps_weaken; [apply keeps_ret | auto] | apply keeps_raise]. }
    intros _ _. eapply keeps_bind.
    { apply keeps_for_each. intros i _.
      eapply keeps_bind; [apply keeps_lift | ]. intros v _. apply Hexec. }
    intros _ _. eapply keeps_bind.
    { apply keeps_try_except.
      - eapply keeps_bind; [apply keeps_lift | ]. intros v _. apply Hexec.
      - apply keeps_modify. intros w' Hw'. unfold P in *. cbn [console].
        rewrite filter_app, Hw'. cbn. now rewrite app_nil_r. }
    intros _ _. eapply keeps_bind; [apply keeps_lift | ]. intros x _.
    destruct (negb (Z.land x 255 =? 0));
      (eapply keeps_bind; [apply keeps_lift | ]; intros sp _; apply Hexec). }
  apply (Hkeeps w). reflexivity.
Qed.

Lemma in_world_session {A} (m : M World A) (s s' : Session) (r : result A) :
  in_world m s = (s', r) ->
  reg_cache s' = reg_cache s /\ thread_cache s' = thread_cache s /\
  currp s' = currp s /\ next_lwp s' = next_lwp s /\
  world s' = fst (m (world s)).
Proof.
  unfold in_world. destruct (m (world s)) as [w r'].
  intros H. inversion H; subst. repeat split.
Qed.

Lemma StronglySorted_app_lt (l1 l2 : list Z) (bound : Z) :
  StronglySorted Z.lt l1 -> StronglySorted Z.lt l2 ->
  Forall (fun x => x < bound) l1 -> Forall (fun x => bound <= x) l2 ->
  StronglySorted Z.lt (l1 ++ l2).
Proof.
  intros H1 H2 Hb1 Hb2. induction H1 as [|x l1 Hs IH Hx]; [exact H2 | ].
  apply Forall_cons_iff in Hb1 as [Hxb Hb1].
  cbn [app]. constructor; [apply IH, Hb1 | ].
  apply Forall_app. split; [exact Hx | ].
  eapply Forall_impl; [ | exact Hb2]. cbn beta. intros y Hy. lia.
Qed.

(** [stop_handler] from the update of the known threads on: the known
    thread objects keep their pointers and labels, and the thread
    objects added are for distinct pointers of [tmp] that were not
    known, with increasing new labels. *)
Lemma rescan_spec (tmp : list Z) (s s' : Session) (r : result unit) :
  length (reg_cache s) = 19%nat ->
  NoDup tmp ->
  registry_ok s ->
  rescan inf tmp s = (s', r) ->
  let new := announced s s' in
  map tp (thread_cache s') = map tp (thread_cache s) ++ map tp new /\
  map lwp (thread_cache s') = map lwp (thread_cache s) ++ map lwp new /\
  Forall (fun t => next_lwp s <= lwp t < next_lwp s') new /\
  next_lwp s <= next_lwp s' /\
  incl (map tp new) tmp /\
  registry_ok s' /\
  filter is_new_thread_line (console (world s'))
  = filter is_new_thread_line (console (world s)) ++ map new_thread_line new.
Proof.
  intros Hrc Htmp (Hpos & Hnd & Hsort & Hlab & Hregs) H.
  unfold rescan in H. unfold bind at 1 in H.
  pose proof (update_all_spec (reg_cache s) (currp s) (thread_cache s)
                              Hrc Hregs) as Hupd.
  cbn zeta in Hupd.
  destruct (update_all inf (reg_cache s) (currp s) (thread_cache s))
    as [ts r0]. cbn [fst] in Hupd. destruct Hupd as (Utp & Ulwp & Uregs).
  assert (Ulen : length ts = length (thread_cache s)).
  { rewrite <- (length_map tp ts), Utp. apply length_map. }
  assert (Ulab : Forall (fun t => 0 < lwp t < next_lwp s) ts).
  { apply Forall_map with (f := lwp) (P := fun x => 0 < x < next_lwp s).
    rewrite Ulwp. apply Forall_map. exact Hlab. }
  destruct r0 as [[]|e].
  - unfold bind at 1 in H. unfold get at 1 in H.
    unfold bind at 1 in H.
    cbn [thread_cache set_thread_cache] in H.
    destruct (for_each tmp (announce inf (map tp ts))
                       (set_thread_cache ts s)) as [s3 r3] eqn:Eloop.
    destruct (announce_loop (map tp ts) tmp (set_thread_cache ts s) _ _
                            Hrc Eloop)
      as (new & rest & I1 & I2 & I3 & I4 & I5 & I6 & I7 & I8 & I9).
    cbn [thread_cache reg_cache currp next_lwp world set_thread_cache] in *.
    assert (Hfinal :
              thread_cache s' = ts ++ new /\ next_lwp s' = next_lwp s3 /\
              filter is_new_thread_line (console (world s'))
              = filter is_new_thread_line (console (world s3))).
    { destruct r3 as [[]|e].
      - unfold bind at 1 in H. unfold get at 1 in H.
        destruct (in_world_session _ _ _ _ H) as (_ & J2 & _ & J4 & J5).
        rewrite J2, J4, J5, I1. repeat split. apply set_cpu_regs_console.
      - inversion H; subst s'. now rewrite I1. }
    destruct Hfinal as (F1 & F2 & F3).
    assert (Hann : announced s s' = new).
    { unfold announced. rewrite F1, <- Ulen, skipn_app, skipn_all.
      now rewrite Nat.sub_diag. }
    cbn zeta. rewrite Hann.
    assert (Hfresh : incl (map tp new) (fresh_of (map tp ts) tmp)).
    { rewrite I9. apply incl_appl, incl_refl. }
    assert (Hnew_nd : NoDup (map tp new)).
    { apply (NoDup_app_remove_r _ rest). rewrite <- I9.
      apply NoDup_filter, Htmp. }
    assert (Hlab_new : Forall (fun t => next_lwp s <= lwp t < next_lwp s')
                              new).
    { eapply Forall_impl; [ | exact I7]. cbn beta. intros t Ht. lia. }
    unfold registry_ok.
    rewrite F1, F3, I3, !map_app, Utp, Ulwp.
    repeat apply conj; try reflexivity; try assumption.
    + lia.
    + intros a Ha. apply Hfresh in Ha. unfold fresh_of in Ha.
      apply filter_In in Ha. apply Ha.
    + lia.
    + apply NoDup_app; [exact Hnd | exact Hnew_nd | ].
      intros a Hold Hin. apply Hfresh in Hin. unfold fresh_of in Hin.
      apply filter_In in Hin as [_ Hin].
      apply negb_true_iff in Hin.
      assert (Hex : existsb (Z.eqb a) (map tp ts) = true).
      { apply existsb_exists. exists a. rewrite Utp.
        split; [exact Hold | apply Z.eqb_refl]. }
      congruence.
    + apply (StronglySorted_app_lt _ _ (next_lwp s)); try assumption.
      * apply Forall_map. eapply Forall_impl; [ | exact Hlab].
        cbn beta. intros t Ht. lia.
      * apply Forall_map. eapply Forall_impl; [ | exact I7].
        cbn beta. intros t Ht. lia.
    + apply Forall_app. split.
      * eapply Forall_impl; [ | exact Ulab]. cbn beta. intros t Ht. lia.
      * eapply Forall_impl; [ | exact I7]. cbn beta. intros t Ht. lia.
    + apply Forall_app. split; [exact Uregs | ].
      eapply Forall_impl; [ | exact I7]. cbn beta. intros t Ht. apply Ht.
    + rewrite filter_app, filter_new_thread_lines. reflexivity.
  - inversion H; subst s'. cbn [thread_cache set_thread_cache next_lwp world].
    assert (Hann : announced s (set_thread_cache ts s) = []).
    { unfold announced. cbn [thread_cache set_thread_cache].
      rewrite <- Ulen. apply skipn_all. }
    cbn zeta. rewrite Hann. cbn [map]. rewrite !app_nil_r.
    unfold registry_ok. cbn [thread_cache set_thread_cache next_lwp].
    rewrite Utp, Ulwp.
    repeat apply conj; try assumption; try reflexivity; try lia.
    + constructor.
    + intros a [].
Qed.

(** One stop at which [currp] can be evaluated. *)
Lemma stop_handler_step (fuel : nat) (s s' : Session) (r : result unit) :
  sym_currp inf <> None ->
  registry_ok s ->
  stop_handler inf fuel s = Some (s', r) ->
  let new := announced s s' in
  map tp (thread_cache s') = map tp (thread_cache s) ++ map tp new /\
  map lwp (thread_cache s') = map lwp (thread_cache s) ++ map lwp new /\
  Forall (fun t => next_lwp s <= lwp t < next_lwp s') new /\
  next_lwp s <= next_lwp s' /\
  (forall t, In t new ->
             exists l, scan inf fuel = Some (Val l) /\ In (tp t) l) /\
  registry_ok s' /\
  filter is_new_thread_line (console (world s'))
  = filter is_new_thread_line (console (world s)) ++ map new_thread_line new.
Proof.
  intros Hcp Hok H. unfold stop_handler in H.
  assert (Hsame : forall s0 : Session,
             thread_cache s0 = thread_cache s -> next_lwp s0 = next_lwp s ->
             world s0 = world s ->
             let new := announced s s0 in
             map tp (thread_cache s0) = map tp (thread_cache s) ++ map tp new /\
             map lwp (thread_cache s0)
             = map lwp (thread_cache s) ++ map lwp new /\
             Forall (fun t => next_lwp s <= lwp t < next_lwp s0) new /\
             next_lwp s <= next_lwp s0 /\
             (forall t, In t new ->
                        exists l, scan inf fuel = Some (Val l) /\ In (tp t) l) /\
             registry_ok s0 /\
             filter is_new_thread_line (console (world s0))
             = filter is_new_thread_line (console (world s))
                 ++ map new_thread_line new).
  { intros s0 E1 E2 E3. cbn zeta. unfold announced, registry_ok.
    rewrite E1, E2, E3, skipn_all. cbn [map]. rewrite !app_nil_r.
    repeat apply conj; try reflexivity; try apply Hok; try lia.
    - constructor.
    - intros t []. }
  destruct (get_cpu_regs inf) as [rc|e] eqn:Erc.
  - pose proof (get_cpu_regs_length rc Erc) as Hrc.
    destruct (sym_currp inf) as [c|]; [ | contradiction].
    destruct (scan inf fuel) as [[tmp|e]|] eqn:Escan; [ | | discriminate H].
    + inversion H as [Hres]; clear H.
      pose proof (rescan_spec tmp
                    (mkSession rc (thread_cache s) (Some c) (next_lwp s)
                               (world s))
                    s' r Hrc (scan_NoDup _ _ _ Escan) Hok Hres) as Hspec.
      cbn zeta in Hspec.
      cbn [thread_cache next_lwp world] in Hspec.
      change (announced (mkSession rc (thread_cache s) (Some c) (next_lwp s)
                                   (world s)) s')
        with (announced s s') in Hspec.
      destruct Hspec as (S1 & S2 & S3 & S4 & S5 & S6 & S7).
      cbn zeta. repeat apply conj; try assumption; try apply S6.
      intros t Ht. exists tmp. split; [reflexivity | ].
      apply S5. now apply in_map.
    + inversion H; subst s' r. apply Hsame; reflexivity.
  - inversion H; subst s' r. apply Hsame; reflexivity.
Qed.

(** Every stop keeps the registry in order. *)
Lemma stop_handler_ok (fuel : nat) (s s' : Session) (r : result unit) :
  registry_ok s ->
  stop_handler inf fuel s = Some (s', r) ->
  registry_ok s'.
Proof.
  intros Hok H. destruct (sym_currp inf) as [c|] eqn:Ecp.
  - eapply stop_handler_step; [ | exact Hok | exact H]. congruence.
  - unfold stop_handler in H. rewrite Ecp in H.
    destruct (get_cpu_regs inf) as [rc|e].
    + inversion H; subst s' r. destruct Hok as (Hpos & _).
      unfold registry_ok. cbn [thread_cache next_lwp map].
      repeat split; try constructor; assumption.
    + inversion H; subst s' r. exact Hok.
Qed.

Lemma StronglySorted_app_r (l1 l2 : list Z) :
  StronglySorted Z.lt (l1 ++ l2) -> StronglySorted Z.lt l2.
Proof.
  induction l1 as [|x l1 IH]; cbn [app]; intros H; [exact H | ].
  apply IH. now inversion H.
Qed.

(** One stop, whether or not [currp] can be evaluated: the labels of
    the thread objects added are new and increasing. *)
Lemma stop_handler_labels (fuel : nat) (s s' : Session) (r : result unit) :
  registry_ok s ->
  stop_handler inf fuel s = Some (s', r) ->
  let new := announced s s' in
  Forall (fun t => next_lwp s <= lwp t < next_lwp s') new /\
  StronglySorted Z.lt (map lwp new) /\
  next_lwp s <= next_lwp s' /\
  registry_ok s' /\
  filter is_new_thread_line (console (world s'))
  = filter is_new_thread_line (console (world s)) ++ map new_thread_line new.
Proof.
  intros Hok H. destruct (sym_currp inf) as [c|] eqn:Ecp.
  - assert (Hcp : sym_currp inf <> None) by congruence.
    destruct (stop_handler_step fuel s s' r Hcp Hok H)
      as (S1 & S2 & S3 & S4 & S5 & S6 & S7).
    cbn zeta. repeat apply conj; try assumption; try apply S6.
    destruct S6 as (_ & _ & Hsort & _). rewrite S2 in Hsort.
    eapply StronglySorted_app_r, Hsort.
  - pose proof (stop_handler_ok fuel s s' r Hok H) as Hok'.
    unfold stop_handler in H. rewrite Ecp in H.
    assert (Hnew : thread_cache s' = [] \/ thread_cache s' = thread_cache s).
    { destruct (get_cpu_regs inf); inversion H; subst; auto. }
    assert (Hann : announced s s' = []).
    { unfold announced. destruct Hnew as [-> | ->];
        [apply skipn_nil | apply skipn_all]. }
    assert (Hrest : next_lwp s' = next_lwp s /\ world s' = world s).
    { destruct (get_cpu_regs inf); inversion H; subst; auto. }
    destruct Hrest as [Hn Hw].
    cbn zeta. rewrite Hann, Hn, Hw. cbn [map]. rewrite app_nil_r.
    repeat apply conj; try constructor; try lia; try apply Hok'.
Qed.

End SessionFacts.


(** ** C7 and C6: the rescan *)

Section RescanClaims.
Import Pack Gdb Chibios.

Lemma registry_ok_fresh (s : Session) :
  thread_cache s = [] -> 0 < next_lwp s -> registry_ok s.
Proof.
  intros Hc Hn. unfold registry_ok. rewrite Hc. cbn [map].
  repeat split; try constructor; assumption.
Qed.

Lemma print_rows (rows : list ChibiThread) :
  forall s : Session,
    for_each rows (fun t => in_world (print (thread_row t))) s
    = (set_world
         (mkWorld (gdb_log (world s))
                  (console (world s) ++ map thread_row rows))
         s,
       Val tt).
Proof.
  induction rows as [|t rows IH]; intros s.
  - cbn. rewrite app_nil_r. now destruct s as [? ? ? ? []].
  - cbn [for_each map]. unfold bind at 1.
    cbv [in_world print modify]. rewrite IH.
    cbn [set_world world gdb_log console reg_cache thread_cache currp
         next_lwp].
    now rewrite <- app_assoc.
Qed.

Lemma info_threads_lists_cache (s : Session) :
  CommandInfoThreads_invoke s
  = (set_world
       (mkWorld (gdb_log (world s))
                (console (world s)
                   ++ "  Id   Target Id            Frame"%string
                   :: map thread_row (thread_cache s)))
       s,
     Val tt).
Proof.
  unfold CommandInfoThreads_invoke. unfold bind at 1.
  cbv [in_world print modify]. unfold bind at 1. unfold get at 1.
  rewrite print_rows.
  cbn [set_world world gdb_log console reg_cache thread_cache currp
       next_lwp].
  now rewrite <- app_assoc.
Qed.




Lemma rescans_labels (fuel : nat) (infs : list Inferior) :
  forall (s s' : Session) (anns : list ChibiThread),
    registry_ok s ->
    rescans fuel infs s = Some (s', anns) ->
    registry_ok s' /\
    next_lwp s <= next_lwp s' /\
    Forall (fun t => next_lwp s <= lwp t < next_lwp s') anns /\
    StronglySorted Z.lt (map lwp anns) /\
    filter is_new_thread_line (console (world s'))
    = filter is_new_thread_line (console (world s))
        ++ map new_thread_line anns.
Proof.
  induction infs as [|inf infs IH]; intros s s' anns Hok H;
    cbn [rescans] in H.
  - inversion H; subst. cbn [map]. rewrite app_nil_r.
    split; [exact Hok | ]. split; [lia | ].
    split; [constructor | ]. split; [constructor | reflexivity].
  - destruct (stop_handler inf fuel s) as [[s1 r]|] eqn:Estop;
      [ | discriminate H].
    destruct (rescans fuel infs s1) as [[s2 anns']|] eqn:Erest;
      [ | discriminate H].
    inversion H; subst s2 anns; clear H.
    destruct (stop_handler_labels inf fuel s s1 r Hok Estop)
      as (L1 & L2 & L3 & L4 & L5).
    destruct (IH s1 s' anns' L4 Erest) as (I1 & I2 & I3 & I4 & I5).
    split; [exact I1 | ]. split; [lia | ]. split; [ | split].
    + apply Forall_app. split.
      * eapply Forall_impl; [ | exact L1]. cbn beta. intros t Ht. lia.
      * eapply Forall_impl; [ | exact I3]. cbn beta. intros t Ht. lia.
    + rewrite map_app.
      apply (StronglySorted_app_lt _ _ (next_lwp s1)); try assumption.
      * apply Forall_map. eapply Forall_impl; [ | exact L1].
        cbn beta. intros t Ht. lia.
      * apply Forall_map. eapply Forall_impl; [ | exact I3].
        cbn beta. intros t Ht. lia.
    + rewrite I5, L5, map_app. now rewrite <- app_assoc.
Qed.

Lemma rescans_identities (fuel : nat) (infs : list Inferior) :
  forall (s s' : Session) (anns : list ChibiThread),
    Forall (fun inf => sym_currp inf <> None) infs ->
    registry_ok s ->
    rescans fuel infs s = Some (s', anns) ->
    map tp (thread_cache s') = map tp (thread_cache s) ++ map tp anns.
Proof.
  induction infs as [|inf infs IH]; intros s s' anns Hcp Hok H;
    cbn [rescans] in H.
  - inversion H; subst. cbn [map]. now rewrite app_nil_r.
  - apply Forall_cons_iff in Hcp as [Hcp Hcps].
    destruct (stop_handler inf fuel s) as [[s1 r]|] eqn:Estop;
      [ | discriminate H].
    destruct (rescans fuel infs s1) as [[s2 anns']|] eqn:Erest;
      [ | discriminate H].
    inversion H; subst s2 anns; clear H.
    destruct (stop_handler_step inf fuel s s1 r Hcp Hok Estop)
      as (S1 & _ & _ & _ & _ & S6 & _).
    rewrite (IH s1 s' anns' Hcps S6 Erest), S1, map_app.
    now rewrite <- app_assoc.
Qed.

(** C6, as stated, fails: a stop at which [currp] cannot be evaluated
    empties the registry and keeps the label counter, so the next
    rescan announces the same threads again.  The labels still
    increase. *)
Lemma reannounced_after_registry_reset :
  exists s anns,
    rescans 3 [Examples.two_threads;
               Examples.no_kernel Examples.two_threads;
               Examples.two_threads] initial = Some (s, anns) /\
    map tp anns = [0x20000100; 0x20000200; 0x20000100; 0x20000200] /\
    map lwp anns = [1; 2; 3; 4] /\
    ~ NoDup (map tp anns) /\
    console (world s)
    = ["[New thread 'main']"; "[New thread 'idle']";
       "[New thread 'main']"; "[New thread 'idle']"]%string.
Proof.
  eexists. eexists. split; [vm_compute; reflexivity | ].
  split; [vm_compute; reflexivity | ].
  split; [vm_compute; reflexivity | ].
  split; [ | vm_compute; reflexivity].
  intros Hnd. apply NoDup_cons_iff in Hnd as [Hnotin _].
  apply Hnotin. right. now left.
Qed.

(** C6 (amended).  In a session of rescans that starts from an empty
    registry, the labels of the thread objects announced are strictly
    increasing, so that each is greater than every label given before
    it, and the announcements printed are one line for each of them, in
    order; if [currp] can be evaluated at every stop of the session, so
    that the registry is never emptied, no thread pointer is announced
    twice. *)
Theorem announcements_once_with_increasing_labels
    (fuel : nat) (infs : list Inferior) (s0 s : Session)
    (anns : list ChibiThread) :
  thread_cache s0 = [] ->
  0 < next_lwp s0 ->
  rescans fuel infs s0 = Some (s, anns) ->
  StronglySorted Z.lt (map lwp anns) /\
  Forall (fun t => next_lwp s0 <= lwp t < next_lwp s) anns /\
  filter is_new_thread_line (console (world s))
  = filter is_new_thread_line (console (world s0))
      ++ map new_thread_line anns /\
  (Forall (fun inf => sym_currp inf <> None) infs ->
   NoDup (map tp anns) /\ map tp (thread_cache s) = map tp anns).
Proof.
  intros Hempty Hpos Hrun.
  pose proof (registry_ok_fresh s0 Hempty Hpos) as Hok.
  destruct (rescans_labels fuel infs s0 s anns Hok Hrun)
    as (Hok' & _ & Hlab & Hsort & Hcon).
  split; [exact Hsort | ]. split; [exact Hlab | ]. split; [exact Hcon | ].
  intros Hcp.
  pose proof (rescans_identities fuel infs s0 s anns Hcp Hok Hrun) as Hid.
  rewrite Hempty in Hid. cbn [map app] in Hid.
  split; [ | exact Hid]. rewrite <- Hid. apply Hok'.
Qed.

(** The theorem for two stops at [two_threads] after the module is
    loaded. *)
Lemma announcements_once_with_increasing_labels_witness :
  exists s anns,
    rescans 3 [Examples.two_threads; Examples.two_threads] initial
    = Some (s, anns) /\
    StronglySorted Z.lt (map lwp anns) /\
    NoDup (map tp anns) /\
    map tp anns = [0x20000100; 0x20000200].
Proof.
  destruct (rescans 3 [Examples.two_threads; Examples.two_threads] initial)
    as [[s anns]|] eqn:Erun; [ | vm_compute in Erun; discriminate Erun].
  destruct (announcements_once_with_increasing_labels
              3 [Examples.two_threads; Examples.two_threads] initial s anns
              eq_refl eq_refl Erun) as (Hsort & _ & _ & Hid).
  destruct Hid as [Hnd _].
  { repeat constructor; discriminate. }
  exists s, anns. repeat split; try assumption.
  vm_compute in Erun. inversion Erun; subst. reflexivity.
Defined.

End RescanClaims.

(** ** C10: nineteen registers in every thread object *)

Section RegistryClaims.
Import Pack Gdb Chibios.

Lemma set_active_false_idem (b : bool) (t : ChibiThread) :
  set_active false (set_active b t) = set_active false t.
Proof. reflexivity. Qed.

Lemma map_modulo_flags {B} (f : ChibiThread -> B) (l l' : list ChibiThread) :
  (forall t, f (set_active false t) = f t) ->
  map (set_active false) l' = map (set_active false) l ->
  map f l' = map f l.
Proof.
  intros Hf H.
  transitivity (map f (map (set_active false) l')).
  - rewrite map_map. apply map_ext. intros t. symmetry. apply Hf.
  - rewrite H, map_map. apply map_ext, Hf.
Qed.

(** The registry stays in order when only [active] flags change. *)
Lemma registry_ok_flags (s s' : Session) :
  map (set_active false) (thread_cache s')
  = map (set_active false) (thread_cache s) ->
  next_lwp s' = next_lwp s ->
  registry_ok s -> registry_ok s'.
Proof.
  intros Hflags Hnext (Hpos & Hnd & Hsort & Hlab & Hregs).
  pose proof (map_modulo_flags tp _ _ (fun t => eq_refl) Hflags) as Htp.
  pose proof (map_modulo_flags lwp _ _ (fun t => eq_refl) Hflags) as Hlwp.
  pose proof (map_modulo_flags regs _ _ (fun t => eq_refl) Hflags) as Hrg.
  unfold registry_ok. rewrite Hnext, Htp, Hlwp.
  split; [exact Hpos | ]. split; [exact Hnd | ]. split; [exact Hsort | ].
  split.
  - apply Forall_map with (f := lwp) (P := fun x => 0 < x < next_lwp s).
    rewrite Hlwp. apply Forall_map. exact Hlab.
  - apply Forall_map with (f := regs) (P := fun r => length r = 19%nat).
    rewrite Hrg. apply Forall_map. exact Hregs.
Qed.

Lemma select_loop_flags (inf : Inferior) (n : result Z)
    (ts : list ChibiThread) :
  forall (old_lwp : Z) (found : bool) (w : World),
    map (set_active false)
        (fst (fst (fst (select_loop inf n ts old_lwp found w))))
    = map (set_active false) ts.
Proof.
  induction ts as [|t ts IH]; intros old_lwp found w; cbn [select_loop].
  - reflexivity.
  - destruct n as [k|e]; [ | reflexivity].
    destruct (lwp t =? k).
    + destruct (set_cpu_regs inf (regs t) w) as [w' [[]|e]].
      * specialize (IH old_lwp true w').
        destruct (select_loop inf (Val k) ts old_lwp true w')
          as [[[r st] w''] o].
        cbn [fst map] in *. now rewrite IH.
      * reflexivity.
    + destruct (active t).
      * specialize (IH (lwp t) found w).
        destruct (select_loop inf (Val k) ts (lwp t) found w)
          as [[[r st] w'] o].
        cbn [fst map] in *. now rewrite IH.
      * specialize (IH old_lwp found w).
        destruct (select_loop inf (Val k) ts old_lwp found w)
          as [[[r st] w'] o].
        cbn [fst map] in *. now rewrite IH.
Qed.

Lemma reactivate_flags (old_lwp : Z) (ts : list ChibiThread) :
  map (set_active false) (reactivate old_lwp ts) = map (set_active false) ts.
Proof.
  unfold reactivate. rewrite map_map. apply map_ext.
  intros t. now destruct (lwp t =? old_lwp).
Qed.

Lemma CommandThread_invoke_flags (inf : Inferior)
    (int_of : string -> option Z) (arg : string) (s : Session) :
  let s' := fst (CommandThread_invoke inf int_of arg s) in
  map (set_active false) (thread_cache s')
  = map (set_active false) (thread_cache s) /\
  next_lwp s' = next_lwp s.
Proof.
  cbn zeta. unfold CommandThread_invoke.
  destruct (if String.eqb arg EmptyString
            then find active (thread_cache s)
            else None) as [thread|].
  - cbv [in_world print modify]. cbn. auto.
  - pose proof (select_loop_flags inf (py_int int_of arg) (thread_cache s)
                                  0 false (world s)) as Hflags.
    destruct (select_loop inf (py_int int_of arg) (thread_cache s) 0 false
                          (world s)) as [[[ts [old_lwp found]] w] o].
    cbn [fst] in Hflags.
    destruct o as [[]|e]; [ | cbn; auto].
    destruct found; [cbn; auto | ].
    destruct (py_int int_of arg) as [k|e]; [ | cbn; auto].
    cbn [print modify fst thread_cache next_lwp set_world set_thread_cache].
    rewrite reactivate_flags. auto.
Qed.

(** Every event keeps the registry in order. *)
Lemma step_registry_ok (fuel : nat) (ev : event) (s s' : Session) :
  registry_ok s -> step fuel ev s = Some s' -> registry_ok s'.
Proof.
  intros Hok H. destruct ev as [inf | inf | | | inf int_of arg];
    cbn [step] in H.
  - destruct (stop_handler inf fuel s) as [[s1 r]|] eqn:E;
      inversion H; subst. eapply stop_handler_ok; eassumption.
  - inversion H; subst s'. unfold cont_handler, bind, get.
    destruct (reg_cache s) as [|x rc]; [exact Hok | ].
    eapply (registry_ok_flags s); [ | | exact Hok];
      unfold in_world; destruct (set_cpu_regs inf (x :: rc) (world s));
      reflexivity.
  - inversion H; subst s'. apply registry_ok_fresh; reflexivity.
  - inversion H; subst s'. rewrite info_threads_lists_cache.
    eapply (registry_ok_flags s); [ | | exact Hok]; reflexivity.
  - inversion H; subst s'.
    destruct (CommandThread_invoke_flags inf int_of arg s) as [H1 H2].
    eapply (registry_ok_flags s); eassumption.
Qed.

Lemma run_registry_ok (fuel : nat) (evs : list event) :
  forall s s', registry_ok s -> run fuel evs s = Some s' -> registry_ok s'.
Proof.
  induction evs as [|ev evs IH]; intros s s' Hok H; cbn [run] in H.
  - now inversion H; subst.
  - destruct (step fuel ev s) as [s1|] eqn:E; [ | discriminate H].
    eapply IH; [ | exact H]. eapply step_registry_ok; eassumption.
Qed.

Lemma pack_all_length (vs : list Z) (bs : list byte) :
  pack_all vs = Val bs -> length bs = (4 * length vs)%nat.
Proof.
  revert bs. induction vs as [|v vs IH]; intros bs H; cbn [pack_all] in H.
  - now inversion H.
  - destruct (pack_uint 4 v) as [b|e] eqn:Eb; cbn [rbind] in H;
      [ | discriminate H].
    destruct (pack_all vs) as [bs'|e] eqn:Ebs; cbn [rbind] in H;
      [ | discriminate H].
    inversion H; subst bs. rewrite length_app, (IH _ eq_refl).
    rewrite (pack_uint_length _ _ _ Eb). cbn [length]. lia.
Qed.

(** C10.  A register capture returns 19 entries, and after any
    sequence of events since the module was loaded every thread object
    of the registry has a register list of exactly 19 entries; this is
    what [struct.pack("<19L", *t.regs)] needs: it returns, with 76
    bytes, only for a list of 19 entries, and for the thread objects of
    the registry its argument count is right. *)
Theorem thread_registers_have_19_entries
    (fuel : nat) (evs : list event) (s : Session) :
  run fuel evs initial = Some s ->
  Forall (fun t => length (regs t) = 19%nat) (thread_cache s) /\
  Forall (fun t => Coredump.pack_regs t = pack_all (regs t))
         (thread_cache s) /\
  (forall inf rc, get_cpu_regs inf = Val rc -> length rc = 19%nat) /\
  (forall t bs, Coredump.pack_regs t = Val bs ->
                length (regs t) = 19%nat /\ length bs = 76%nat).
Proof.
  intros Hrun.
  assert (Hok : registry_ok s).
  { eapply run_registry_ok; [ | exact Hrun].
    apply registry_ok_fresh; reflexivity. }
  destruct Hok as (_ & _ & _ & _ & Hregs).
  split; [exact Hregs | ]. split; [ | split].
  - eapply Forall_impl; [ | exact Hregs]. cbn beta. intros t Ht.
    unfold Coredump.pack_regs, pack_words. now rewrite Ht.
  - intros inf rc. apply get_cpu_regs_length.
  - intros t bs. unfold Coredump.pack_regs, pack_words.
    destruct (Nat.eqb_spec (length (regs t)) 19) as [E|E];
      [ | discriminate].
    intros H. split; [exact E | ]. rewrite (pack_all_length _ _ H), E.
    reflexivity.
Qed.

(** The theorem after a stop at [two_threads], a selection of thread 2,
    a resume and another stop. *)
Lemma thread_registers_have_19_entries_witness :
  exists s,
    run 3 [Stop Examples.two_threads;
           CmdThread Examples.two_threads (fun _ => Some 2) "2";
           Cont Examples.two_threads;
           Stop Examples.two_threads] initial = Some s /\
    length (thread_cache s) = 2%nat /\
    Forall (fun t => length (regs t) = 19%nat) (thread_cache s).
Proof.
  destruct (run 3 [Stop Examples.two_threads;
                   CmdThread Examples.two_threads (fun _ => Some 2) "2";
                   Cont Examples.two_threads;
                   Stop Examples.two_threads] initial)
    as [s|] eqn:Erun; [ | vm_compute in Erun; discriminate Erun].
  exists s. split; [reflexivity | ].
  split; [vm_compute in Erun; inversion Erun; reflexivity | ].
  exact (proj1 (thread_registers_have_19_entries 3 _ s Erun)).
Defined.

End RegistryClaims.

(** ** The active flag after a stop *)

Section ActiveFacts.
Import Pack Gdb Chibios.
Local Open Scope monad_scope.

Variable inf : Inferior.

Section Stable.
(** A property of thread objects that does not depend on the
    registers, the block or the frame description. *)
Variable P : ChibiThread -> Prop.
Hypothesis P_regs : forall v t, P t -> P (set_regs v t).
Hypothesis P_block : forall v t, P t -> P (set_block v t).
Hypothesis P_frame_str : forall v t, P t -> P (set_frame_str v t).

Lemma stable_assign (i : nat) (v : Z) : keeps P (assign i v) (fun _ => True).
Proof.
  intros t Ht. unfold assign.
  destruct (list_set (regs t) i v); cbn [fst snd]; split; auto.
Qed.

Lemma stable_reg (i : nat) : keeps P (reg i) (fun _ => True).
Proof. intros t Ht. split; [exact Ht | auto]. Qed.

Lemma stable__update_frame : keeps P (_update_frame inf) (fun _ => True).
Proof.
  unfold _update_frame.
  eapply keeps_bind; [apply stable_reg | ].
  intros pc _. destruct (block_for_pc inf pc) as [b|].
  - destruct (function_block b) as [[fb f]|].
    + eapply keeps_bind; [apply keeps_modify; auto | ]. intros _ _.
      apply keeps_modify; auto.
    + eapply keeps_bind; [apply keeps_modify; auto | ]. intros _ _.
      apply keeps_raise.
  - eapply keeps_bind; [apply keeps_modify; auto | ]. intros _ _.
    apply keeps_raise.
Qed.

Lemma stable_pop_exception_frame :
  keeps P (pop_exception_frame inf) (fun _ => True).
Proof.
  unfold pop_exception_frame.
  eapply keeps_bind; [apply stable_reg | ].
  intros sp _.
  eapply keeps_bind; [apply keeps_lift | ]. intros bytes _.
  eapply keeps_bind; [apply keeps_lift | ]. intros stack _.
  eapply keeps_bind; [apply keeps_modify; auto | ]. intros _ _.
  repeat (eapply keeps_bind; [apply keeps_lift | ]; intros ? _;
          eapply keeps_bind; [apply stable_assign | ]; intros _ _).
  eapply keeps_bind; [apply stable_reg | ].
  intros sp' _.
  eapply keeps_bind; [apply stable_assign | ]. intros _ _.
  apply stable__update_frame.
Qed.

End Stable.

Lemma bind_modify {S B} (f : S -> S) (k : unit -> M S B) (s : S) :
  bind (modify f) k s = k tt (f s).
Proof. reflexivity. Qed.

(** A refresh that returns has set the flag: the thread is active if
    and only if its pointer is [currp]. *)
Lemma _update_active (rc : list Z) (cp : option Z) (t t' : ChibiThread) :
  _update inf rc cp t = (t', Val tt) ->
  active t' = is_currp cp (tp t).
Proof.
  intros H. rewrite _update_unfold in H.
  destruct (thread_name inf (tp t)) as [nm|e]; [ | discriminate H].
  replace t' with (fst (t', @Val unit tt)) by reflexivity. rewrite <- H.
  clear H. destruct (is_currp cp (tp t)).
  - rewrite bind_modify.
    apply (stable__update_frame (fun u => active u = true)); auto.
  - unfold bind at 1. unfold saved_context. rewrite bind_modify.
    match goal with
    | |- active (fst (let (s', r) := ?m ?s in _)) = false =>
        assert (Hk : keeps (fun u => active u = false) m (fun _ => True))
    end.
    { eapply keeps_bind; [apply keeps_get | ]. intros u _.
      eapply keeps_bind; [apply keeps_lift | ]. intros th _.
      eapply keeps_bind; [apply stable_assign; auto | ]. intros _ _.
      eapply keeps_bind; [apply keeps_lift | ]. intros ctx _.
      eapply keeps_bind; [apply stable_assign; auto | ]. intros _ _.
      eapply keeps_bind;
        [apply keeps_for_each; intros i _; apply stable_assign; auto | ].
      intros _ _. apply stable__update_frame; auto. }
    match goal with
    | |- active (fst (let (s', r) := ?m ?s in _)) = false =>
        destruct (Hk s eq_refl) as [Hs _]; destruct (m s) as [s1 [[]|e]]
    end; cbn [fst] in *; [ | exact Hs].
    unfold bind, get.
    destruct (in_function "_port_switch_from_isr" s1).
    + apply (stable_pop_exception_frame (fun u => active u = false));
        auto.
    + exact Hs.
Qed.

(** A refresh changes neither the pointer nor the label. *)
Lemma _update_identity (rc : list Z) (cp : option Z) (t : ChibiThread) :
  tp (fst (_update inf rc cp t)) = tp t /\
  lwp (fst (_update inf rc cp t)) = lwp t.
Proof.
  set (P := fun u : ChibiThread => tp u = tp t /\ lwp u = lwp t).
  assert (Hk : keeps P (_update inf rc cp) (fun _ => True)).
  { unfold _update.
    eapply keeps_bind; [apply keeps_get | ]. intros u _.
    eapply keeps_bind; [apply keeps_lift | ]. intros nm _.
    eapply keeps_bind; [apply keeps_modify; intros v Hv; exact Hv | ].
    intros _ _.
    eapply keeps_bind; [apply keeps_modify; intros v Hv; exact Hv | ].
    intros _ _. destruct (is_currp cp (tp u)).
    - eapply keeps_bind; [apply keeps_modify; intros v Hv; exact Hv | ].
      intros _ _. apply stable__update_frame; auto.
    - eapply keeps_bind.
      + unfold saved_context.
        eapply keeps_bind; [apply keeps_modify; intros v Hv; exact Hv | ].
        intros _ _.
        eapply keeps_bind; [apply keeps_get | ]. intros v _.
        eapply keeps_bind; [apply keeps_lift | ]. intros th _.
        eapply keeps_bind; [apply stable_assign; auto | ]. intros _ _.
        eapply keeps_bind; [apply keeps_lift | ]. intros ctx _.
        eapply keeps_bind; [apply stable_assign; auto | ]. intros _ _.
        eapply keeps_bind;
          [apply keeps_for_each; intros i _; apply stable_assign; auto | ].
        intros _ _. apply stable__update_frame; auto.
      + intros _ _. eapply keeps_bind; [apply keeps_get | ]. intros v _.
        destruct (in_function _ v).
        * apply stable_pop_exception_frame; auto.
        * eapply keeps_weaken; [apply keeps_ret | auto]. }
  apply (Hk t). split; reflexivity.
Qed.

Lemma update_all_active (rc : list Z) (cp : option Z)
    (ts ts' : list ChibiThread) :
  update_all inf rc cp ts = (ts', Val tt) ->
  Forall (fun t => active t = is_currp cp (tp t)) ts'.
Proof.
  revert ts'. induction ts as [|t ts IH]; intros ts' H; cbn [update_all] in H.
  - inversion H. constructor.
  - destruct (_update inf rc cp t) as [t1 [[]|e]] eqn:Et;
      [ | discriminate H].
    destruct (update_all inf rc cp ts) as [ts1 r] eqn:Ets.
    inversion H; subst ts' r. constructor.
    + rewrite (_update_active _ _ _ _ Et).
      destruct (_update_identity rc cp t) as [Htp _].
      rewrite Et in Htp. cbn [fst] in Htp. now rewrite Htp.
    + now apply IH.
Qed.

(** The announcing loop keeps the flags right. *)
Lemma announce_loop_active (old tmp : list Z) (s s' : Session)
    (r : result unit) :
  for_each tmp (announce inf old) s = (s', r) ->
  Forall (fun t => active t = is_currp (currp s) (tp t)) (thread_cache s) ->
  Forall (fun t => active t = is_currp (currp s) (tp t)) (thread_cache s').
Proof.
  intros H Hs.
  set (Q := fun t : ChibiThread => active t = is_currp (currp s) (tp t)).
  set (P := fun u : Session => currp u = currp s /\ Forall Q (thread_cache u)).
  assert (Hk : keeps P (for_each tmp (announce inf old)) (fun _ => True)).
  { apply keeps_for_each. intros a _. unfold announce.
    destruct (existsb (Z.eqb a) old);
      [eapply keeps_weaken; [apply keeps_ret | auto] | ].
    eapply (keeps_bind _ _ _ Q).
    - unfold ChibiThread_init.
      eapply keeps_bind; [apply keeps_lift | ]. intros nm _.
      eapply keeps_bind; [apply keeps_get | ]. intros u [Hu _].
      eapply keeps_bind; [apply keeps_modify; intros v Hv; exact Hv | ].
      intros _ _.
      destruct (_update inf (reg_cache u) (currp u)
                  (mkThread a nm (next_lwp u) [] false None EmptyString))
        as [t1 [[]|e]] eqn:Et; [ | apply keeps_raise].
      eapply keeps_weaken; [apply keeps_ret | ]. intros ct <-.
      unfold Q. rewrite (_update_active _ _ _ _ Et).
      destruct (_update_identity (reg_cache u) (currp u)
                  (mkThread a nm (next_lwp u) [] false None EmptyString)) as [Htp _].
      rewrite Et in Htp. cbn [fst tp] in Htp. cbn [tp].
      now rewrite Htp, Hu.
    - intros ct Hct.
      eapply keeps_bind.
      + apply keeps_modify. intros v [Hv1 Hv2]. split; [exact Hv1 | ].
        cbn [thread_cache set_thread_cache]. apply Forall_app.
        split; [exact Hv2 | now constructor].
      + intros _ _. intros v Hv. unfold in_world.
        destruct (print (new_thread_line ct) (world v)) as [w r0].
        split; [exact Hv | auto]. }
  destruct (Hk s (conj eq_refl Hs)) as [[_ Hfinal] _].
  now rewrite H in Hfinal.
Qed.

Lemma one_active (cp : option Z) (ts : list ChibiThread) :
  NoDup (map tp ts) ->
  Forall (fun t => active t = is_currp cp (tp t)) ts ->
  (length (filter active ts) <= 1)%nat.
Proof.
  induction ts as [|t ts IH]; intros Hnd Hact; [cbn; lia | ].
  cbn [map] in Hnd. apply NoDup_cons_iff in Hnd as [Hnotin Hnd].
  apply Forall_cons_iff in Hact as [Ht Hts].
  specialize (IH Hnd Hts). cbn [filter].
  destruct (active t) eqn:Eact; [ | exact IH].
  assert (Hnone : filter active ts = []).
  { destruct (filter active ts) as [|u us] eqn:Ef; [reflexivity | exfalso].
    assert (Hu : In u (filter active ts)) by (rewrite Ef; now left).
    apply filter_In in Hu as [Hin Hua].
    rewrite Forall_forall in Hts. rewrite (Hts _ Hin) in Hua.
    apply Hnotin. apply in_map_iff. exists u. split; [ | exact Hin].
    unfold is_currp in *. destruct cp as [c|]; [ | discriminate Hua].
    symmetry in Ht. apply Z.eqb_eq in Ht, Hua. congruence. }
  rewrite Hnone. cbn. lia.
Qed.

(** After a stop that returns, with [currp] evaluated, at most one
    thread is active. *)
Lemma stop_leaves_one_active (fuel : nat) (s s' : Session) :
  sym_currp inf <> None ->
  registry_ok s ->
  stop_handler inf fuel s = Some (s', Val tt) ->
  (length (filter active (thread_cache s')) <= 1)%nat.
Proof.
  intros Hcp Hok H.
  pose proof (stop_handler_step inf fuel s s' (Val tt) Hcp Hok H)
    as (_ & _ & _ & _ & _ & (_ & Hnd & _) & _).
  unfold stop_handler in H.
  destruct (get_cpu_regs inf) as [rc|e]; [ | discriminate H].
  destruct (sym_currp inf) as [c|]; [ | contradiction].
  destruct (scan inf fuel) as [[tmp|e]|]; try discriminate H.
  inversion H as [Hres]; clear H.
  apply (one_active (Some c)); [exact Hnd | ].
  unfold rescan in Hres. unfold bind at 1 in Hres.
  cbn [reg_cache currp thread_cache] in Hres.
  destruct (update_all inf rc (Some c) (thread_cache s)) as [ts [[]|e]] eqn:Eu;
    [ | discriminate Hres].
  pose proof (update_all_active _ _ _ _ Eu) as Hts.
  unfold bind at 1 in Hres. unfold get at 1 in Hres.
  unfold bind at 1 in Hres.
  cbn [thread_cache set_thread_cache] in Hres.
  match type of Hres with
  | context [for_each tmp ?body ?s2] =>
      destruct (for_each tmp body s2) as [s3 [[]|e]] eqn:Eloop;
        [ | discriminate Hres];
        pose proof (announce_loop_active _ _ _ _ _ Eloop Hts) as Hs3
  end.
  cbn [currp set_thread_cache] in Hs3.
  unfold bind at 1 in Hres. unfold get at 1 in Hres.
  destruct (in_world_session _ _ _ _ Hres) as (_ & J2 & _).
  now rewrite J2.
Qed.

End ActiveFacts.

(** ** C9: selecting a thread that is not known *)

Section SelectionClaims.
Import Pack Gdb Chibios.

Lemma select_loop_no_match (inf : Inferior) (k : Z) (ts : list ChibiThread) :
  Forall (fun t => lwp t <> k) ts ->
  forall (old_lwp : Z) (found : bool) (w : World),
    select_loop inf (Val k) ts old_lwp found w
    = (map (set_active false) ts, (last_active ts old_lwp, found), w, Val tt).
Proof.
  induction 1 as [|t ts Ht Hts IH]; intros old_lwp found w;
    cbn [select_loop map last_active].
  - reflexivity.
  - rewrite (proj2 (Z.eqb_neq _ _) Ht).
    destruct (active t) eqn:Eact; rewrite IH; [reflexivity | ].
    destruct t; cbn in *; subst; reflexivity.
Qed.






Lemma StronglySorted_lt_NoDup (l : list Z) :
  StronglySorted Z.lt l -> NoDup l.
Proof.
  induction 1 as [|x l Hs IH Hx]; constructor; [ | exact IH].
  intros Hin. rewrite Forall_forall in Hx. specialize (Hx _ Hin). lia.
Qed.



End SelectionClaims.

(** ** Notes *)

Section NoteFacts.
Import Pack Corefile.

Ltac bind_inv H :=
  repeat match type of H with
  | rbind ?r _ = Val _ =>
      let E := fresh "E" in
      destruct r eqn:E; cbn [rbind] in H; [ | discriminate H]
  end.

Lemma padding_length (n : nat) :
  Z.of_nat (length (padding n)) = (4 - Z.of_nat n) mod 4.
Proof.
  unfold padding. rewrite repeat_length, Z2Nat.id; [reflexivity|].
  apply Z.mod_pos_bound; lia.
Qed.

Lemma padded_size (n : Z) : n + (4 - n) mod 4 = 4 * ((n + 3) / 4).
Proof. Z.div_mod_to_equations. lia. Qed.

Lemma note_desc_inv (name desc : list byte) (type : Z) (out : list byte) :
  note_desc name type desc = Val out ->
  out = le_encode 4 (Z.of_nat (length name) + 1)
        ++ le_encode 4 (Z.of_nat (length desc))
        ++ le_encode 4 type
        ++ (name ++ [x00]) ++ padding (length name + 1)
        ++ desc ++ padding (length desc)
  /\ Z.of_nat (length name) + 1 < 2 ^ 32
  /\ Z.of_nat (length desc) < 2 ^ 32
  /\ 0 <= type < 2 ^ 32.
Proof.
  unfold note_desc. intros H. bind_inv H. inversion H; subst out; clear H.
  rewrite length_app in *. cbn [length] in *.
  apply pack_uint_inv in E as [-> R1].
  apply pack_uint_inv in E0 as [-> R2].
  apply pack_uint_inv in E1 as [-> R3].
  rewrite Nat2Z.inj_add in *. change (Z.of_nat 1) with 1 in *.
  change (256 ^ Z.of_nat 4) with (2 ^ 32) in *.
  rewrite <- !app_assoc. repeat split; try lia. 
Qed.

Lemma note_desc_fits (name desc : list byte) (type : Z) :
  0 <= type < 2 ^ 32 ->
  Z.of_nat (length name) + 1 < 2 ^ 32 ->
  Z.of_nat (length desc) < 2 ^ 32 ->
  exists out, note_desc name type desc = Val out.
Proof.
  intros Ht Hn Hd. unfold note_desc.
  rewrite length_app. cbn [length].
  rewrite !pack_uint_fits; cbn [rbind]; [eauto | | | ];
    change (256 ^ Z.of_nat 4) with (2 ^ 32); lia.
Qed.


(** X2.  A note is its twelve-byte header, the name with its NUL rounded
    up to a multiple of four bytes, and the descriptor rounded up to a
    multiple of four bytes; its length is a multiple of four. *)
Theorem note_desc_size (name desc : list byte) (type : Z) (out : list byte) :
  note_desc name type desc = Val out ->
  Z.of_nat (length out)
  = 12 + 4 * ((Z.of_nat (length name) + 1 + 3) / 4)
       + 4 * ((Z.of_nat (length desc) + 3) / 4)
  /\ Z.of_nat (length out) mod 4 = 0.
Proof.
  intros H. apply note_desc_inv in H as [-> _].
  assert (L : Z.of_nat
                (length
                   (le_encode 4 (Z.of_nat (length name) + 1)
                    ++ le_encode 4 (Z.of_nat (length desc))
                    ++ le_encode 4 type
                    ++ (name ++ [x00]) ++ padding (length name + 1)
                    ++ desc ++ padding (length desc)))
              = 12 + 4 * ((Z.of_nat (length name) + 1 + 3) / 4)
                + 4 * ((Z.of_nat (length desc) + 3) / 4)).
  { rewrite !length_app, !le_encode_length. cbn [length].
    rewrite !Nat2Z.inj_add, !padding_length.
    rewrite Nat2Z.inj_add. change (Z.of_nat 1) with 1.
    change (Z.of_nat 4) with 4.
    pose proof (padded_size (Z.of_nat (length name) + 1)).
    pose proof (padded_size (Z.of_nat (length desc))). lia. }
  split; [exact L|]. rewrite L.
  replace (12 + 4 * ((Z.of_nat (length name) + 1 + 3) / 4)
           + 4 * ((Z.of_nat (length desc) + 3) / 4))
    with ((3 + (Z.of_nat (length name) + 1 + 3) / 4
           + (Z.of_nat (length desc) + 3) / 4) * 4) by lia.
  apply Z.mod_mul. lia.
Qed.

Lemma note_desc_size_witness :
  note_desc [x43; x4f; x52; x45] 1 []
  = Val [x05; x00; x00; x00; x00; x00; x00; x00; x01; x00; x00; x00;
         x43; x4f; x52; x45; x00; x00; x00; x00]
  /\ Z.of_nat 20 = 12 + 4 * ((Z.of_nat 4 + 1 + 3) / 4)
                      + 4 * ((Z.of_nat 0 + 3) / 4)
  /\ Z.of_nat 20 mod 4 = 0.
Proof.
  split; [reflexivity|].
  exact (note_desc_size [x43; x4f; x52; x45] [] 1 _ eq_refl).
Defined.

(** X3.  A note read back from a buffer in which more data follows it:
    the three header words are the length of the name with its NUL, the
    length of the descriptor and the type; the name and its NUL follow
    the header; the descriptor starts at the next multiple of four; what
    follows the note starts at the next multiple of four after the
    descriptor. *)
Theorem note_desc_read_back (name desc : list byte) (type : Z)
    (out rest : list byte) :
  note_desc name type desc = Val out ->
  let buf := out ++ rest in
  let namesz := le_decode (slice buf 0 4) in
  let descsz := le_decode (slice buf 4 8) in
  let d := 12 + 4 * ((namesz + 3) / 4) in
  namesz = Z.of_nat (length name) + 1 /\
  descsz = Z.of_nat (length desc) /\
  le_decode (slice buf 8 12) = type /\
  slice buf 12 (12 + namesz) = name ++ [x00] /\
  slice buf d (d + descsz) = desc /\
  skipn (Z.to_nat (d + 4 * ((descsz + 3) / 4))) buf = rest.
Proof.
  intros H. apply note_desc_inv in H as (-> & Hn & Hd & Ht).
  set (b1 := le_encode 4 (Z.of_nat (length name) + 1)).
  set (b2 := le_encode 4 (Z.of_nat (length desc))).
  set (b3 := le_encode 4 type).
  assert (L1 : length b1 = 4%nat) by apply le_encode_length.
  assert (L2 : length b2 = 4%nat) by apply le_encode_length.
  assert (L3 : length b3 = 4%nat) by apply le_encode_length.
  assert (D1 : le_decode b1 = Z.of_nat (length name) + 1).
  { unfold b1. rewrite le_decode_encode. apply Z.mod_small.
    change (256 ^ Z.of_nat 4) with (2 ^ 32). lia. }
  assert (D2 : le_decode b2 = Z.of_nat (length desc)).
  { unfold b2. rewrite le_decode_encode. apply Z.mod_small.
    change (256 ^ Z.of_nat 4) with (2 ^ 32). lia. }
  assert (D3 : le_decode b3 = type).
  { unfold b3. rewrite le_decode_encode. apply Z.mod_small.
    change (256 ^ Z.of_nat 4) with (2 ^ 32). lia. }
  clearbody b1 b2 b3. cbv zeta.
  assert (S1 : slice ((b1 ++ b2 ++ b3 ++ (name ++ [x00])
                       ++ padding (length name + 1)
                       ++ desc ++ padding (length desc)) ++ rest) 0 4 = b1).
  { rewrite <- !app_assoc. apply slice_app_prefix. rewrite L1. reflexivity. }
  assert (S2 : slice ((b1 ++ b2 ++ b3 ++ (name ++ [x00])
                       ++ padding (length name + 1)
                       ++ desc ++ padding (length desc)) ++ rest) 4 8 = b2).
  { rewrite <- !app_assoc. apply slice_app_middle; rewrite ?L1, ?L2; lia. }
  rewrite S1, S2, D1, D2.
  pose proof (padding_length (length name + 1)) as P1.
  pose proof (padding_length (length desc)) as P2.
  rewrite Nat2Z.inj_add in P1. change (Z.of_nat 1) with 1 in P1.
  pose proof (padded_size (Z.of_nat (length name) + 1)) as Q1.
  pose proof (padded_size (Z.of_nat (length desc))) as Q2.
  repeat split.
  - rewrite <- D3. f_equal. rewrite <- !app_assoc.
    rewrite (app_assoc b1 b2). apply slice_app_middle.
    + rewrite length_app, L1, L2. reflexivity.
    + rewrite L3. lia.
  - rewrite <- !app_assoc.
    rewrite (app_assoc b2 b3), (app_assoc b1 (b2 ++ b3)).
    rewrite (app_assoc name [x00]).
    apply slice_app_middle.
    + rewrite !length_app, L1, L2, L3. reflexivity.
    + rewrite length_app. cbn [length]. lia.
  - rewrite <- !app_assoc.
    rewrite (app_assoc [x00] (padding _)), (app_assoc name).
    rewrite (app_assoc b3), (app_assoc b2), (app_assoc b1).
    apply slice_app_middle.
    + rewrite !length_app, L1, L2, L3. cbn [length]. lia.
    + lia.
  - rewrite skipn_app.
    rewrite skipn_all2.
    + cbn [app]. 
      replace (_ - _)%nat with 0%nat; [reflexivity|].
      rewrite !length_app, L1, L2, L3. cbn [length]. lia.
    + rewrite !length_app, L1, L2, L3. cbn [length]. lia.
Qed.

Lemma note_desc_read_back_witness :
  let out := [x05; x00; x00; x00; x02; x00; x00; x00; x01; x00; x00; x00;
              x43; x4f; x52; x45; x00; x00; x00; x00; xaa; xbb; x00; x00] in
  let buf := out ++ [xcc] in
  note_desc [x43; x4f; x52; x45] 1 [xaa; xbb] = Val out /\
  le_decode (slice buf 0 4) = 5 /\
  le_decode (slice buf 4 8) = 2 /\
  le_decode (slice buf 8 12) = 1 /\
  slice buf 12 17 = [x43; x4f; x52; x45; x00] /\
  slice buf 20 22 = [xaa; xbb] /\
  skipn 24 buf = [xcc].
Proof.
  split; [reflexivity|].
  exact (note_desc_read_back [x43; x4f; x52; x45] [xaa; xbb] 1 _ [xcc]
                             eq_refl).
Defined.

End NoteFacts.

(** ** More on the core-file writer and reader *)

Section CorefileMore.
Import Pack Corefile.

Ltac bind_inv H :=
  repeat match type of H with
  | rbind ?r _ = Val _ =>
      let E := fresh "E" in
      destruct r eqn:E; cbn [rbind] in H; [ | discriminate H]
  end.

Lemma place_place (ofs ofs' : Z) (p : Elf32_Phdr) :
  place ofs (place ofs' p) = place ofs p.
Proof.
  unfold place. cbn [p_type p_vaddr p_paddr p_memsz p_flags p_align data].
  destruct (Z.of_nat (length (data p)) >? p_memsz p) eqn:E.
  - rewrite Z.gtb_ltb, Z.ltb_irrefl. reflexivity.
  - rewrite E. reflexivity.
Qed.

Lemma layout_layout (ps : list Elf32_Phdr) :
  forall ofs ofs', layout ofs (layout ofs' ps) = layout ofs ps.
Proof.
  induction ps as [|p ps IH]; intros ofs ofs'; cbn [layout]; [reflexivity|].
  rewrite place_place, IH. reflexivity.
Qed.

Lemma update_headers_twice (cf : CoreFile) :
  update_headers (update_headers cf) = update_headers cf.
Proof.
  destruct cf as [h [|p ps]]; [reflexivity|].
  unfold update_headers.
  cbn [_phdr _ehdr layout length set_phtable e_phoff e_phentsize e_phnum
       e_ident e_type e_machine e_version e_entry e_shoff e_flags e_ehsize
       e_shentsize e_shnum e_shstrndx].
  rewrite place_place, layout_layout, layout_length. reflexivity.
Qed.

Lemma dump_object (cf : CoreFile) (f : list byte) :
  fst (fst (dump cf f)) = update_headers cf.
Proof.
  unfold dump. destruct (Ehdr_dumps _); [|reflexivity].
  destruct (write_phdrs _ _) as [f1 [[]|e]]; reflexivity.
Qed.

(** X4.  [update_headers] is idempotent, and dumping again the object as
    [dump] left it writes what was written the first time. *)
Theorem dump_again (cf : CoreFile) (f : list byte) :
  update_headers (update_headers cf) = update_headers cf /\
  dump (fst (fst (dump cf f))) f = dump cf f.
Proof.
  split; [apply update_headers_twice|].
  rewrite dump_object. unfold dump. rewrite update_headers_twice.
  reflexivity.
Qed.

Lemma concat_length_32 (qs : list Elf32_Phdr) (pbs : list (list byte)) :
  Forall2 (fun q b => Phdr_dumps q = Val b) qs pbs ->
  length (concat pbs) = (32 * length qs)%nat.
Proof.
  induction 1 as [|q b qs pbs Hq _ IH]; [reflexivity|].
  cbn [concat length]. rewrite length_app, IH.
  rewrite (Phdr_dumps_length _ _ Hq). lia.
Qed.

Lemma dump_length (cf cf1 : CoreFile) (f out : list byte) :
  dump cf f = (cf1, out, Val tt) ->
  Z.of_nat (length out)
  = Z.of_nat (length f) + 52 + 32 * Z.of_nat (length (_phdr cf))
    + Z.of_nat (length (concat (map data (_phdr cf)))).
Proof.
  intros H. apply dump_inv in H as (-> & hb & pbs & Hh & Hp & ->).
  rewrite !length_app, (Ehdr_dumps_length _ _ Hh), (concat_length_32 _ _ Hp).
  rewrite update_headers_phdr, layout_length, layout_data. lia.
Qed.

(** X5.  The file that [dump] writes has the 52 bytes of the header, 32
    bytes for each program header and the payloads, after what the file
    held. *)
Theorem dump_size (cf cf1 : CoreFile) (f out : list byte) :
  dump cf f = (cf1, out, Val tt) ->
  Z.of_nat (length out)
  = Z.of_nat (length f) + 52 + 32 * Z.of_nat (length (_phdr cf))
    + Z.of_nat (length (concat (map data (_phdr cf)))).
Proof.
  intros H. apply dump_inv in H as (-> & hb & pbs & Hh & Hp & ->).
  rewrite !length_app, (Ehdr_dumps_length _ _ Hh), (concat_length_32 _ _ Hp).
  rewrite update_headers_phdr, layout_length, layout_data. lia.
Qed.

Lemma dump_size_witness :
  let cf := add_program
              (add_program CoreFile_new PT_NOTE 0
                           [x01; x02; x03; x04; x05])
              PT_LOAD 0x20000000
              [x06; x07; x08; x09; x0a; x0b; x0c; x0d] in
  let cf1 := fst (fst (dump cf [])) in
  let out := snd (fst (dump cf [])) in
  dump cf [] = (cf1, out, Val tt) /\
  Z.of_nat (length out)
  = Z.of_nat 0 + 52 + 32 * Z.of_nat 2
    + Z.of_nat (length (concat (map data (_phdr cf)))).
Proof.
  intros cf cf1 out.
  assert (H : dump cf [] = (cf1, out, Val tt)) by reflexivity.
  split; [exact H | exact (dump_size _ _ _ _ H)].
Defined.

Lemma pack_uint_raise (n : nat) (v : Z) (e : exn) :
  pack_uint n v = Raise e -> e = StructError /\ fits n v = false.
Proof.
  unfold pack_uint, fits.
  destruct ((0 <=? v) && (v <? 256 ^ Z.of_nat n)); intros H;
    inversion H; auto.
Qed.

Lemma Phdr_dumps_raise (p : Elf32_Phdr) (e : exn) :
  Phdr_dumps p = Raise e -> e = StructError /\ Phdr_fits p = false.
Proof.
  intros H. split.
  - revert H. unfold Phdr_dumps.
    repeat (match goal with
            | |- context [pack_uint ?n ?v] =>
                let E := fresh "E" in
                destruct (pack_uint n v) eqn:E; cbn [rbind];
                [ | apply pack_uint_raise in E as [-> _]; congruence ]
            end).
    discriminate.
  - destruct (Phdr_fits p) eqn:F; [|reflexivity].
    destruct (write_phdrs_fits [p] [] (Forall_cons _ F (Forall_nil _)))
      as [f1 H1].
    cbn [write_phdrs] in H1. rewrite H in H1. discriminate.
Qed.

Lemma Ehdr_dumps_raise (h : Elf32_Ehdr) (e : exn) :
  Ehdr_dumps h = Raise e -> e = StructError /\ Ehdr_fits h = false.
Proof.
  intros H. split.
  - revert H. unfold Ehdr_dumps.
    repeat (match goal with
            | |- context [pack_uint ?n ?v] =>
                let E := fresh "E" in
                destruct (pack_uint n v) eqn:E; cbn [rbind];
                [ | apply pack_uint_raise in E as [-> _]; congruence ]
            end).
    discriminate.
  - destruct (Ehdr_fits h) eqn:F; [|reflexivity].
    destruct (Ehdr_dumps_fits h F) as [hb H1]. congruence.
Qed.

Lemma write_phdrs_raise (ps : list Elf32_Phdr) :
  forall (f f1 : list byte) (e : exn),
    write_phdrs ps f = (f1, Raise e) ->
    exists (k : nat) (pbs : list (list byte)),
      (k < length ps)%nat /\
      Forall2 (fun q b => Phdr_dumps q = Val b) (firstn k ps) pbs /\
      Phdr_dumps (nth k ps Phdr_default) = Raise e /\
      f1 = f ++ concat pbs.
Proof.
  induction ps as [|p ps IH]; intros f f1 e H; cbn [write_phdrs] in H.
  - discriminate.
  - destruct (Phdr_dumps p) as [b|e'] eqn:E.
    + apply IH in H as (k & pbs & Hk & Hf & Hn & ->).
      exists (S k), (b :: pbs). cbn [length firstn nth concat].
      repeat split; [lia | constructor; assumption | assumption | ].
      now rewrite app_assoc.
    + inversion H; subst. exists 0%nat, []. cbn [length firstn nth concat].
      repeat split; [lia | constructor | assumption | ].
      now rewrite app_nil_r.
Qed.

(** X6.  When [dump] raises, it is [struct.error] from a field that does
    not fit its format code; if the field is in the file header nothing
    has been written, otherwise the file holds the header and the
    program headers before the first one that does not fit, and no
    payload. *)
Theorem dump_failure (cf cf1 : CoreFile) (f out : list byte) (e : exn) :
  dump cf f = (cf1, out, Raise e) ->
  e = StructError /\ cf1 = update_headers cf /\
  ((Ehdr_fits (_ehdr cf1) = false /\ out = f) \/
   exists (hb : list byte) (k : nat) (pbs : list (list byte)),
     Ehdr_dumps (_ehdr cf1) = Val hb /\
     (k < length (_phdr cf1))%nat /\
     Forall2 (fun q b => Phdr_dumps q = Val b) (firstn k (_phdr cf1)) pbs /\
     Phdr_fits (nth k (_phdr cf1) Phdr_default) = false /\
     out = f ++ hb ++ concat pbs).
Proof.
  unfold dump. destruct (Ehdr_dumps _) as [hb|e'] eqn:Eh.
  - destruct (write_phdrs _ _) as [f1 [[]|e']] eqn:Ew; intros H;
      inversion H; subst; clear H.
    apply write_phdrs_raise in Ew as (k & pbs & Hk & Hf & Hn & ->).
    apply Phdr_dumps_raise in Hn as [-> Hn].
    split; [reflexivity|]. split; [reflexivity|]. right.
    exists hb, k, pbs. rewrite <- app_assoc. auto.
  - intros H; inversion H; subst; clear H.
    apply Ehdr_dumps_raise in Eh as [-> Eh]. auto.
Qed.

Lemma dump_failure_witness :
  let cf := add_program
              (add_program CoreFile_new PT_NOTE 0 [x01; x02])
              PT_LOAD (2 ^ 32) [x03] in
  let cf1 := fst (fst (dump cf [])) in
  let out := snd (fst (dump cf [])) in
  dump cf [] = (cf1, out, Raise StructError) /\
  (StructError = StructError /\ cf1 = update_headers cf /\
   ((Ehdr_fits (_ehdr cf1) = false /\ out = []) \/
    exists (hb : list byte) (k : nat) (pbs : list (list byte)),
      Ehdr_dumps (_ehdr cf1) = Val hb /\
      (k < length (_phdr cf1))%nat /\
      Forall2 (fun q b => Phdr_dumps q = Val b) (firstn k (_phdr cf1)) pbs /\
      Phdr_fits (nth k (_phdr cf1) Phdr_default) = false /\
      out = [] ++ hb ++ concat pbs)).
Proof.
  intros cf cf1 out.
  assert (H : dump cf [] = (cf1, out, Raise StructError)) by reflexivity.
  split; [exact H | exact (dump_failure _ _ _ _ _ H)].
Defined.

Lemma layout_app (ps qs : list Elf32_Phdr) :
  forall ofs,
    layout ofs (ps ++ qs)
    = layout ofs ps
      ++ layout (ofs + Z.of_nat (length (concat (map data ps)))) qs.
Proof.
  induction ps as [|p ps IH]; intros ofs; cbn [layout app map concat length].
  - now rewrite Z.add_0_r.
  - rewrite IH, length_app, Nat2Z.inj_add, Z.add_assoc. reflexivity.
Qed.

Lemma layout_type (ps : list Elf32_Phdr) (ofs : Z) :
  map p_type (layout ofs ps) = map p_type ps.
Proof.
  revert ofs. induction ps as [|p ps IH]; intros ofs; cbn [layout map];
    [reflexivity|].
  now rewrite IH.
Qed.

(** X7.  A segment added with [add_program] and written by [dump] is
    read back by [CoreFile(fileobj)] as the last program header, with
    its type, its address and its payload, file and memory size the
    length of the payload; the payload is the end of the file; the
    program headers before it keep their types, addresses and
    payloads. *)
Theorem add_program_read_back (cf cf1 : CoreFile) (ptype vaddr : Z)
    (d out : list byte) :
  dump (add_program cf ptype vaddr d) [] = (cf1, out, Val tt) ->
  let n := Z.of_nat (length d) in
  exists (cf2 : CoreFile) (pre : list Elf32_Phdr),
    CoreFile_parse out = Val cf2 /\
    _phdr cf2
    = pre ++ [mkPhdr ptype (Z.of_nat (length out) - n) vaddr 0 n n 0 0 d] /\
    map p_type pre = map p_type (_phdr cf) /\
    map p_vaddr pre = map p_vaddr (_phdr cf) /\
    map data pre = map data (_phdr cf) /\
    skipn (length out - length d) out = d.
Proof.
  intros H n.
  pose proof (dump_reparse _ _ _ H) as Hp.
  pose proof (dump_length _ _ _ _ H) as Hs.
  apply dump_inv in H as (Hcf & hb & pbs & Hh & Hf & Hout).
  set (ofs := Ehdr_sizeof
              + Phdr_sizeof
                * Z.of_nat (length (_phdr cf
                                      ++ [mkPhdr ptype 0 vaddr 0 n n 0 0 d]))).
  set (sz := Z.of_nat (length (concat (map data (_phdr cf))))).
  assert (Hph : _phdr cf1
                = layout ofs (_phdr cf)
                  ++ [mkPhdr ptype (ofs + sz) vaddr 0 n n 0 0 d]).
  { rewrite Hcf, update_headers_phdr. cbn [add_program _phdr]. fold n.
    replace (length (_phdr cf ++ [mkPhdr ptype 0 vaddr 0 n n 0 0 d]) =? 0)%nat
      with false
      by (symmetry; apply Nat.eqb_neq; rewrite length_app; cbn [length]; lia).
    fold ofs. rewrite layout_app. fold sz. cbn [layout]. unfold place.
    cbn [data p_memsz p_type p_vaddr p_paddr p_flags p_align]. fold n.
    now destruct (n >? n). }
  cbn [add_program _phdr] in Hs. fold n in Hs.
  rewrite map_app, concat_app, !length_app in Hs.
  cbn [map concat data length] in Hs. rewrite app_nil_r in Hs.
  rewrite Nat2Z.inj_add in Hs. fold sz n in Hs.
  assert (Ho : ofs + sz = Z.of_nat (length out) - n).
  { unfold ofs, Ehdr_sizeof, Phdr_sizeof. rewrite length_app. cbn [length].
    lia. }
  exists (mkCore (Ehdr_written (_ehdr cf1)) (_phdr cf1)),
         (layout ofs (_phdr cf)).
  cbn [_phdr]. rewrite <- Ho.
  split; [exact Hp|]. split; [exact Hph|].
  split; [apply layout_type|]. split; [apply layout_vaddr|].
  split; [apply layout_data|].
  rewrite Hout, Hph, map_app, concat_app. cbn [map concat data app].
  rewrite app_nil_r, !app_assoc.
  rewrite skipn_app, skipn_all2.
  - cbn [app]. replace (_ - _ - _)%nat with 0%nat; [reflexivity|].
    rewrite !length_app. lia.
  - rewrite !length_app. lia.
Qed.

Lemma add_program_read_back_witness :
  let cf := add_program CoreFile_new PT_NOTE 0 [x01; x02] in
  let d := [x03; x04; x05] in
  let cf1 := fst (fst (dump (add_program cf PT_LOAD 0x20000000 d) [])) in
  let out := snd (fst (dump (add_program cf PT_LOAD 0x20000000 d) [])) in
  dump (add_program cf PT_LOAD 0x20000000 d) [] = (cf1, out, Val tt) /\
  exists (cf2 : CoreFile) (pre : list Elf32_Phdr),
    CoreFile_parse out = Val cf2 /\
    _phdr cf2
    = pre ++ [mkPhdr PT_LOAD (Z.of_nat (length out) - 3) 0x20000000 0 3 3
                     0 0 d] /\
    map p_type pre = map p_type (_phdr cf) /\
    map p_vaddr pre = map p_vaddr (_phdr cf) /\
    map data pre = map data (_phdr cf) /\
    skipn (length out - length d) out = d.
Proof.
  intros cf d cf1 out.
  assert (H : dump (add_program cf PT_LOAD 0x20000000 d) []
              = (cf1, out, Val tt)) by reflexivity.
  split; [exact H | exact (add_program_read_back _ _ _ _ _ _ H)].
Defined.

Lemma slice_length {A} (l : list A) (a b : Z) :
  length (slice l a b) = Nat.min (Z.to_nat (b - a)) (length l - Z.to_nat a).
Proof. unfold slice. now rewrite length_firstn, length_skipn. Qed.

Lemma Ehdr_parse_inv (buf : list byte) (h : Elf32_Ehdr) :
  Ehdr_parse buf = Val h ->
  (52 <= length buf)%nat /\ 0 <= e_phoff h /\ 0 <= e_phentsize h
  /\ 0 <= e_phnum h.
Proof.
  unfold Ehdr_parse.
  destruct (Nat.eqb _ _) eqn:L; [|discriminate].
  apply Nat.eqb_eq in L. rewrite slice_length in L.
  change (Z.to_nat Ehdr_sizeof) with 52%nat in L.
  change (Z.to_nat (Ehdr_sizeof - 0)) with 52%nat in L.
  change (Z.to_nat 0) with 0%nat in L.
  cbn [unpack_fields]. intros H. inversion H; subst; clear H.
  cbn [e_phoff e_phentsize e_phnum].
  repeat split; try apply le_decode_range. lia.
Qed.

Lemma Phdr_parse_inv (chunk : list byte) (p : Elf32_Phdr) :
  Phdr_parse chunk = Val p ->
  (32 <= length chunk)%nat /\ 0 <= p_offset p /\ 0 <= p_filesz p.
Proof.
  unfold Phdr_parse.
  destruct (Nat.eqb _ _) eqn:L; [|discriminate].
  apply Nat.eqb_eq in L. rewrite slice_length in L.
  change (Z.to_nat Phdr_sizeof) with 32%nat in L.
  change (Z.to_nat (Phdr_sizeof - 0)) with 32%nat in L.
  change (Z.to_nat 0) with 0%nat in L.
  cbn [unpack_fields repeat]. intros H. inversion H; subst; clear H.
  cbn [p_offset p_filesz].
  repeat split; try apply le_decode_range. lia.
Qed.

Lemma parse_phdrs_inv (fileobj : list byte) (ehdr : Elf32_Ehdr) :
  0 <= e_phoff ehdr -> 0 <= e_phentsize ehdr ->
  forall (n : nat) (i : Z) (ps : list Elf32_Phdr),
    0 <= i ->
    parse_phdrs fileobj ehdr i n = Val ps ->
    length ps = n /\
    Forall (fun p =>
              data p = slice fileobj (p_offset p) (p_offset p + p_filesz p)
              /\ Z.of_nat (length (data p)) <= p_filesz p) ps /\
    ((0 < n)%nat ->
     32 <= e_phentsize ehdr /\
     e_phoff ehdr + (i + Z.of_nat n - 1) * e_phentsize ehdr + 32
     <= Z.of_nat (length fileobj)).
Proof.
  intros Ho He. induction n as [|n IH]; intros i ps Hi H;
    cbn [parse_phdrs] in H.
  - inversion H; subst. repeat split; [constructor | lia | lia].
  - bind_inv H. inversion H; subst; clear H.
    apply IH in E0 as (Hl & Hf & Hb); [|lia].
    apply Phdr_parse_inv in E as (Hc & Hpo & Hpf).
    rewrite slice_length in Hc.
    assert (Hent : 32 <= e_phentsize ehdr
                   /\ e_phoff ehdr + i * e_phentsize ehdr + 32
                      <= Z.of_nat (length fileobj)) by nia.
    split; [cbn [length]; now rewrite Hl|]. split.
    + constructor; [|exact Hf]. unfold set_data.
      cbn [data p_offset p_filesz]. split; [reflexivity|].
      rewrite slice_length. lia.
    + intros _. split; [tauto|].
      destruct n as [|n]; [ | ]. 
      * replace (i + Z.of_nat 1 - 1) with i by lia. tauto.
      * replace (i + Z.of_nat (S (S n)) - 1)
          with (i + 1 + Z.of_nat (S n) - 1) by lia.
        apply Hb. lia.
Qed.

(** X8.  [CoreFile(fileobj)] returns only for a buffer that holds the 52
    bytes of the file header and, when the header announces program
    headers, entries of at least 32 bytes each that lie inside the
    buffer; it then has as many program headers as the header announces,
    and the payload of each is the part of the buffer from [p_offset] to
    [p_offset + p_filesz] that exists, shorter than [p_filesz] when the
    buffer ends before. *)
Theorem parse_bounds (fileobj : list byte) (cf : CoreFile) :
  CoreFile_parse fileobj = Val cf ->
  let h := _ehdr cf in
  (52 <= length fileobj)%nat /\
  Z.of_nat (length (_phdr cf)) = e_phnum h /\
  Forall (fun p =>
            data p = slice fileobj (p_offset p) (p_offset p + p_filesz p)
            /\ Z.of_nat (length (data p)) <= p_filesz p) (_phdr cf) /\
  (0 < e_phnum h ->
   32 <= e_phentsize h /\
   e_phoff h + (e_phnum h - 1) * e_phentsize h + 32
   <= Z.of_nat (length fileobj)).
Proof.
  unfold CoreFile_parse. intros H. bind_inv H. inversion H; subst; clear H.
  cbn [_ehdr _phdr].
  apply Ehdr_parse_inv in E as (Hl & Ho & He & Hn).
  apply parse_phdrs_inv in E0 as (Hlen & Hf & Hb); try lia.
  split; [exact Hl|]. split; [rewrite Hlen; lia|]. split; [exact Hf|].
  intros Hpos. rewrite Z2Nat.id in Hb by lia. apply Hb. lia.
Qed.

(** A file of one segment whose payload was cut short after the first
    byte. *)
Lemma parse_bounds_witness :
  let cf0 := add_program CoreFile_new PT_LOAD 0x20000000
                         [x01; x02; x03] in
  let fileobj := firstn 85 (snd (fst (dump cf0 []))) in
  exists cf,
    CoreFile_parse fileobj = Val cf /\
    map data (_phdr cf) = [[x01]] /\
    map p_filesz (_phdr cf) = [3] /\
    let h := _ehdr cf in
    (52 <= length fileobj)%nat /\
    Z.of_nat (length (_phdr cf)) = e_phnum h /\
    Forall (fun p =>
              data p = slice fileobj (p_offset p) (p_offset p + p_filesz p)
              /\ Z.of_nat (length (data p)) <= p_filesz p) (_phdr cf) /\
    (0 < e_phnum h ->
     32 <= e_phentsize h /\
     e_phoff h + (e_phnum h - 1) * e_phentsize h + 32
     <= Z.of_nat (length fileobj)).
Proof.
  intros cf0 fileobj.
  destruct (CoreFile_parse fileobj) as [cf|e] eqn:E;
    [ | vm_compute in E; discriminate E].
  exists cf. split; [reflexivity|].
  split; [vm_compute in E; inversion E; reflexivity|].
  split; [vm_compute in E; inversion E; reflexivity|].
  exact (parse_bounds fileobj cf E).
Defined.

End CorefileMore.

(** ** The [gcore] command *)

Section CoredumpFacts.
Import Pack Corefile Gdb Chibios Coredump.

Ltac bind_inv H :=
  repeat match type of H with
  | rbind ?r _ = Val _ =>
      let E := fresh "E" in
      destruct r eqn:E; cbn [rbind] in H; [ | discriminate H]
  end.

Ltac explode_list l n :=
  let rec go l n :=
    lazymatch n with
    | O => destruct l; [ | discriminate]
    | S ?n' =>
        let x := fresh "x" in
        let l' := fresh "l" in
        destruct l as [|x l']; [discriminate | go l' n']
    end in
  go l n.

Lemma pack_all_inv (vs : list Z) (b : list byte) :
  pack_all vs = Val b ->
  b = concat (map (le_encode 4) vs)
  /\ Forall (fun v => 0 <= v < 2 ^ 32) vs.
Proof.
  revert b. induction vs as [|v vs IH]; intros b H; cbn [pack_all] in H.
  - inversion H. split; [reflexivity | constructor].
  - bind_inv H. inversion H; subst b; clear H.
    apply pack_uint_inv in E as [-> R].
    destruct (IH _ eq_refl) as [-> F].
    split; [reflexivity | constructor; assumption].
Qed.

Lemma pack_all_fits (vs : list Z) :
  Forall (fun v => 0 <= v < 2 ^ 32) vs ->
  pack_all vs = Val (concat (map (le_encode 4) vs)).
Proof.
  induction 1 as [|v vs Hv _ IH]; cbn [pack_all]; [reflexivity|].
  rewrite pack_uint_fits, IH by exact Hv. reflexivity.
Qed.

(** [dumps] of the status record that [CommandGCore.invoke] fills in. *)
Lemma prstatus_dumps_note (c pid : Z) :
  prstatus_dumps (mkPrstatus 0 0 0 c 0 0 0 pid 0 0 0 0 0 0 0)
  = (b4 <- pack_uint 2 c ;;
     b8 <- pack_uint 4 pid ;;
     Val (repeat x00 12 ++ b4 ++ repeat x00 10 ++ b8 ++ repeat x00 44))%result.
Proof.
  unfold prstatus_dumps.
  cbn [si_signo si_code si_errno pr_cursig pr_pad0 pr_sigpend pr_sighold
       pr_pid pr_ppid pr_pgrp pr_sid pr_utime pr_stime pr_cutime pr_cstime].
  change (pack_uint 4 0) with (Val (repeat x00 4)).
  change (pack_uint 2 0) with (Val (repeat x00 2)).
  change (pack_uint 8 0) with (Val (repeat x00 8)).
  cbn [rbind].
  destruct (pack_uint 2 c) as [b4|e]; cbn [rbind]; [|reflexivity].
  destruct (pack_uint 4 pid) as [b8|e]; cbn [rbind]; [|reflexivity].
  cbn [repeat app]. rewrite <- ?app_assoc. reflexivity.
Qed.

Lemma thread_prstatus_fields (sig : Z) (t : ChibiThread) :
  thread_prstatus sig t
  = mkPrstatus 0 0 0 (if active t then sig else 0) 0 0 0 (lwp t)
               0 0 0 0 0 0 0.
Proof. unfold thread_prstatus. destruct (active t); reflexivity. Qed.

Lemma thread_note_inv (sig : Z) (t : ChibiThread) (out : list byte) :
  thread_note sig t = Val out ->
  let c := if active t then sig else 0 in
  out = le_encode 4 5 ++ le_encode 4 148 ++ le_encode 4 1
        ++ CORE ++ repeat x00 4
        ++ repeat x00 12 ++ le_encode 2 c ++ repeat x00 10
        ++ le_encode 4 (lwp t) ++ repeat x00 44
        ++ concat (map (le_encode 4) (regs t))
  /\ length (regs t) = 19%nat
  /\ Forall (fun v => 0 <= v < 2 ^ 32) (regs t)
  /\ 0 <= lwp t < 2 ^ 32
  /\ 0 <= c < 2 ^ 16.
Proof.
  intros H c. unfold thread_note in H.
  rewrite thread_prstatus_fields, prstatus_dumps_note in H. fold c in H.
  bind_inv H. rename E into Ed, E0 into Er. bind_inv Ed.
  inversion Ed; subst a; clear Ed.
  apply pack_uint_inv in E as [-> Rc], E0 as [-> Rp].
  change (256 ^ Z.of_nat 2) with (2 ^ 16) in Rc.
  change (256 ^ Z.of_nat 4) with (2 ^ 32) in Rp.
  unfold pack_regs, pack_words in Er.
  destruct (Nat.eqb _ _) eqn:L in Er; [|discriminate].
  apply Nat.eqb_eq in L.
  apply pack_all_inv in Er as [-> F].
  apply note_desc_inv in H as (-> & _).
  split; [|auto].
  destruct t as [a nm lw rs act blk fs]. cbn [regs lwp] in *.
  explode_list rs 19%nat. reflexivity.
Qed.

Lemma thread_note_layout_length (sig : Z) (t : ChibiThread)
    (out : list byte) :
  thread_note sig t = Val out -> length out = 168%nat.
Proof.
  intros H. apply thread_note_inv in H as (-> & L & _).
  destruct t as [a nm lw rs act blk fs]. cbn [regs lwp active] in *.
  explode_list rs 19%nat. reflexivity.
Qed.

Ltac decode_field :=
  match goal with
  | |- le_decode ?s = ?x =>
      first [ replace s with (le_encode 4 x) by reflexivity
            | replace s with (le_encode 2 x) by reflexivity ];
      rewrite le_decode_encode; apply Z.mod_small; assumption
  end.

Lemma thread_note_fields (sig : Z) (t : ChibiThread) (out : list byte) :
  thread_note sig t = Val out ->
  le_decode (slice out 32 34) = (if active t then sig else 0) /\
  le_decode (slice out 44 48) = lwp t /\
  map (fun i => le_decode (slice out (92 + 4 * Z.of_nat i)
                                     (96 + 4 * Z.of_nat i)))
      (seq 0 19)
  = regs t.
Proof.
  intros H. apply thread_note_inv in H as (-> & L & F & Rp & Rc).
  destruct t as [a nm lw rs act blk fs]. cbn [regs lwp active] in *.
  set (c := if act then sig else 0) in *. clearbody c.
  explode_list rs 19%nat.
  repeat match goal with
         | H : Forall _ (_ :: _) |- _ => inversion H; clear H; subst
         end.
  change (2 ^ 32) with (256 ^ Z.of_nat 4) in *.
  change (2 ^ 16) with (256 ^ Z.of_nat 2) in *.
  split; [decode_field|]. split; [decode_field|].
  cbn [map seq]. repeat (f_equal; [decode_field|]). f_equal. decode_field.
Qed.

(** X9.  The note of one thread has 168 bytes: the note header with name
    size 5, descriptor size 148 and type 1, the name [CORE], and a
    descriptor in which the current signal, at bytes 32-33 of the note,
    is [sig] for the active thread and 0 for the others, the process id,
    at bytes 44-47, is the thread's label, and the 19 registers follow
    from byte 92 as little-endian words. *)
Theorem thread_note_layout (sig : Z) (t : ChibiThread) (out : list byte) :
  thread_note sig t = Val out ->
  length out = 168%nat /\
  le_decode (slice out 0 4) = 5 /\
  le_decode (slice out 4 8) = 148 /\
  le_decode (slice out 8 12) = 1 /\
  slice out 12 17 = CORE ++ [x00] /\
  le_decode (slice out 32 34) = (if active t then sig else 0) /\
  le_decode (slice out 44 48) = lwp t /\
  map (fun i => le_decode (slice out (92 + 4 * Z.of_nat i)
                                     (96 + 4 * Z.of_nat i)))
      (seq 0 19)
  = regs t.
Proof.
  intros H.
  pose proof (thread_note_layout_length _ _ _ H) as Hlen.
  pose proof (thread_note_fields _ _ _ H) as (F1 & F2 & F3).
  apply thread_note_inv in H as (-> & _).
  split; [exact Hlen|].
  split; [reflexivity|]. split; [reflexivity|]. split; [reflexivity|].
  split; [reflexivity|].
  split; [exact F1|]. split; [exact F2 | exact F3].
Qed.

Lemma thread_note_layout_witness :
  let t := hd Examples.worker_thread (thread_cache Examples.after_stop) in
  exists out,
    thread_note SIGSEGV t = Val out /\
    active t = true /\
    length out = 168%nat /\
    le_decode (slice out 0 4) = 5 /\
    le_decode (slice out 4 8) = 148 /\
    le_decode (slice out 8 12) = 1 /\
    slice out 12 17 = CORE ++ [x00] /\
    le_decode (slice out 32 34) = (if active t then SIGSEGV else 0) /\
    le_decode (slice out 44 48) = lwp t /\
    map (fun i => le_decode (slice out (92 + 4 * Z.of_nat i)
                                       (96 + 4 * Z.of_nat i)))
        (seq 0 19)
    = regs t.
Proof.
  intros t.
  destruct (thread_note SIGSEGV t) as [out|e] eqn:E;
    [ | vm_compute in E; discriminate E].
  exists out. split; [reflexivity|]. split; [reflexivity|].
  exact (thread_note_layout _ _ _ E).
Defined.

Lemma thread_note_fits (sig : Z) (t : ChibiThread) :
  length (regs t) = 19%nat ->
  Forall (fun v => 0 <= v < 2 ^ 32) (regs t) ->
  0 <= lwp t < 2 ^ 32 ->
  (active t = true -> 0 <= sig < 2 ^ 16) ->
  exists out, thread_note sig t = Val out.
Proof.
  intros L F Rp Rc. unfold thread_note.
  rewrite thread_prstatus_fields, prstatus_dumps_note.
  assert (Rc' : 0 <= (if active t then sig else 0) < 256 ^ Z.of_nat 2).
  { change (256 ^ Z.of_nat 2) with (2 ^ 16).
    destruct (active t); [auto | lia]. }
  rewrite (pack_uint_fits 2 _ Rc'), (pack_uint_fits 4 (lwp t) Rp).
  cbn [rbind]. unfold pack_regs, pack_words.
  rewrite L, Nat.eqb_refl, (pack_all_fits _ F). cbn [rbind].
  apply note_desc_fits; [lia | cbn [CORE length]; lia | ].
  rewrite !length_app, !repeat_length, !le_encode_length.
  assert (Hc : length (concat (map (le_encode 4) (regs t))) = 76%nat).
  { pose proof (pack_all_length _ _ (pack_all_fits _ F)) as Hl.
    rewrite Hl, L. reflexivity. }
  rewrite Hc. cbn. lia.
Qed.

Lemma thread_note_raise (sig : Z) (t : ChibiThread) (e : exn) :
  thread_note sig t = Raise e -> e = StructError.
Proof.
  unfold thread_note.
  rewrite thread_prstatus_fields, prstatus_dumps_note.
  assert (Hp : forall n v e', pack_uint n v = Raise e' -> e' = StructError).
  { intros n v e'. unfold pack_uint.
    destruct ((0 <=? v) && (v <? 256 ^ Z.of_nat n)); congruence. }
  assert (Ha : forall vs e', pack_all vs = Raise e' -> e' = StructError).
  { induction vs as [|v vs IH]; intros e' H; cbn [pack_all] in H;
      [discriminate|].
    destruct (pack_uint 4 v) eqn:E1; cbn [rbind] in H;
      [|inversion H; subst; eapply Hp, E1].
    destruct (pack_all vs) eqn:E2; cbn [rbind] in H; [discriminate|].
    inversion H; subst. now apply IH. }
  destruct (pack_uint 2 _) eqn:E1; cbn [rbind];
    [|intros H; inversion H; subst; eapply Hp, E1].
  destruct (pack_uint 4 (lwp t)) eqn:E2; cbn [rbind];
    [|intros H; inversion H; subst; eapply Hp, E2].
  unfold pack_regs, pack_words.
  destruct (Nat.eqb _ _); [|cbn [rbind]; congruence].
  destruct (pack_all (regs t)) eqn:E3; cbn [rbind];
    [|intros H; inversion H; subst; eapply Ha, E3].
  unfold note_desc.
  repeat match goal with
         | |- context [pack_uint ?n ?v] =>
             let E := fresh "E" in
             destruct (pack_uint n v) eqn:E; cbn [rbind];
             [ | intros H; inversion H; subst; eapply Hp, E ]
         end.
  discriminate.
Qed.

(** X10.  The note of a thread can be built exactly when the thread has
    19 registers, each an unsigned 32-bit value, its label is an
    unsigned 32-bit value and, for the active thread, the signal is an
    unsigned 16-bit value; otherwise [struct.pack] raises. The signal is
    not looked at for a thread that is not active. *)
Theorem thread_note_returns (sig : Z) (t : ChibiThread) :
  (exists out, thread_note sig t = Val out) <->
  (length (regs t) = 19%nat /\
   Forall (fun v => 0 <= v < 2 ^ 32) (regs t) /\
   0 <= lwp t < 2 ^ 32 /\
   (active t = true -> 0 <= sig < 2 ^ 16)).
Proof.
  split.
  - intros [out H]. apply thread_note_inv in H as (_ & L & F & Rp & Rc).
    repeat split; try assumption; destruct (active t); try discriminate;
      intros; lia.
  - intros (L & F & Rp & Rc). now apply thread_note_fits.
Qed.

Lemma notes_of_inv (sig : Z) (ts : list ChibiThread) :
  forall (acc notes : list byte),
    notes_of sig ts acc = Val notes ->
    exists ns,
      Forall2 (fun t n => thread_note sig t = Val n) ts ns /\
      notes = acc ++ concat ns.
Proof.
  induction ts as [|t ts IH]; intros acc notes H; cbn [notes_of] in H.
  - inversion H; subst. exists []. split; [constructor|].
    now rewrite app_nil_r.
  - bind_inv H. apply IH in H as (ns & Hf & ->).
    exists (a :: ns). split; [constructor; assumption|].
    cbn [concat]. now rewrite app_assoc.
Qed.

Lemma notes_of_fits (sig : Z) (ts : list ChibiThread) :
  Forall (fun t => exists out, thread_note sig t = Val out) ts ->
  forall acc, exists notes, notes_of sig ts acc = Val notes.
Proof.
  induction 1 as [|t ts [out Ht] _ IH]; intros acc; cbn [notes_of].
  - eauto.
  - rewrite Ht. cbn [rbind]. apply IH.
Qed.

Lemma notes_of_raise (sig : Z) (ts : list ChibiThread) :
  forall acc e, notes_of sig ts acc = Raise e -> e = StructError.
Proof.
  induction ts as [|t ts IH]; intros acc e H; cbn [notes_of] in H.
  - discriminate.
  - destruct (thread_note sig t) eqn:E; cbn [rbind] in H.
    + eapply IH, H.
    + inversion H; subst. eapply thread_note_raise, E.
Qed.

Lemma concat_notes (sig : Z) (ts : list ChibiThread) (ns : list (list byte)) :
  Forall2 (fun t n => thread_note sig t = Val n) ts ns ->
  length (concat ns) = (168 * length ts)%nat /\
  forall (k : nat) (t : ChibiThread),
    nth_error ts k = Some t ->
    thread_note sig t
    = Val (slice (concat ns) (168 * Z.of_nat k) (168 * Z.of_nat k + 168)).
Proof.
  induction 1 as [|t n ts ns Hn _ [IHl IHk]].
  - split; [reflexivity|]. intros [|k] t H; discriminate H.
  - assert (Ln : length n = 168%nat)
      by (apply thread_note_layout_length with sig t; exact Hn).
    split.
    + cbn [concat length]. rewrite length_app, IHl, Ln. lia.
    + intros [|k] u Hu; cbn [nth_error] in Hu.
      * inversion Hu; subst u. rewrite Hn. f_equal. cbn [concat].
        symmetry. apply slice_app_prefix. rewrite Ln. reflexivity.
      * rewrite (IHk _ _ Hu). f_equal. cbn [concat]. unfold slice.
        replace (Z.to_nat (168 * Z.of_nat (S k)))
          with (length n + Z.to_nat (168 * Z.of_nat k))%nat by lia.
        rewrite skipn_app.
        rewrite (skipn_all2 n) by lia. cbn [app].
        replace (length n + Z.to_nat (168 * Z.of_nat k) - length n)%nat
          with (Z.to_nat (168 * Z.of_nat k)) by lia.
        f_equal. lia.
Qed.

(** X11.  The notes that [gcore] writes are one note of 168 bytes for
    each thread object, in the order of the thread list: the note of the
    thread at position [k] is at bytes [168 k] to [168 k + 167]. *)
Theorem gcore_notes (sig : Z) (ts : list ChibiThread) (notes : list byte) :
  notes_of sig ts [] = Val notes ->
  length notes = (168 * length ts)%nat /\
  forall (k : nat) (t : ChibiThread),
    nth_error ts k = Some t ->
    thread_note sig t
    = Val (slice notes (168 * Z.of_nat k) (168 * Z.of_nat k + 168)).
Proof.
  intros H. apply notes_of_inv in H as (ns & Hf & ->). cbn [app].
  now apply concat_notes.
Qed.

Lemma gcore_notes_witness :
  let ts := thread_cache Examples.after_stop in
  exists notes,
    notes_of SIGINT ts [] = Val notes /\
    length ts = 2%nat /\
    length notes = (168 * length ts)%nat /\
    forall (k : nat) (t : ChibiThread),
      nth_error ts k = Some t ->
      thread_note SIGINT t
      = Val (slice notes (168 * Z.of_nat k) (168 * Z.of_nat k + 168)).
Proof.
  intros ts.
  destruct (notes_of SIGINT ts []) as [notes|e] eqn:E;
    [ | vm_compute in E; discriminate E].
  exists notes. split; [reflexivity|]. split; [reflexivity|].
  exact (gcore_notes _ _ _ E).
Defined.

Lemma read_memory_raise (inf : Inferior) (n : nat) :
  forall (addr : Z) (e : exn),
    read_memory inf addr n = Raise e -> e = MemoryError.
Proof.
  induction n as [|n IH]; intros addr e H; cbn [read_memory] in H.
  - discriminate.
  - destruct (memory inf addr); [|now inversion H].
    destruct (read_memory inf (addr + 1) n) as [bs|e'] eqn:E;
      cbn [rbind] in H; [discriminate|].
    inversion H; subst. eapply IH; eassumption.
Qed.

Lemma read_memory_readable (inf : Inferior) (n : nat) :
  forall (addr : Z),
    (forall a, addr <= a < addr + Z.of_nat n -> memory inf a <> None) ->
    exists bytes, read_memory inf addr n = Val bytes.
Proof.
  induction n as [|n IH]; intros addr H; cbn [read_memory].
  - eauto.
  - destruct (memory inf addr) as [b|] eqn:E.
    + destruct (IH (addr + 1)) as [bs Hbs]; [intros a Ha; apply H; lia|].
      rewrite Hbs. cbn [rbind]. eauto.
    + exfalso. apply (H addr); [lia | exact E].
Qed.

Lemma read_memory_unreadable (inf : Inferior) (n : nat) (addr a : Z)
    (bytes : list byte) :
  read_memory inf addr n = Val bytes ->
  addr <= a < addr + Z.of_nat n -> memory inf a <> None.
Proof.
  intros H Ha. apply read_memory_spec in H as [_ H].
  specialize (H (Z.to_nat (a - addr))).
  rewrite Z2Nat.id in H by lia.
  replace (addr + (a - addr)) with a in H by lia.
  rewrite H by lia. discriminate.
Qed.

Lemma fits_true (n : nat) (v : Z) :
  0 <= v < 256 ^ Z.of_nat n -> fits n v = true.
Proof.
  intros H. unfold fits. apply andb_true_iff.
  split; [apply Z.leb_le | apply Z.ltb_lt]; lia.
Qed.

(** The core object of [gcore] is written by [dump] when the notes and
    the three memory areas have the sizes that [invoke] reads. *)
Lemma build_core_dump (notes ccmram ram scs : list byte) :
  Z.of_nat (length notes) < 2 ^ 32 - 2 ^ 24 ->
  Z.of_nat (length ccmram) = 64 * 1024 ->
  Z.of_nat (length ram) = 128 * 1024 ->
  Z.of_nat (length scs) = 0x40 ->
  exists out,
    dump (build_core notes ccmram ram scs) []
    = (update_headers (build_core notes ccmram ram scs), out, Val tt).
Proof.
  intros Hn Hc Hr Hs. apply dump_fits.
  - reflexivity.
  - rewrite update_headers_phdr.
    unfold build_core, add_program, set_machine, set_type, CoreFile_new.
    cbn [_phdr _ehdr app length Nat.eqb layout forallb].
    unfold Phdr_fits, place.
    cbn [p_type p_offset p_vaddr p_paddr p_filesz p_memsz p_flags p_align
         data].
    unfold Ehdr_sizeof, Phdr_sizeof, PT_NOTE, PT_LOAD.
    rewrite Hc, Hr, Hs.
    repeat match goal with
           | |- context [if ?x >? ?x then _ else _] =>
               replace (if x >? x then x else x) with x
                 by now destruct (x >? x)
           end.
    change (2 ^ 32) with 4294967296 in Hn.
    change (2 ^ 24) with 16777216 in Hn.
    rewrite !andb_true_iff.
    repeat split; apply fits_true;
      change (256 ^ Z.of_nat 4) with 4294967296; lia.
Qed.

(** X12.  When the thread list has fewer than [2^24] threads whose notes
    can be built, the three memory areas (128 KiB at [0x20000000], 64
    KiB at [0x10000000], 64 bytes at [0xE000ED00]) are readable and the
    file can be opened, [gcore] writes a file named after its argument
    (after the parameter [gcore-file-name] when the argument is empty)
    followed by a dash and the time stamp. The file is an ELF core file
    for machine [0x28] that reads back as four segments: the notes at
    address 0, then the 64 KiB from [0x10000000], the 128 KiB from
    [0x20000000] and the 64 bytes from [0xE000ED00]. *)
Theorem gcore_dumps (inf : Inferior) (host : Host) (gcore_file_name : string)
    (ts : list ChibiThread) (arg : string) (sig : Z) (notes : list byte) :
  notes_of sig ts [] = Val notes ->
  Z.of_nat (length ts) < 2 ^ 24 ->
  (forall a, 0x20000000 <= a < 0x20000000 + 128 * 1024 ->
             memory inf a <> None) ->
  (forall a, 0x10000000 <= a < 0x10000000 + 64 * 1024 ->
             memory inf a <> None) ->
  (forall a, 0xE000ED00 <= a < 0xE000ED00 + 0x40 -> memory inf a <> None) ->
  let fn := ((if String.eqb arg EmptyString then gcore_file_name else arg)
               ++ "-" ++ strftime host)%string in
  can_open host fn = true ->
  exists (ram ccmram scs content : list byte) (cf : CoreFile),
    read_memory inf 0x20000000 (Z.to_nat (128 * 1024)) = Val ram /\
    read_memory inf 0x10000000 (Z.to_nat (64 * 1024)) = Val ccmram /\
    read_memory inf 0xE000ED00 (Z.to_nat 0x40) = Val scs /\
    CommandGCore_invoke inf host gcore_file_name ts arg sig
    = Dumped fn content ("(core dumped to " ++ repr host fn ++ ")")%string /\
    Z.of_nat (length content)
    = 52 + 4 * 32 + 168 * Z.of_nat (length ts)
      + 64 * 1024 + 128 * 1024 + 0x40 /\
    CoreFile_parse content = Val cf /\
    e_type (_ehdr cf) = ET_CORE /\
    e_machine (_ehdr cf) = 0x28 /\
    map p_type (_phdr cf) = [PT_NOTE; PT_LOAD; PT_LOAD; PT_LOAD] /\
    map p_vaddr (_phdr cf) = [0; 0x10000000; 0x20000000; 0xE000ED00] /\
    map data (_phdr cf) = [notes; ccmram; ram; scs].
Proof.
  intros Hnotes Hts Hram Hccm Hscs fn Hopen.
  destruct (read_memory_readable inf (Z.to_nat (128 * 1024)) 0x20000000)
    as [ram Eram]; [intros a Ha; apply Hram; rewrite Z2Nat.id in Ha; lia|].
  destruct (read_memory_readable inf (Z.to_nat (64 * 1024)) 0x10000000)
    as [ccmram Eccm]; [intros a Ha; apply Hccm; rewrite Z2Nat.id in Ha; lia|].
  destruct (read_memory_readable inf (Z.to_nat 0x40) 0xE000ED00)
    as [scs Escs]; [intros a Ha; apply Hscs; rewrite Z2Nat.id in Ha; lia|].
  pose proof (proj1 (read_memory_spec _ _ _ _ Eram)) as Lram.
  pose proof (proj1 (read_memory_spec _ _ _ _ Eccm)) as Lccm.
  pose proof (proj1 (read_memory_spec _ _ _ _ Escs)) as Lscs.
  apply (f_equal Z.of_nat) in Lram, Lccm, Lscs.
  rewrite Z2Nat.id in Lram, Lccm, Lscs by lia.
  assert (Lnotes : length notes = (168 * length ts)%nat).
  { destruct (notes_of_inv _ _ _ _ Hnotes) as (ns & Hf & ->).
    apply (concat_notes _ _ _ Hf). }
  apply (f_equal Z.of_nat) in Lnotes. rewrite Nat2Z.inj_mul in Lnotes.
  change (Z.of_nat 168) with 168 in Lnotes.
  change (2 ^ 24) with 16777216 in Hts.
  destruct (build_core_dump notes ccmram ram scs) as [content Hd];
    try assumption.
  { change (2 ^ 32) with 4294967296. change (2 ^ 24) with 16777216. lia. }
  exists ram, ccmram, scs, content,
    (mkCore (Ehdr_written (_ehdr (update_headers
                                    (build_core notes ccmram ram scs))))
            (_phdr (update_headers (build_core notes ccmram ram scs)))).
  split; [exact Eram|]. split; [exact Eccm|]. split; [exact Escs|].
  split.
  { unfold CommandGCore_invoke. rewrite Hnotes, Eram, Eccm, Escs.
    fold fn. rewrite Hopen, Hd. reflexivity. }
  split.
  { rewrite (dump_length _ _ _ _ Hd).
    unfold build_core, add_program, set_machine, set_type, CoreFile_new.
    cbn [_phdr app map data concat length].
    rewrite !length_app, !Nat2Z.inj_add. cbn [length].
    rewrite Lram, Lccm, Lscs, Lnotes. lia. }
  split; [exact (dump_reparse _ _ _ Hd)|].
  cbn [_ehdr _phdr].
  rewrite update_headers_phdr, update_headers_ehdr.
  rewrite layout_type, layout_vaddr, layout_data.
  repeat split.
Qed.

Lemma gcore_dumps_witness :
  let inf := Examples.readable Examples.two_threads in
  let ts := thread_cache Examples.after_stop in
  exists (notes ram ccmram scs content : list byte) (cf : CoreFile),
    notes_of SIGINT ts [] = Val notes /\
    length ts = 2%nat /\
    CommandGCore_invoke inf Examples.host "core" ts EmptyString SIGINT
    = Dumped "core-700101-000000" content
             "(core dumped to 'core-700101-000000')" /\
    Z.of_nat (length content)
    = 52 + 4 * 32 + 168 * 2 + 64 * 1024 + 128 * 1024 + 0x40 /\
    CoreFile_parse content = Val cf /\
    e_type (_ehdr cf) = ET_CORE /\
    e_machine (_ehdr cf) = 0x28 /\
    map p_type (_phdr cf) = [PT_NOTE; PT_LOAD; PT_LOAD; PT_LOAD] /\
    map p_vaddr (_phdr cf) = [0; 0x10000000; 0x20000000; 0xE000ED00] /\
    map data (_phdr cf) = [notes; ccmram; ram; scs].
Proof.
  intros inf ts.
  destruct (notes_of SIGINT ts []) as [notes|e] eqn:E;
    [ | vm_compute in E; discriminate E].
  assert (Hts : Z.of_nat (length ts) < 2 ^ 24) by reflexivity.
  assert (Hmem : forall a, memory inf a <> None) by (intros a; discriminate).
  destruct (gcore_dumps inf Examples.host "core" ts EmptyString SIGINT notes
                        E Hts (fun a _ => Hmem a) (fun a _ => Hmem a)
                        (fun a _ => Hmem a) eq_refl)
    as (ram & ccmram & scs & content & cf & _ & _ & _ & H).
  exists notes, ram, ccmram, scs, content, cf.
  split; [reflexivity|]. split; [reflexivity|]. exact H.
Defined.

(** X13.  When a byte of one of the three memory areas cannot be read,
    [gcore] raises before it opens a file: the memory error of
    [read_memory], or [struct.error] when already the notes, which are
    built first, cannot be packed. *)
Theorem gcore_unreadable_memory (inf : Inferior) (host : Host)
    (gcore_file_name : string) (ts : list ChibiThread) (arg : string)
    (sig a : Z) :
  memory inf a = None ->
  0x20000000 <= a < 0x20000000 + 128 * 1024
  \/ 0x10000000 <= a < 0x10000000 + 64 * 1024
  \/ 0xE000ED00 <= a < 0xE000ED00 + 0x40 ->
  CommandGCore_invoke inf host gcore_file_name ts arg sig
  = match notes_of sig ts [] with
    | Val _ => Raised MemoryError
    | Raise e => Raised e
    end.
Proof.
  intros Ha Hr. unfold CommandGCore_invoke.
  destruct (notes_of sig ts []) as [notes|e]; [|reflexivity].
  destruct (read_memory inf 0x20000000 _) as [ram|e] eqn:Eram;
    [ | now rewrite (read_memory_raise _ _ _ _ Eram)].
  destruct (read_memory inf 0x10000000 _) as [ccmram|e] eqn:Eccm;
    [ | now rewrite (read_memory_raise _ _ _ _ Eccm)].
  destruct (read_memory inf 0xE000ED00 _) as [scs|e] eqn:Escs;
    [ | now rewrite (read_memory_raise _ _ _ _ Escs)].
  exfalso. destruct Hr as [Hr | [Hr | Hr]].
  - apply (read_memory_unreadable _ _ _ a _ Eram);
      [rewrite Z2Nat.id; lia | exact Ha].
  - apply (read_memory_unreadable _ _ _ a _ Eccm);
      [rewrite Z2Nat.id; lia | exact Ha].
  - apply (read_memory_unreadable _ _ _ a _ Escs);
      [rewrite Z2Nat.id; lia | exact Ha].
Qed.

Lemma gcore_unreadable_memory_witness :
  let inf := Examples.two_threads in
  let ts := thread_cache Examples.after_stop in
  memory inf 0x10000000 = None /\
  (exists notes, notes_of SIGINT ts [] = Val notes) /\
  CommandGCore_invoke inf Examples.host "core" ts EmptyString SIGINT
  = Raised MemoryError.
Proof.
  intros inf ts.
  assert (Ha : memory inf 0x10000000 = None) by reflexivity.
  assert (Hr : 0x20000000 <= 0x10000000 < 0x20000000 + 128 * 1024
               \/ 0x10000000 <= 0x10000000 < 0x10000000 + 64 * 1024
               \/ 0xE000ED00 <= 0x10000000 < 0xE000ED00 + 0x40) by lia.
  pose proof (gcore_unreadable_memory inf Examples.host "core" ts EmptyString
                                      SIGINT _ Ha Hr) as H.
  destruct (notes_of SIGINT ts []) as [notes|e] eqn:E;
    [ | vm_compute in E; discriminate E].
  split; [exact Ha|]. split; [now exists notes | exact H].
Defined.

End CoredumpFacts.

(** ** More on the thread registry *)

Section SessionMore.
Import Pack Gdb Chibios.
Local Open Scope monad_scope.

Lemma cast_long_range (v : Z) : 0 <= cast_long v < 2 ^ 32.
Proof. unfold cast_long. apply Z.mod_pos_bound. lia. Qed.

(** X14.  The register set that [get_cpu_regs] returns: the sixteen
    general-purpose registers and [xpsr] of the newest frame, each cast
    to an unsigned 32-bit value, and two zeros; so 19 unsigned 32-bit
    values. *)
Theorem get_cpu_regs_capture (inf : Inferior) (rc : list Z) :
  get_cpu_regs inf = Val rc ->
  newest_frame inf = true /\
  length rc = 19%nat /\
  (forall i, (i < 16)%nat ->
             option_map cast_long (reg_value inf (R i)) = Some (nth i rc 0)) /\
  option_map cast_long (reg_value inf XPSR) = Some (nth 16 rc 0) /\
  nth 17 rc 0 = 0 /\ nth 18 rc 0 = 0 /\
  Forall (fun v => 0 <= v < 2 ^ 32) rc.
Proof.
  unfold get_cpu_regs. destruct (newest_frame inf); [|discriminate].
  cbn [seq read_gprs repeat].
  repeat match goal with
         | |- context [reg_value inf (R ?i)] =>
             let v := fresh "v" in
             let E := fresh "E" in
             destruct (reg_value inf (R i)) as [v|] eqn:E;
             [cbn [list_set rbind] | discriminate]
         end.
  destruct (reg_value inf XPSR) as [x|] eqn:Ex; [|discriminate].
  cbn [list_set rbind]. intros H. inversion H; subst rc; clear H.
  split; [reflexivity|]. split; [reflexivity|]. split.
  { intros i Hi.
    do 16 (destruct i as [|i];
           [match goal with E : reg_value inf (R _) = _ |- _ =>
              rewrite E; reflexivity end|]).
    lia. }
  split; [reflexivity|]. split; [reflexivity|]. split; [reflexivity|].
  repeat (constructor; [first [apply cast_long_range | lia]|]).
  constructor.
Qed.

Lemma get_cpu_regs_capture_witness :
  get_cpu_regs Examples.two_threads = Val Examples.captured /\
  newest_frame Examples.two_threads = true /\
  length Examples.captured = 19%nat /\
  (forall i, (i < 16)%nat ->
             option_map cast_long (reg_value Examples.two_threads (R i))
             = Some (nth i Examples.captured 0)) /\
  option_map cast_long (reg_value Examples.two_threads XPSR)
  = Some (nth 16 Examples.captured 0) /\
  nth 17 Examples.captured 0 = 0 /\ nth 18 Examples.captured 0 = 0 /\
  Forall (fun v => 0 <= v < 2 ^ 32) Examples.captured.
Proof.
  assert (H : get_cpu_regs Examples.two_threads = Val Examples.captured)
    by reflexivity.
  split; [exact H | exact (get_cpu_regs_capture _ _ H)].
Defined.

Lemma _update_current (inf : Inferior) (rc : list Z) (cp : option Z)
    (t : ChibiThread) (nm : string) :
  is_currp cp (tp t) = true ->
  thread_name inf (tp t) = Val nm ->
  _update inf rc cp t
  = _update_frame inf (set_active true (set_regs rc (set_name nm t))).
Proof.
  intros Hc Hn. rewrite _update_unfold, Hn, Hc. reflexivity.
Qed.

(** X15.  The refresh of the thread that [currp] points to, when its
    name can be read: its registers are the register cache, it is
    active, and pointer and label are kept, whatever the frame lookup
    does, whose outcome is the outcome of the refresh. *)
Theorem running_thread_refresh (inf : Inferior) (rc : list Z) (cp : option Z)
    (t : ChibiThread) (nm : string) :
  is_currp cp (tp t) = true ->
  thread_name inf (tp t) = Val nm ->
  let r := _update inf rc cp t in
  regs (fst r) = rc /\ active (fst r) = true /\ name (fst r) = nm /\
  tp (fst r) = tp t /\ lwp (fst r) = lwp t /\
  snd r
  = snd (_update_frame inf (set_active true (set_regs rc (set_name nm t)))).
Proof.
  intros Hc Hn. cbn zeta. rewrite (_update_current _ _ _ _ _ Hc Hn).
  destruct (_update_frame_keeps inf
              (set_active true (set_regs rc (set_name nm t))))
    as (H1 & H2 & H3 & H4 & H5).
  rewrite H1, H2, H3, H4, H5. repeat split.
Qed.

Lemma running_thread_refresh_witness :
  let inf := Examples.two_threads in
  let t := Examples.idle_thread in
  let r := _update inf Examples.captured (Some 0x20000200) t in
  is_currp (Some 0x20000200) (tp t) = true /\
  thread_name inf (tp t) = Val "idle"%string /\
  regs (fst r) = Examples.captured /\ active (fst r) = true /\
  name (fst r) = "idle"%string /\
  tp (fst r) = tp t /\ lwp (fst r) = lwp t /\
  snd r
  = snd (_update_frame inf
           (set_active true
              (set_regs Examples.captured (set_name "idle" t)))).
Proof.
  intros inf t r.
  assert (Hc : is_currp (Some 0x20000200) (tp t) = true) by reflexivity.
  assert (Hn : thread_name inf (tp t) = Val "idle"%string) by reflexivity.
  split; [exact Hc|]. split; [exact Hn|].
  exact (running_thread_refresh inf Examples.captured _ t _ Hc Hn).
Defined.

Lemma update_all_stops (inf : Inferior) (rc : list Z) (cp : option Z)
    (pre : list ChibiThread) (t : ChibiThread) (post : list ChibiThread)
    (e : exn) :
  Forall (fun u => snd (_update inf rc cp u) = Val tt) pre ->
  snd (_update inf rc cp t) = Raise e ->
  update_all inf rc cp (pre ++ t :: post)
  = (map (fun u => fst (_update inf rc cp u)) pre
       ++ fst (_update inf rc cp t) :: post,
     Raise e).
Proof.
  intros Hpre Ht. induction Hpre as [|u pre Hu _ IH];
    cbn [app map update_all].
  - destruct (_update inf rc cp t) as [t' r]. cbn [fst snd] in *.
    subst r. reflexivity.
  - destruct (_update inf rc cp u) as [u' r]. cbn [fst snd] in *.
    subst r. rewrite IH. reflexivity.
Qed.

(** X16.  When the refresh of a known thread raises during a stop, the
    handler ends there with that exception: the threads before it in the
    list are refreshed, the threads after it are left as they were, no
    thread is added or announced, nothing is printed and no register is
    written. *)
Theorem stop_handler_refresh_failure (inf : Inferior) (fuel : nat)
    (s : Session) (rc tmp : list Z) (c : Z)
    (pre : list ChibiThread) (t : ChibiThread) (post : list ChibiThread)
    (e : exn) :
  get_cpu_regs inf = Val rc ->
  sym_currp inf = Some c ->
  scan inf fuel = Some (Val tmp) ->
  thread_cache s = pre ++ t :: post ->
  Forall (fun u => snd (_update inf rc (Some c) u) = Val tt) pre ->
  snd (_update inf rc (Some c) t) = Raise e ->
  stop_handler inf fuel s
  = Some (mkSession rc
            (map (fun u => fst (_update inf rc (Some c) u)) pre
               ++ fst (_update inf rc (Some c) t) :: post)
            (Some c) (next_lwp s) (world s),
          Raise e).
Proof.
  intros Hrc Hcp Hscan Hts Hpre Ht.
  unfold stop_handler. rewrite Hrc, Hcp, Hscan.
  unfold rescan. unfold bind at 1.
  cbn [reg_cache currp thread_cache]. rewrite Hts.
  rewrite (update_all_stops _ _ _ _ _ _ _ Hpre Ht). reflexivity.
Qed.

Lemma stop_handler_refresh_failure_witness :
  let inf := Examples.no_symbols Examples.two_threads in
  let s := Examples.after_stop in
  exists main idle,
    thread_cache s = [] ++ main :: [idle] /\
    get_cpu_regs inf = Val Examples.captured /\
    sym_currp inf = Some 0x20000100 /\
    scan inf 3 = Some (Val [0x20000100; 0x20000200]) /\
    snd (_update inf Examples.captured (Some 0x20000100) main)
    = Raise AttributeError /\
    stop_handler inf 3 s
    = Some (mkSession Examples.captured
              ([] ++ fst (_update inf Examples.captured (Some 0x20000100)
                                  main) :: [idle])
              (Some 0x20000100) (next_lwp s) (world s),
            Raise AttributeError).
Proof.
  intros inf s.
  destruct (thread_cache s) as [|main [|idle [|]]] eqn:E;
    try (vm_compute in E; discriminate E).
  exists main, idle.
  assert (Hm : snd (_update inf Examples.captured (Some 0x20000100) main)
               = Raise AttributeError).
  { vm_compute in E. inversion E; subst. vm_compute. reflexivity. }
  split; [reflexivity|]. split; [reflexivity|]. split; [reflexivity|].
  split; [reflexivity|]. split; [exact Hm|].
  exact (stop_handler_refresh_failure inf 3 s Examples.captured
           [0x20000100; 0x20000200] 0x20000100 [] main [idle]
           AttributeError eq_refl eq_refl eq_refl E (Forall_nil _) Hm).
Defined.

Lemma set_cpu_regs_returns (inf : Inferior) (regs : list Z) (w w' : World) :
  (17 <= length regs)%nat ->
  set_cpu_regs inf regs w = (w', Val tt) ->
  newest_frame inf = true /\
  first_refused inf (gdb_log w) (gpr_cmds regs) = None /\
  gdb_log w'
  = gdb_log w ++ gpr_cmds regs
      ++ [SetReg XPSR (nth 16 regs 0);
          SetReg (sp_alias (nth 16 regs 0)) (nth 13 regs 0)].
Proof.
  intros Hlen H.
  destruct (newest_frame inf) eqn:Hframe.
  - destruct (first_refused inf (gdb_log w) (gpr_cmds regs)) as [k|] eqn:Hk.
    + exfalso. revert H. cbv [set_cpu_regs bind ret raise]. rewrite Hframe.
      rewrite write_gprs_spec, Hk by lia. discriminate.
    + rewrite (set_cpu_regs_spec inf regs w Hlen Hframe Hk) in H.
      inversion H; subst w'. cbn [gdb_log].
      repeat split. now rewrite <- !app_assoc.
  - exfalso. revert H. cbv [set_cpu_regs bind ret raise]. rewrite Hframe.
    discriminate.
Qed.

Lemma in_world_returns {A} (m : M World A) (s s' : Session) (r : result A) :
  in_world m s = (s', r) -> m (world s) = (world s', r).
Proof.
  unfold in_world. destruct (m (world s)) as [w r'].
  intros H. inversion H; subst. reflexivity.
Qed.

(** The parts of [rescan]: the refresh of the known threads, the
    announcing loop and the restore. *)
Lemma rescan_inv (inf : Inferior) (tmp : list Z) (s s' : Session)
    (r : result unit) :
  rescan inf tmp s = (s', r) ->
  let u := update_all inf (reg_cache s) (currp s) (thread_cache s) in
  (exists e, snd u = Raise e /\ r = Raise e /\
             s' = set_thread_cache (fst u) s)
  \/
  (snd u = Val tt /\
   exists s3 r3,
     for_each tmp (announce inf (map tp (fst u))) (set_thread_cache (fst u) s)
     = (s3, r3) /\
     ((exists e, r3 = Raise e /\ r = Raise e /\ s' = s3)
      \/ (r3 = Val tt /\
          in_world (set_cpu_regs inf (reg_cache s3)) s3 = (s', r)))).
Proof.
  intros H. cbn zeta. unfold rescan in H. unfold bind at 1 in H.
  destruct (update_all inf (reg_cache s) (currp s) (thread_cache s))
    as [ts [[]|e]]; cbn [fst snd].
  - right. split; [reflexivity|].
    unfold bind at 1 in H. unfold get at 1 in H. unfold bind at 1 in H.
    cbn [thread_cache set_thread_cache] in H.
    destruct (for_each tmp (announce inf (map tp ts)) (set_thread_cache ts s))
      as [s3 [[]|e]] eqn:Eloop.
    + exists s3, (Val tt). split; [reflexivity|]. right.
      split; [reflexivity|].
      unfold bind at 1 in H. unfold get at 1 in H. exact H.
    + exists s3, (Raise e). split; [reflexivity|]. left.
      inversion H; subst. eauto.
  - left. inversion H; subst. eauto.
Qed.

Lemma rescan_reg_cache (inf : Inferior) (tmp : list Z) (s s' : Session)
    (r : result unit) :
  length (reg_cache s) = 19%nat ->
  rescan inf tmp s = (s', r) ->
  reg_cache s' = reg_cache s.
Proof.
  intros Hrc H. apply rescan_inv in H. cbn zeta in H.
  destruct H as [(e & _ & _ & ->) | (_ & s3 & r3 & Eloop & H)];
    [reflexivity|].
  destruct (announce_loop inf _ _ (set_thread_cache _ s) _ _ Hrc Eloop)
    as (new & rest & _ & _ & _ & I4 & _).
  cbn [reg_cache set_thread_cache] in I4.
  destruct H as [(e & _ & _ & ->) | (_ & H)]; [exact I4|].
  destruct (in_world_session _ _ _ _ H) as (J1 & _). congruence.
Qed.

(** X17.  A stop that returns has written to the target exactly what it
    had read from it: when [currp] can be evaluated, the commands it has
    issued are the sixteen general-purpose writes, the write of [xpsr]
    and the write of the stack-pointer alias, with the values of the
    register set that [get_cpu_regs] returned, which is the register
    cache afterwards; when [currp] cannot be evaluated, it has issued no
    command. *)
Theorem stop_writes_back_capture (inf : Inferior) (fuel : nat)
    (s s' : Session) :
  stop_handler inf fuel s = Some (s', Val tt) ->
  exists rc,
    get_cpu_regs inf = Val rc /\
    reg_cache s' = rc /\
    gdb_log (world s')
    = gdb_log (world s)
        ++ match sym_currp inf with
           | None => []
           | Some _ =>
               gpr_cmds rc
                 ++ [SetReg XPSR (nth 16 rc 0);
                     SetReg (sp_alias (nth 16 rc 0)) (nth 13 rc 0)]
           end.
Proof.
  intros H. unfold stop_handler in H.
  destruct (get_cpu_regs inf) as [rc|e] eqn:Erc; [|discriminate H].
  pose proof (get_cpu_regs_length inf rc Erc) as Hrc.
  exists rc. split; [reflexivity|].
  destruct (sym_currp inf) as [c|].
  - destruct (scan inf fuel) as [[tmp|e]|]; try discriminate H.
    inversion H as [Hres]; clear H.
    pose proof (rescan_reg_cache inf tmp (mkSession rc _ _ _ _) _ _ Hrc Hres)
      as Hcache.
    cbn [reg_cache] in Hcache. split; [exact Hcache|].
    apply rescan_inv in Hres. cbn zeta in Hres.
    cbn [reg_cache currp thread_cache] in Hres.
    destruct Hres as [(e & _ & He & _) | (_ & s3 & r3 & Eloop & Hres)];
      [discriminate He|].
    destruct (announce_loop inf _ _
                (set_thread_cache _ (mkSession rc _ _ _ _)) _ _ Hrc Eloop)
      as (new & rest & _ & I2 & _ & I4 & _).
    cbn [reg_cache world set_thread_cache] in I2, I4.
    destruct Hres as [(e & _ & He & _) | (_ & Hres)]; [discriminate He|].
    apply in_world_returns in Hres. rewrite I4 in Hres.
    apply set_cpu_regs_returns in Hres as (_ & _ & Hlog); [|lia].
    now rewrite Hlog, I2.
  - inversion H; subst s'. cbn [reg_cache world].
    split; [reflexivity | now rewrite app_nil_r].
Qed.

Lemma stop_writes_back_capture_witness :
  let inf := Examples.two_threads in
  exists s',
    stop_handler inf 3 initial = Some (s', Val tt) /\
    sym_currp inf = Some 0x20000100 /\
    exists rc,
      get_cpu_regs inf = Val rc /\
      reg_cache s' = rc /\
      gdb_log (world s')
      = gdb_log (world initial)
          ++ match sym_currp inf with
             | None => []
             | Some _ =>
                 gpr_cmds rc
                   ++ [SetReg XPSR (nth 16 rc 0);
                       SetReg (sp_alias (nth 16 rc 0)) (nth 13 rc 0)]
             end.
Proof.
  intros inf.
  destruct (stop_handler inf 3 initial) as [[s' [[]|e]]|] eqn:E;
    try (vm_compute in E; discriminate E).
  exists s'. split; [reflexivity|]. split; [reflexivity|].
  exact (stop_writes_back_capture inf 3 initial s' E).
Defined.

Lemma CommandThread_invoke_reg_cache (inf : Inferior)
    (int_of : string -> option Z) (arg : string) (s : Session) :
  reg_cache (fst (CommandThread_invoke inf int_of arg s)) = reg_cache s.
Proof.
  unfold CommandThread_invoke.
  destruct (if String.eqb arg EmptyString
            then find active (thread_cache s)
            else None) as [thread|].
  - reflexivity.
  - destruct (select_loop inf (py_int int_of arg) (thread_cache s) 0 false
                          (world s)) as [[[ts [old_lwp found]] w] o].
    destruct o as [[]|e]; [|reflexivity].
    destruct found; [reflexivity|].
    destruct (py_int int_of arg) as [k|e]; reflexivity.
Qed.

Lemma step_reg_cache (fuel : nat) (ev : event) (s s' : Session) :
  reg_cache s = [] \/ length (reg_cache s) = 19%nat ->
  step fuel ev s = Some s' ->
  reg_cache s' = [] \/ length (reg_cache s') = 19%nat.
Proof.
  intros Hs H. destruct ev as [inf | inf | | | inf int_of arg];
    cbn [step] in H.
  - destruct (stop_handler inf fuel s) as [[s1 r]|] eqn:E;
      inversion H; subst s1; clear H.
    unfold stop_handler in E.
    destruct (get_cpu_regs inf) as [rc|e] eqn:Erc.
    + pose proof (get_cpu_regs_length inf rc Erc) as Hrc. right.
      destruct (sym_currp inf) as [c|].
      * destruct (scan inf fuel) as [[tmp|e]|]; try discriminate E.
        -- inversion E as [Hres].
           now rewrite (rescan_reg_cache inf tmp (mkSession rc _ _ _ _) _ _
                                         Hrc Hres).
        -- now inversion E; subst.
      * now inversion E; subst.
    + now inversion E; subst.
  - inversion H; subst s'. unfold cont_handler, bind, get.
    destruct (reg_cache s) as [|x rc] eqn:E; [now left|].
    destruct (in_world (set_cpu_regs inf (x :: rc)) s) as [s1 r] eqn:Ew.
    destruct (in_world_session _ _ _ _ Ew) as (J1 & _).
    cbn [fst]. rewrite J1, E. exact Hs.
  - inversion H; subst s'. now left.
  - inversion H; subst s'. rewrite info_threads_lists_cache. exact Hs.
  - inversion H; subst s'. now rewrite CommandThread_invoke_reg_cache.
Qed.

Lemma run_reg_cache (fuel : nat) (evs : list event) :
  forall s s',
    reg_cache s = [] \/ length (reg_cache s) = 19%nat ->
    run fuel evs s = Some s' ->
    reg_cache s' = [] \/ length (reg_cache s') = 19%nat.
Proof.
  induction evs as [|ev evs IH]; intros s s' Hs H; cbn [run] in H.
  - now inversion H; subst.
  - destruct (step fuel ev s) as [s1|] eqn:E; [|discriminate H].
    eapply IH; [|exact H]. eapply step_reg_cache; eassumption.
Qed.

(** X18.  In every state that the module reaches, the register cache is
    empty or has 19 entries. On resume, [cont_handler] does nothing when
    the cache is empty, as it is when the module has been loaded and
    after the inferior has exited, and otherwise does what
    [set_cpu_regs] does with the cache. So, after an exit, no register
    of the next inferior is written before the first stop. *)
Theorem resume_restores_capture (fuel : nat) (evs : list event)
    (s : Session) (inf : Inferior) :
  run fuel evs initial = Some s ->
  ((reg_cache s = [] /\ cont_handler inf s = (s, Val tt))
   \/ (length (reg_cache s) = 19%nat /\
       cont_handler inf s = in_world (set_cpu_regs inf (reg_cache s)) s))
  /\ cont_handler inf (fst (exit_handler s)) = (fst (exit_handler s), Val tt).
Proof.
  intros H. split; [|reflexivity].
  destruct (run_reg_cache fuel evs initial s (or_introl eq_refl) H)
    as [E|E].
  - left. split; [exact E|]. unfold cont_handler, bind, get. now rewrite E.
  - right. split; [exact E|]. unfold cont_handler, bind, get.
    destruct (reg_cache s); [discriminate E | reflexivity].
Qed.

Lemma resume_restores_capture_witness :
  let inf := Examples.two_threads in
  let evs := [Stop inf; CmdThread inf (fun _ => Some 2) "2"] in
  exists s,
    run 3 evs initial = Some s /\
    reg_cache s = Examples.captured /\
    ((reg_cache s = [] /\ cont_handler inf s = (s, Val tt))
     \/ (length (reg_cache s) = 19%nat /\
         cont_handler inf s = in_world (set_cpu_regs inf (reg_cache s)) s))
    /\ cont_handler inf (fst (exit_handler s))
       = (fst (exit_handler s), Val tt).
Proof.
  intros inf evs.
  destruct (run 3 evs initial) as [s|] eqn:E;
    [ | vm_compute in E; discriminate E].
  exists s. split; [reflexivity|].
  split; [vm_compute in E; inversion E; reflexivity|].
  exact (resume_restores_capture 3 evs s inf E).
Defined.

Lemma set_active_false_inactive (t : ChibiThread) :
  active t = false -> set_active false t = t.
Proof. intros H. destruct t; cbn in *; subst; reflexivity. Qed.

(** The selecting loop when exactly one thread has the label. *)
Lemma select_loop_match (inf : Inferior) (k : Z)
    (pre : list ChibiThread) (t : ChibiThread) (post : list ChibiThread) :
  Forall (fun u => lwp u <> k) pre ->
  lwp t = k ->
  Forall (fun u => lwp u <> k) post ->
  forall (old_lwp : Z) (found : bool) (w : World),
    select_loop inf (Val k) (pre ++ t :: post) old_lwp found w
    = match set_cpu_regs inf (regs t) w with
      | (w', Val _) =>
          (map (set_active false) pre
             ++ set_active true t :: map (set_active false) post,
           (last_active post (last_active pre old_lwp), true), w', Val tt)
      | (w', Raise e) =>
          (map (set_active false) pre ++ set_active true t :: post,
           (last_active pre old_lwp, true), w', Raise e)
      end.
Proof.
  intros Hpre Ht Hpost.
  induction Hpre as [|u pre Hu _ IH]; intros old_lwp found w;
    cbn [app map select_loop last_active].
  - rewrite (proj2 (Z.eqb_eq _ _) Ht).
    destruct (set_cpu_regs inf (regs t) w) as [w' [[]|e]]; [|reflexivity].
    rewrite (select_loop_no_match inf k post Hpost). reflexivity.
  - rewrite (proj2 (Z.eqb_neq _ _) Hu).
    destruct (active u) eqn:Eact; rewrite IH;
      destruct (set_cpu_regs inf (regs t) w) as [w' [[]|e]];
      rewrite ?(set_active_false_inactive u Eact); reflexivity.
Qed.

Lemma label_split (k : Z) (ts : list ChibiThread) (t : ChibiThread) :
  NoDup (map lwp ts) -> In t ts -> lwp t = k ->
  exists pre post,
    ts = pre ++ t :: post /\
    Forall (fun u => lwp u <> k) pre /\ Forall (fun u => lwp u <> k) post.
Proof.
  intros Hnd Hin Hk. apply in_split in Hin as (pre & post & ->).
  exists pre, post. split; [reflexivity|].
  rewrite map_app in Hnd. cbn [map] in Hnd.
  pose proof (NoDup_remove_2 _ _ _ Hnd) as Hnot.
  rewrite Hk in Hnot.
  split; apply Forall_forall; intros u Hu E; apply Hnot; apply in_or_app;
    [left | right]; apply in_map_iff; exists u; auto.
Qed.

Lemma session_eta (s : Session) :
  set_world (world s) (set_thread_cache (thread_cache s) s) = s.
Proof. now destruct s. Qed.

(** X19.  Selecting a known thread. With distinct labels in the
    registry, an argument that is the label of the thread [t], and a
    target that takes the register writes, [CommandThread.invoke] writes
    the registers of [t] with [set_cpu_regs], once, and leaves [t] as
    the only active thread; nothing else changes. *)
Theorem known_thread_selection (inf : Inferior)
    (int_of : string -> option Z) (arg : string) (k : Z) (s : Session)
    (t : ChibiThread) (w' : World) :
  arg <> EmptyString ->
  int_of arg = Some k ->
  registry_ok s ->
  In t (thread_cache s) ->
  lwp t = k ->
  set_cpu_regs inf (regs t) (world s) = (w', Val tt) ->
  CommandThread_invoke inf int_of arg s
  = (set_world w'
       (set_thread_cache
          (map (fun u => set_active (lwp u =? k) u) (thread_cache s)) s),
     Val tt).
Proof.
  intros Harg Hint (_ & _ & Hsort & _) Hin Hk Hset.
  destruct (label_split k _ t (StronglySorted_lt_NoDup _ Hsort) Hin Hk)
    as (pre & post & Hts & Hpre & Hpost).
  unfold CommandThread_invoke.
  replace (String.eqb arg EmptyString) with false
    by (symmetry; now apply String.eqb_neq).
  unfold py_int. rewrite Hint, Hts.
  rewrite (select_loop_match inf k pre t post Hpre Hk Hpost), Hset.
  do 2 f_equal. f_equal. rewrite map_app. cbn [map].
  rewrite (proj2 (Z.eqb_eq _ _) Hk). f_equal; [|f_equal];
    apply map_ext_in; intros u Hu;
    [rewrite Forall_forall in Hpre; specialize (Hpre u Hu)
    |rewrite Forall_forall in Hpost; specialize (Hpost u Hu)];
    now rewrite (proj2 (Z.eqb_neq _ _)).
Qed.

Lemma known_thread_selection_witness :
  let inf := Examples.two_threads in
  let s := Examples.after_stop in
  exists t w',
    nth_error (thread_cache s) 1 = Some t /\
    lwp t = 2 /\
    set_cpu_regs inf (regs t) (world s) = (w', Val tt) /\
    map active (thread_cache s) = [true; false] /\
    CommandThread_invoke inf (fun _ => Some 2) "2" s
    = (set_world w'
         (set_thread_cache
            (map (fun u => set_active (lwp u =? 2) u) (thread_cache s)) s),
       Val tt).
Proof.
  intros inf s.
  destruct (nth_error (thread_cache s) 1) as [t|] eqn:E;
    [ | vm_compute in E; discriminate E].
  assert (Hl : lwp t = 2) by (vm_compute in E; inversion E; reflexivity).
  destruct (set_cpu_regs inf (regs t) (world s)) as [w' [[]|e]] eqn:Ew;
    [ | vm_compute in E; inversion E; subst t; vm_compute in Ew;
        discriminate Ew].
  exists t, w'. split; [reflexivity|]. split; [exact Hl|].
  split; [exact Ew|]. split; [reflexivity|].
  apply (known_thread_selection inf (fun _ => Some 2) "2" 2 s t w').
  - discriminate.
  - reflexivity.
  - apply (stop_handler_ok inf 3 initial s (Val tt)).
    + apply registry_ok_fresh; reflexivity.
    + vm_compute. reflexivity.
  - eapply nth_error_In, E.
  - exact Hl.
  - exact Ew.
Defined.

(** X20.  Selecting a known thread on a target that refuses a write. The
    thread with the label is marked active before its registers are
    written; when [set_cpu_regs] raises, the command ends with that
    exception, the threads before it in the list have been marked
    inactive, and the threads after it are left as they were, active
    flags included. *)
Theorem refused_thread_selection (inf : Inferior)
    (int_of : string -> option Z) (arg : string) (k : Z) (s : Session)
    (pre : list ChibiThread) (t : ChibiThread) (post : list ChibiThread)
    (w' : World) (e : exn) :
  arg <> EmptyString ->
  int_of arg = Some k ->
  thread_cache s = pre ++ t :: post ->
  Forall (fun u => lwp u <> k) pre ->
  lwp t = k ->
  set_cpu_regs inf (regs t) (world s) = (w', Raise e) ->
  CommandThread_invoke inf int_of arg s
  = (set_world w'
       (set_thread_cache
          (map (set_active false) pre ++ set_active true t :: post) s),
     Raise e).
Proof.
  intros Harg Hint Hts Hpre Hk Hset.
  unfold CommandThread_invoke.
  replace (String.eqb arg EmptyString) with false
    by (symmetry; now apply String.eqb_neq).
  unfold py_int. rewrite Hint, Hts. clear Hts.
  assert (Hloop : forall old found,
             select_loop inf (Val k) (pre ++ t :: post) old found (world s)
             = (map (set_active false) pre ++ set_active true t :: post,
                (last_active pre old, true), w', Raise e)).
  { induction Hpre as [|u pre Hu _ IH]; intros old found;
      cbn [app map select_loop last_active].
    - rewrite (proj2 (Z.eqb_eq _ _) Hk), Hset. reflexivity.
    - rewrite (proj2 (Z.eqb_neq _ _) Hu).
      destruct (active u) eqn:Eact; rewrite IH;
        rewrite ?(set_active_false_inactive u Eact); reflexivity. }
  rewrite Hloop. reflexivity.
Qed.

Lemma refused_thread_selection_witness :
  let inf := Examples.refusing (R 5) Examples.two_threads in
  let s := Examples.after_stop in
  exists main idle w',
    thread_cache s = [main] ++ idle :: [] /\
    lwp main <> 2 /\ lwp idle = 2 /\
    set_cpu_regs inf (regs idle) (world s) = (w', Raise GdbError) /\
    CommandThread_invoke inf (fun _ => Some 2) "2" s
    = (set_world w'
         (set_thread_cache
            (map (set_active false) [main] ++ set_active true idle :: []) s),
       Raise GdbError).
Proof.
  intros inf s.
  destruct (thread_cache s) as [|main [|idle [|]]] eqn:E;
    try (vm_compute in E; discriminate E).
  assert (Hm : lwp main <> 2)
    by (vm_compute in E; inversion E; discriminate).
  assert (Hi : lwp idle = 2) by (vm_compute in E; inversion E; reflexivity).
  destruct (set_cpu_regs inf (regs idle) (world s)) as [w' [[]|[]]] eqn:Ew;
    try (vm_compute in E; inversion E; subst; vm_compute in Ew;
         discriminate Ew).
  exists main, idle, w'.
  split; [reflexivity|]. split; [exact Hm|]. split; [exact Hi|].
  split; [exact Ew|].
  apply (refused_thread_selection inf (fun _ => Some 2) "2" 2 s
           [main] idle [] w' GdbError).
  - discriminate.
  - reflexivity.
  - exact E.
  - constructor; [exact Hm | constructor].
  - exact Hi.
  - exact Ew.
Defined.

Lemma select_loop_raise (inf : Inferior) (e : exn) (ts : list ChibiThread)
    (old_lwp : Z) (found : bool) (w : World) :
  select_loop inf (Raise e) ts old_lwp found w
  = (ts, (old_lwp, found), w,
     match ts with [] => Val tt | _ :: _ => Raise e end).
Proof. destruct ts; reflexivity. Qed.

(** X21.  [thread] without an argument. When a thread is active, the
    command prints the label and the name of the first active thread of
    the list and changes nothing else; when no thread is active, it
    falls through to [int('')] and raises [ValueError], with the session
    as it was. *)
Theorem current_thread_query (inf : Inferior) (int_of : string -> option Z)
    (s : Session) :
  int_of EmptyString = None ->
  CommandThread_invoke inf int_of EmptyString s
  = match find active (thread_cache s) with
    | Some thread =>
        (set_world
           (mkWorld (gdb_log (world s))
              (console (world s)
                 ++ [("[Current thread is " ++ Fmt.dec (lwp thread) ++ " ("
                        ++ name thread ++ ")]")%string]))
           s,
         Val tt)
    | None => (s, Raise ValueError)
    end.
Proof.
  intros Hint. unfold CommandThread_invoke. cbn [String.eqb].
  destruct (find active (thread_cache s)) as [thread|]; [reflexivity|].
  unfold py_int. rewrite Hint, select_loop_raise.
  destruct (thread_cache s) eqn:E; rewrite <- E, session_eta; reflexivity.
Qed.

Lemma current_thread_query_witness :
  (fun _ : string => @None Z) EmptyString = None /\
  CommandThread_invoke Examples.two_threads (fun _ : string => @None Z)
                       EmptyString Examples.after_stop
  = (set_world
       (mkWorld (gdb_log (world Examples.after_stop))
          (console (world Examples.after_stop)
             ++ ["[Current thread is 1 (main)]"%string]))
       Examples.after_stop,
     Val tt) /\
  CommandThread_invoke Examples.two_threads (fun _ : string => @None Z)
                       EmptyString initial
  = (initial, Raise ValueError).
Proof.
  split; [reflexivity|]. split.
  - exact (current_thread_query Examples.two_threads (fun _ : string => @None Z)
                                Examples.after_stop eq_refl).
  - exact (current_thread_query Examples.two_threads (fun _ : string => @None Z)
                                initial eq_refl).
Defined.

Lemma _update_current_regs (inf : Inferior) (rc : list Z) (cp : option Z)
    (t t' : ChibiThread) :
  _update inf rc cp t = (t', Val tt) ->
  is_currp cp (tp t) = true ->
  regs t' = rc.
Proof.
  intros H Hc.
  destruct (thread_name inf (tp t)) as [nm|e] eqn:Hn.
  - rewrite (_update_current _ _ _ _ _ Hc Hn) in H.
    destruct (_update_frame_keeps inf
                (set_active true (set_regs rc (set_name nm t))))
      as (_ & _ & _ & H4 & _).
    rewrite H in H4. exact H4.
  - rewrite _update_unfold, Hn in H. discriminate H.
Qed.

Lemma _update_marked (inf : Inferior) (rc : list Z) (cp : option Z)
    (t t' : ChibiThread) :
  _update inf rc cp t = (t', Val tt) -> marked rc cp t'.
Proof.
  intros H. pose proof (_update_active inf _ _ _ _ H) as Ha.
  destruct (_update_identity inf rc cp t) as [Htp _].
  rewrite H in Htp. cbn [fst] in Htp.
  split; [now rewrite Htp|].
  intros Hact. rewrite Hact in Ha.
  now apply (_update_current_regs inf rc cp t t').
Qed.

Lemma update_all_marked (inf : Inferior) (rc : list Z) (cp : option Z)
    (ts ts' : list ChibiThread) :
  update_all inf rc cp ts = (ts', Val tt) -> Forall (marked rc cp) ts'.
Proof.
  revert ts'. induction ts as [|t ts IH]; intros ts' H; cbn [update_all] in H.
  - inversion H. constructor.
  - destruct (_update inf rc cp t) as [t1 [[]|e]] eqn:Et;
      [ | discriminate H].
    destruct (update_all inf rc cp ts) as [ts1 r] eqn:Ets.
    inversion H; subst ts' r. constructor.
    + eapply _update_marked, Et.
    + now apply IH.
Qed.

Lemma announce_loop_marked (inf : Inferior) (old tmp : list Z)
    (s s' : Session) (r : result unit) :
  for_each tmp (announce inf old) s = (s', r) ->
  Forall (marked (reg_cache s) (currp s)) (thread_cache s) ->
  Forall (marked (reg_cache s) (currp s)) (thread_cache s').
Proof.
  intros H Hs.
  set (Q := marked (reg_cache s) (currp s)).
  set (P := fun u : Session =>
              (reg_cache u = reg_cache s /\ currp u = currp s)
              /\ Forall Q (thread_cache u)).
  assert (Hk : keeps P (for_each tmp (announce inf old)) (fun _ => True)).
  { apply keeps_for_each. intros a _. unfold announce.
    destruct (existsb (Z.eqb a) old);
      [eapply keeps_weaken; [apply keeps_ret | auto] | ].
    eapply (keeps_bind _ _ _ Q).
    - unfold ChibiThread_init.
      eapply keeps_bind; [apply keeps_lift | ]. intros nm _.
      eapply keeps_bind; [apply keeps_get | ]. intros u [[Hu1 Hu2] _].
      eapply keeps_bind; [apply keeps_modify; intros v Hv; exact Hv | ].
      intros _ _.
      destruct (_update inf (reg_cache u) (currp u)
                  (mkThread a nm (next_lwp u) [] false None EmptyString))
        as [t1 [[]|e]] eqn:Et; [ | apply keeps_raise].
      eapply keeps_weaken; [apply keeps_ret | ]. intros ct <-.
      unfold Q. rewrite <- Hu1, <- Hu2. eapply _update_marked, Et.
    - intros ct Hct.
      eapply keeps_bind.
      + apply keeps_modify. intros v [Hv1 Hv2]. split; [exact Hv1 | ].
        cbn [thread_cache set_thread_cache]. apply Forall_app.
        split; [exact Hv2 | now constructor].
      + intros _ _. intros v Hv. unfold in_world.
        destruct (print (new_thread_line ct) (world v)) as [w r0].
        split; [exact Hv | auto]. }
  destruct (Hk s (conj (conj eq_refl eq_refl) Hs)) as [[_ Hfinal] _].
  now rewrite H in Hfinal.
Qed.

(** After a stop that returns with [currp] evaluated, every thread
    object is marked for the register set that the stop captured. *)
Lemma stop_marks (inf : Inferior) (fuel : nat) (s s' : Session) (c : Z) :
  sym_currp inf = Some c ->
  stop_handler inf fuel s = Some (s', Val tt) ->
  exists rc,
    get_cpu_regs inf = Val rc /\ reg_cache s' = rc /\
    Forall (marked rc (Some c)) (thread_cache s').
Proof.
  intros Hcp H. unfold stop_handler in H.
  destruct (get_cpu_regs inf) as [rc|e] eqn:Erc; [ | discriminate H].
  pose proof (get_cpu_regs_length inf rc Erc) as Hrc.
  rewrite Hcp in H.
  destruct (scan inf fuel) as [[tmp|e]|]; try discriminate H.
  inversion H as [Hres]; clear H.
  pose proof (rescan_reg_cache inf tmp (mkSession rc _ _ _ _) _ _ Hrc Hres)
    as Hcache.
  cbn [reg_cache] in Hcache.
  exists rc. split; [reflexivity|]. split; [exact Hcache|].
  apply rescan_inv in Hres. cbn zeta in Hres.
  cbn [reg_cache currp thread_cache] in Hres.
  destruct Hres as [(e & _ & He & _) | (Hu & s3 & r3 & Eloop & Hres)];
    [discriminate He|].
  destruct (update_all inf rc (Some c) (thread_cache s)) as [ts r0] eqn:Eu.
  cbn [fst snd] in *. subst r0.
  pose proof (announce_loop_marked _ _ _ _ _ _ Eloop) as Hs3.
  cbn [reg_cache currp thread_cache set_thread_cache] in Hs3.
  specialize (Hs3 (update_all_marked _ _ _ _ _ Eu)).
  destruct Hres as [(e & _ & He & _) | (_ & Hres)]; [discriminate He|].
  destruct (in_world_session _ _ _ _ Hres) as (_ & J2 & _).
  now rewrite J2.
Qed.

(** X22.  After a stop that returns, with [currp] evaluated to [c], a
    thread object is active exactly when its pointer is [c], so at most
    one is, and the registers of an active thread object are the
    register cache, that is, the registers that the stop captured. *)
Theorem stop_marks_running_thread (inf : Inferior) (fuel : nat)
    (s s' : Session) (c : Z) :
  sym_currp inf = Some c ->
  registry_ok s ->
  stop_handler inf fuel s = Some (s', Val tt) ->
  Forall (fun t => active t = (tp t =? c)) (thread_cache s') /\
  (length (filter active (thread_cache s')) <= 1)%nat /\
  Forall (fun t => active t = true -> regs t = reg_cache s')
         (thread_cache s').
Proof.
  intros Hcp Hok H.
  assert (Hcp' : sym_currp inf <> None) by congruence.
  pose proof (stop_handler_step inf fuel s s' (Val tt) Hcp' Hok H)
    as (_ & _ & _ & _ & _ & (_ & Hnd & _) & _).
  destruct (stop_marks inf fuel s s' c Hcp H) as (rc & _ & Hcache & Hm).
  split; [|split].
  - eapply Forall_impl; [|exact Hm]. intros t [Ht _]. exact Ht.
  - apply (one_active (Some c)); [exact Hnd|].
    eapply Forall_impl; [|exact Hm]. intros t [Ht _]. exact Ht.
  - rewrite Hcache. eapply Forall_impl; [|exact Hm]. intros t [_ Ht].
    exact Ht.
Qed.

Lemma stop_marks_running_thread_witness :
  let inf := Examples.two_threads in
  exists s',
    sym_currp inf = Some 0x20000100 /\
    stop_handler inf 3 initial = Some (s', Val tt) /\
    map tp (thread_cache s') = [0x20000100; 0x20000200] /\
    Forall (fun t => active t = (tp t =? 0x20000100)) (thread_cache s') /\
    (length (filter active (thread_cache s')) <= 1)%nat /\
    Forall (fun t => active t = true -> regs t = reg_cache s')
           (thread_cache s').
Proof.
  intros inf.
  destruct (stop_handler inf 3 initial) as [[s' [[]|e]]|] eqn:E;
    try (vm_compute in E; discriminate E).
  exists s'. split; [reflexivity|]. split; [reflexivity|].
  split; [vm_compute in E; inversion E; reflexivity|].
  apply (stop_marks_running_thread inf 3 initial s' 0x20000100 eq_refl).
  - apply registry_ok_fresh; reflexivity.
  - exact E.
Defined.

(** X23.  In every state that the module reaches by stops, resumes,
    exits and the two commands, also when handlers raise on the way, the
    registry is in order: no two thread objects have the same pointer,
    the labels are positive, increase along the list, so that no two are
    equal, and are below the label that the next thread gets. *)
Theorem registry_invariant (fuel : nat) (evs : list event) (s : Session) :
  run fuel evs initial = Some s ->
  registry_ok s /\ NoDup (map lwp (thread_cache s)).
Proof.
  intros H.
  assert (Hok : registry_ok s).
  { eapply run_registry_ok; [|exact H]. apply registry_ok_fresh; reflexivity. }
  split; [exact Hok|].
  destruct Hok as (_ & _ & Hsort & _).
  now apply StronglySorted_lt_NoDup.
Qed.

Lemma registry_invariant_witness :
  let inf := Examples.two_threads in
  let evs := [Stop inf; CmdThread inf (fun _ => Some 2) "2"; Cont inf;
              Stop (Examples.no_symbols inf); Stop inf] in
  exists s,
    run 3 evs initial = Some s /\
    map lwp (thread_cache s) = [1; 2] /\
    registry_ok s /\ NoDup (map lwp (thread_cache s)).
Proof.
  intros inf evs.
  destruct (run 3 evs initial) as [s|] eqn:E;
    [ | vm_compute in E; discriminate E].
  exists s. split; [reflexivity|].
  split; [vm_compute in E; inversion E; reflexivity|].
  exact (registry_invariant 3 evs s E).
Defined.

(** X24.  When the walk over the ring ends normally, every record that
    it lists could be read, and no record is listed twice. *)
Theorem ring_walk_lists_once (inf : Inferior) (fuel : nat) (l : list Z) :
  scan inf fuel = Some (Val l) ->
  Forall (fun a => thread_at inf a <> None) l /\ NoDup l.
Proof.
  intros H. destruct (scan_inv _ _ _ H) as (first & rest & _ & -> & Hf).
  pose proof (follows_nonzero _ _ _ _ Hf) as Hnz. split.
  - constructor.
    + inversion Hf; congruence.
    + eapply Forall_impl; [|exact Hnz]. intros a (_ & th & Hth & _).
      congruence.
  - constructor; [|eapply follows_NoDup, Hf].
    intros Hin. rewrite Forall_forall in Hnz.
    destruct (Hnz _ Hin) as [Hne _]. now apply Hne.
Qed.

Lemma ring_walk_lists_once_witness :
  scan Examples.two_threads 3 = Some (Val [0x20000100; 0x20000200]) /\
  Forall (fun a => thread_at Examples.two_threads a <> None)
         [0x20000100; 0x20000200] /\
  NoDup [0x20000100; 0x20000200].
Proof.
  assert (H : scan Examples.two_threads 3
              = Some (Val [0x20000100; 0x20000200])) by reflexivity.
  split; [exact H | exact (ring_walk_lists_once _ _ _ H)].
Defined.

Lemma walk_diverges (inf : Inferior) (first : Z) (I : Z -> Prop) :
  (forall a, I a ->
             exists th th',
               thread_at inf a = Some th /\ p_newer th <> first /\
               thread_at inf (p_newer th) = Some th' /\
               p_ctx_r13 th' <> 0 /\ I (p_newer th)) ->
  forall fuel last, I last -> walk inf fuel first last = None.
Proof.
  intros Hstep. induction fuel as [|fuel IH]; intros last Hl;
    cbn [walk]; [reflexivity|].
  destruct (Hstep last Hl) as (th & th' & H1 & H2 & H3 & H4 & H5).
  unfold deref_thread. rewrite H1, H3.
  rewrite (proj2 (Z.eqb_neq _ _) H2), (proj2 (Z.eqb_neq _ _) H4).
  now rewrite (IH _ H5).
Qed.

(** X25.  The walk over the ring has no other end than the first record
    or a record with a zero saved [r13]. On a ring on which the records
    reached from the first one never lead back to it and never to a zero
    saved [r13], the loop of [stop_handler] does not end: whatever the
    fuel, the handler does not return. *)
Theorem ring_walk_diverges (inf : Inferior) (first : Z) (I : Z -> Prop)
    (rc : list Z) :
  sym_rlist_r_newer inf = Some first ->
  I first ->
  (forall a, I a ->
             exists th th',
               thread_at inf a = Some th /\ p_newer th <> first /\
               thread_at inf (p_newer th) = Some th' /\
               p_ctx_r13 th' <> 0 /\ I (p_newer th)) ->
  get_cpu_regs inf = Val rc ->
  sym_currp inf <> None ->
  forall fuel s, scan inf fuel = None /\ stop_handler inf fuel s = None.
Proof.
  intros Hfirst HI Hstep Hrc Hcp fuel s.
  assert (Hscan : scan inf fuel = None).
  { unfold scan. rewrite Hfirst.
    now rewrite (walk_diverges inf first I Hstep fuel first HI). }
  split; [exact Hscan|].
  unfold stop_handler. rewrite Hrc.
  destruct (sym_currp inf); [|contradiction]. now rewrite Hscan.
Qed.

Lemma ring_walk_diverges_witness :
  let inf := Examples.self_linked Examples.two_threads in
  option_map p_newer (thread_at inf 0x20000100) = Some 0x20000200 /\
  option_map p_newer (thread_at inf 0x20000200) = Some 0x20000200 /\
  forall fuel s, scan inf fuel = None /\ stop_handler inf fuel s = None.
Proof.
  intros inf. split; [reflexivity|]. split; [reflexivity|].
  apply (ring_walk_diverges inf 0x20000100
           (fun a => a = 0x20000100 \/ a = 0x20000200) Examples.captured).
  - reflexivity.
  - now left.
  - intros a [-> | ->].
    + eexists _, _. split; [reflexivity|]. split; [discriminate|].
      split; [reflexivity|]. split; [discriminate | now right].
    + eexists _, _. split; [reflexivity|]. split; [discriminate|].
      split; [reflexivity|]. split; [discriminate | now right].
  - reflexivity.
  - discriminate.
Defined.

(** X26.  A stop at which [currp] can be evaluated removes no thread
    object: the thread objects known before are still in the list, in
    the same order and with the same pointers and labels, before those
    that the stop has added, also when a thread is no longer on the
    ring. *)
Theorem known_threads_stay (inf : Inferior) (fuel : nat) (s s' : Session)
    (r : result unit) :
  sym_currp inf <> None ->
  registry_ok s ->
  stop_handler inf fuel s = Some (s', r) ->
  map tp (thread_cache s')
  = map tp (thread_cache s) ++ map tp (announced s s') /\
  map lwp (thread_cache s')
  = map lwp (thread_cache s) ++ map lwp (announced s s').
Proof.
  intros Hcp Hok H.
  pose proof (stop_handler_step inf fuel s s' r Hcp Hok H) as (H1 & H2 & _).
  split; assumption.
Qed.

Lemma known_threads_stay_witness :
  let inf := Examples.without_idle Examples.two_threads in
  let s := Examples.after_stop in
  exists s',
    scan inf 3 = Some (Val [0x20000100]) /\
    stop_handler inf 3 s = Some (s', Val tt) /\
    map tp (thread_cache s) = [0x20000100; 0x20000200] /\
    announced s s' = [] /\
    map tp (thread_cache s')
    = map tp (thread_cache s) ++ map tp (announced s s') /\
    map lwp (thread_cache s')
    = map lwp (thread_cache s) ++ map lwp (announced s s').
Proof.
  intros inf s.
  destruct (stop_handler inf 3 s) as [[s' [[]|e]]|] eqn:E;
    try (vm_compute in E; discriminate E).
  exists s'. split; [reflexivity|]. split; [reflexivity|].
  split; [reflexivity|].
  split; [vm_compute in E; inversion E; reflexivity|].
  apply (known_threads_stay inf 3 s s' (Val tt)).
  - discriminate.
  - apply (stop_handler_ok Examples.two_threads 3 initial s (Val tt)).
    + apply registry_ok_fresh; reflexivity.
    + vm_compute. reflexivity.
  - exact E.
Defined.

Ltac explode_list l n :=
  let rec go l n :=
    lazymatch n with
    | O => destruct l; [ | discriminate]
    | S ?n' =>
        let x := fresh "x" in
        let l' := fresh "l" in
        destruct l as [|x l']; [discriminate | go l' n']
    end in
  go l n.

Lemma list_set_Forall {A} (P : A -> Prop) (l : list A) :
  forall (i : nat) (v : A) (l' : list A),
    list_set l i v = Val l' -> Forall P l -> P v -> Forall P l'.
Proof.
  induction l as [|x l IH]; intros i v l' H Hl Hv; cbn [list_set] in H.
  - discriminate.
  - apply Forall_cons_iff in Hl as [Hx Hl]. destruct i as [|i].
    + inversion H; subst. now constructor.
    + destruct (list_set l i v) as [r|e] eqn:E; cbn [rbind] in H;
        [|discriminate].
      inversion H; subst. constructor; [exact Hx|]. eapply IH; eauto.
Qed.

Lemma words_regs_ok (t : ChibiThread) :
  length (regs t) = 19%nat -> Forall word (regs t) -> regs_ok t.
Proof.
  intros Hl Hw. assert (Hn : forall i, word (nth i (regs t) 0)).
  { intros i. destruct (Nat.lt_ge_cases i (length (regs t))) as [Hi|Hi].
    - rewrite Forall_forall in Hw. apply Hw, nth_In, Hi.
    - rewrite nth_overflow by exact Hi. unfold word. lia. }
  split; [exact Hl|]. split; [intros i _; apply Hn|].
  specialize (Hn 13%nat). unfold word in Hn. lia.
Qed.

Lemma word_decode (bs : list byte) :
  (length bs <= 4)%nat -> word (le_decode bs).
Proof.
  intros H. pose proof (le_decode_range bs) as R. unfold word.
  split; [lia|]. eapply Z.lt_le_trans; [apply R|].
  change (2 ^ 32) with (256 ^ 4). apply Z.pow_le_mono_r; lia.
Qed.

Section Words.
Variable inf : Inferior.

Lemma words_ok_assign (i : nat) (v : Z) :
  word v -> keeps words_ok (assign i v) (fun _ => True).
Proof.
  intros Hv t [Hl Hw]. unfold assign.
  destruct (list_set (regs t) i v) as [l|e] eqn:E; cbn [fst snd];
    (split; [|auto]); [|now split].
  split; cbn [regs set_regs].
  - now rewrite (list_set_length _ _ _ _ E).
  - eapply list_set_Forall; eauto.
Qed.

Lemma words_ok__update_frame :
  keeps words_ok (_update_frame inf) (fun _ => True).
Proof.
  intros t Ht. split; [|auto]. unfold words_ok.
  destruct (_update_frame_keeps inf t) as (_ & _ & _ & -> & _). exact Ht.
Qed.

Lemma words_ok_saved_context :
  keeps words_ok (saved_context inf) (fun _ => True).
Proof.
  unfold saved_context.
  eapply keeps_bind; [apply keeps_modify; intros v Hv; exact Hv | ].
  intros _ _.
  eapply keeps_bind; [apply keeps_get | ]. intros v _.
  eapply keeps_bind; [apply keeps_lift | ]. intros th _.
  eapply keeps_bind; [apply words_ok_assign, cast_long_range | ]. intros _ _.
  eapply keeps_bind; [apply keeps_lift | ]. intros ctx _.
  eapply keeps_bind; [apply words_ok_assign, cast_long_range | ]. intros _ _.
  eapply keeps_bind;
    [apply keeps_for_each; intros i _;
     apply words_ok_assign, cast_long_range | ].
  intros _ _. apply words_ok__update_frame.
Qed.

Lemma pop_exception_frame_unreadable (t : ChibiThread) (e : exn) :
  length (regs t) = 19%nat ->
  read_memory inf (nth 13 (regs t) 0) 32 = Raise e ->
  pop_exception_frame inf t = (t, Raise e).
Proof.
  intros Hl Hr. cbv [pop_exception_frame bind reg lift].
  rewrite (list_get_nth (regs t) 13 0) by lia. now rewrite Hr.
Qed.

Lemma pop_exception_frame_regs_ok (t : ChibiThread) :
  words_ok t -> regs_ok (fst (pop_exception_frame inf t)).
Proof.
  intros [Hl Hw].
  destruct (read_memory inf (nth 13 (regs t) 0) 32) as [bytes|e] eqn:Hr.
  - rewrite (pop_exception_frame_spec inf t bytes Hl Hr).
    unfold regs_ok.
    destruct (_update_frame_keeps inf
                (set_regs
                   ([le_decode (firstn 4 (skipn (4 * 0) bytes));
                     le_decode (firstn 4 (skipn (4 * 1) bytes));
                     le_decode (firstn 4 (skipn (4 * 2) bytes));
                     le_decode (firstn 4 (skipn (4 * 3) bytes))]
                      ++ firstn 8 (skipn 4 (regs t))
                      ++ [le_decode (firstn 4 (skipn (4 * 4) bytes));
                          nth 13 (regs t) 0 + 104;
                          le_decode (firstn 4 (skipn (4 * 5) bytes));
                          le_decode (firstn 4 (skipn (4 * 6) bytes));
                          le_decode (firstn 4 (skipn (4 * 7) bytes))]
                      ++ skipn 17 (regs t)) t))
      as (_ & _ & _ & -> & _).
    cbn [regs set_regs].
    destruct t as [a nm l rs act blk fs]. cbn [regs] in *.
    explode_list rs 19%nat.
    repeat match goal with
           | H : Forall _ (_ :: _) |- _ => inversion H; clear H; subst
           end.
    repeat match goal with
           | |- context [le_decode ?b] =>
               let w := fresh "w" in
               let Hw := fresh "Hw" in
               assert (Hw : word (le_decode b))
                 by (apply word_decode; rewrite length_firstn; lia);
               set (w := le_decode b) in *; clearbody w
           end.
    cbn [firstn skipn app nth length].
    split; [reflexivity|]. split.
    + intros i Hi.
      do 19 (destruct i as [|i];
             [cbn [nth];
              first [ assumption | exfalso; apply Hi; reflexivity ]|]).
      destruct i; unfold word; cbn [nth]; lia.
    + unfold word in *. lia.
  - rewrite (pop_exception_frame_unreadable t e Hl Hr). cbn [fst].
    now apply words_regs_ok.
Qed.

(** A refresh with a register cache of 19 words leaves the registers
    of the thread object in order: either the name cannot be read and
    the object is as it was, or the registers are rebuilt from the
    cache. *)
Lemma _update_regs_ok (rc : list Z) (cp : option Z) (t : ChibiThread) :
  length rc = 19%nat -> Forall word rc ->
  regs_ok t \/ (exists nm, thread_name inf (tp t) = Val nm) ->
  regs_ok (fst (_update inf rc cp t)).
Proof.
  intros Hl Hw Ht. rewrite _update_unfold.
  destruct (thread_name inf (tp t)) as [nm|e] eqn:Hn.
  - clear Ht.
    assert (Hs : words_ok (set_regs rc (set_name nm t))) by (split; assumption).
    destruct (is_currp cp (tp t)).
    + rewrite bind_modify.
      destruct (words_ok__update_frame
                  (set_active true (set_regs rc (set_name nm t))) Hs)
        as [[H1 H2] _].
      now apply words_regs_ok.
    + unfold bind at 1.
      destruct (words_ok_saved_context _ Hs) as [Hs1 _].
      destruct (saved_context inf (set_regs rc (set_name nm t)))
        as [t1 [[]|e]]; cbn [fst] in *.
      * unfold bind, get.
        destruct (in_function "_port_switch_from_isr" t1).
        -- now apply pop_exception_frame_regs_ok.
        -- destruct Hs1. now apply words_regs_ok.
      * destruct Hs1. now apply words_regs_ok.
  - cbn [fst]. destruct Ht as [Ht | [nm Hnm]]; [exact Ht | discriminate].
Qed.

Lemma update_all_regs_ok (rc : list Z) (cp : option Z)
    (ts : list ChibiThread) :
  length rc = 19%nat -> Forall word rc ->
  Forall regs_ok ts ->
  Forall regs_ok (fst (update_all inf rc cp ts)).
Proof.
  intros Hl Hw. induction 1 as [|t ts Ht Hts IH]; cbn [update_all].
  - constructor.
  - pose proof (_update_regs_ok rc cp t Hl Hw (or_introl Ht)) as H1.
    destruct (_update inf rc cp t) as [t' [[]|e]]; cbn [fst] in *.
    + destruct (update_all inf rc cp ts) as [ts' r]. cbn [fst] in *.
      now constructor.
    + constructor; [exact H1|]. assumption.
Qed.

Lemma announce_loop_regs_ok (old tmp : list Z) (s s' : Session)
    (r : result unit) :
  length (reg_cache s) = 19%nat -> Forall word (reg_cache s) ->
  for_each tmp (announce inf old) s = (s', r) ->
  Forall regs_ok (thread_cache s) ->
  Forall regs_ok (thread_cache s').
Proof.
  intros Hl Hw H Hs.
  set (P := fun u : Session =>
              reg_cache u = reg_cache s /\ Forall regs_ok (thread_cache u)).
  assert (Hk : keeps P (for_each tmp (announce inf old)) (fun _ => True)).
  { apply keeps_for_each. intros a _. unfold announce.
    destruct (existsb (Z.eqb a) old);
      [eapply keeps_weaken; [apply keeps_ret | auto] | ].
    eapply (keeps_bind _ _ _ regs_ok).
    - unfold ChibiThread_init.
      eapply keeps_bind; [apply keeps_lift | ]. intros nm Hnm.
      eapply keeps_bind; [apply keeps_get | ]. intros u [Hu _].
      eapply keeps_bind; [apply keeps_modify; intros v Hv; exact Hv | ].
      intros _ _.
      pose proof (_update_regs_ok (reg_cache u) (currp u)
                    (mkThread a nm (next_lwp u) [] false None EmptyString))
        as Hupd.
      rewrite Hu in Hupd. specialize (Hupd Hl Hw).
      cbn [tp] in Hupd. specialize (Hupd (or_intror (ex_intro _ nm Hnm))).
      rewrite <- Hu in Hupd.
      destruct (_update inf (reg_cache u) (currp u)
                  (mkThread a nm (next_lwp u) [] false None EmptyString))
        as [t1 [[]|e]]; [ | apply keeps_raise].
      eapply keeps_weaken; [apply keeps_ret | ]. intros ct <-. exact Hupd.
    - intros ct Hct.
      eapply keeps_bind.
      + apply keeps_modify. intros v [Hv1 Hv2]. split; [exact Hv1 | ].
        cbn [thread_cache set_thread_cache]. apply Forall_app.
        split; [exact Hv2 | now constructor].
      + intros _ _. intros v Hv. unfold in_world.
        destruct (print (new_thread_line ct) (world v)) as [w r0].
        split; [exact Hv | auto]. }
  destruct (Hk s (conj eq_refl Hs)) as [[_ Hfinal] _].
  now rewrite H in Hfinal.
Qed.

Lemma rescan_regs_ok (tmp : list Z) (s s' : Session) (r : result unit) :
  length (reg_cache s) = 19%nat -> Forall word (reg_cache s) ->
  rescan inf tmp s = (s', r) ->
  Forall regs_ok (thread_cache s) ->
  Forall regs_ok (thread_cache s').
Proof.
  intros Hl Hw H Hs. apply rescan_inv in H. cbn zeta in H.
  pose proof (update_all_regs_ok (reg_cache s) (currp s) (thread_cache s)
                                 Hl Hw Hs) as Hu.
  destruct H as [(e & _ & _ & ->) | (_ & s3 & r3 & Eloop & H)];
    [exact Hu|].
  pose proof (announce_loop_regs_ok _ _ (set_thread_cache _ s) _ _ Hl Hw
                                    Eloop Hu) as H3.
  destruct H as [(e & _ & _ & ->) | (_ & H)]; [exact H3|].
  destruct (in_world_session _ _ _ _ H) as (_ & J2 & _). now rewrite J2.
Qed.

End Words.

Lemma get_cpu_regs_words (inf : Inferior) (rc : list Z) :
  get_cpu_regs inf = Val rc -> Forall word rc.
Proof.
  unfold get_cpu_regs. destruct (newest_frame inf); [|discriminate].
  cbn [seq read_gprs repeat].
  repeat match goal with
         | |- context [reg_value inf (R ?i)] =>
             let v := fresh "v" in
             destruct (reg_value inf (R i)) as [v|];
             [cbn [list_set rbind] | discriminate]
         end.
  destruct (reg_value inf XPSR) as [x|]; [|discriminate].
  cbn [list_set rbind]. intros H. inversion H; subst rc; clear H.
  repeat (constructor; [first [apply cast_long_range | unfold word; lia]|]).
  constructor.
Qed.

Lemma regs_ok_flags (l l' : list ChibiThread) :
  map (set_active false) l' = map (set_active false) l ->
  Forall regs_ok l -> Forall regs_ok l'.
Proof.
  intros H Hl.
  assert (Hr : map regs l' = map regs l)
    by (apply map_modulo_flags; [reflexivity | exact H]).
  clear H. revert l Hl Hr.
  induction l' as [|t' l' IH]; intros l Hl Hr; [constructor|].
  destruct l as [|t l]; [discriminate|].
  cbn [map] in Hr. inversion Hr as [[Ht Hrest]].
  apply Forall_cons_iff in Hl as [H1 H2].
  constructor; [|eapply IH; eassumption].
  unfold regs_ok in *. now rewrite Ht.
Qed.

Lemma step_regs_ok (fuel : nat) (ev : event) (s s' : Session) :
  Forall regs_ok (thread_cache s) ->
  step fuel ev s = Some s' ->
  Forall regs_ok (thread_cache s').
Proof.
  intros Hs H. destruct ev as [inf | inf | | | inf int_of arg];
    cbn [step] in H.
  - destruct (stop_handler inf fuel s) as [[s1 r]|] eqn:E;
      inversion H; subst s1; clear H.
    unfold stop_handler in E.
    destruct (get_cpu_regs inf) as [rc|e] eqn:Erc.
    + pose proof (get_cpu_regs_length inf rc Erc) as Hrc.
      pose proof (get_cpu_regs_words inf rc Erc) as Hw.
      destruct (sym_currp inf) as [c|].
      * destruct (scan inf fuel) as [[tmp|e]|]; try discriminate E.
        -- inversion E as [Hres].
           exact (rescan_regs_ok inf tmp (mkSession rc _ _ _ _) _ _
                                 Hrc Hw Hres Hs).
        -- now inversion E; subst.
      * inversion E; subst. constructor.
    + now inversion E; subst.
  - inversion H; subst s'. unfold cont_handler, bind, get.
    destruct (reg_cache s) as [|x rc] eqn:E; [exact Hs|].
    destruct (in_world (set_cpu_regs inf (x :: rc)) s) as [s1 r] eqn:Ew.
    destruct (in_world_session _ _ _ _ Ew) as (_ & J2 & _).
    cbn [fst]. now rewrite J2.
  - inversion H; subst s'. constructor.
  - inversion H; subst s'. rewrite info_threads_lists_cache. exact Hs.
  - inversion H; subst s'.
    destruct (CommandThread_invoke_flags inf int_of arg s) as [Hf _].
    exact (regs_ok_flags _ _ Hf Hs).
Qed.

Lemma run_regs_ok (fuel : nat) (evs : list event) :
  forall s s',
    Forall regs_ok (thread_cache s) ->
    run fuel evs s = Some s' ->
    Forall regs_ok (thread_cache s').
Proof.
  induction evs as [|ev evs IH]; intros s s' Hs H; cbn [run] in H.
  - now inversion H; subst.
  - destruct (step fuel ev s) as [s1|] eqn:E; [|discriminate H].
    eapply IH; [|exact H]. eapply step_regs_ok; eassumption.
Qed.

(** X27.  In every state that the module reaches, every thread object
    has 19 registers that are unsigned 32-bit values, except that the
    stack pointer of a thread that was unwound out of an exception
    frame, which is a 32-bit value plus [0x68], can exceed 32 bits. *)
Theorem thread_registers_are_words (fuel : nat) (evs : list event)
    (s : Session) :
  run fuel evs initial = Some s ->
  Forall (fun t =>
            length (regs t) = 19%nat /\
            (forall i, i <> 13%nat -> 0 <= nth i (regs t) 0 < 2 ^ 32) /\
            0 <= nth 13 (regs t) 0 < 2 ^ 32 + 0x68)
         (thread_cache s).
Proof.
  intros H. exact (run_regs_ok fuel evs initial s (Forall_nil _) H).
Qed.

Lemma thread_registers_are_words_witness :
  let evs := [Stop Examples.two_threads] in
  exists s,
    run 3 evs initial = Some s /\
    map (fun t => nth 13 (regs t) 0) (thread_cache s)
    = [0x100d; 0x20000824 + 0x68] /\
    Forall (fun t =>
              length (regs t) = 19%nat /\
              (forall i, i <> 13%nat -> 0 <= nth i (regs t) 0 < 2 ^ 32) /\
              0 <= nth 13 (regs t) 0 < 2 ^ 32 + 0x68)
           (thread_cache s).
Proof.
  intros evs.
  destruct (run 3 evs initial) as [s|] eqn:E;
    [ | vm_compute in E; discriminate E].
  exists s. split; [reflexivity|].
  split; [vm_compute in E; inversion E; reflexivity|].
  exact (thread_registers_are_words 3 evs s E).
Defined.

End SessionMore.

(** ** Core dumps of the registry *)

Section DumpSessions.
Import Pack Corefile Gdb Chibios Coredump.

Lemma regs_ok_words (t : ChibiThread) :
  regs_ok t -> nth 13 (regs t) 0 < 2 ^ 32 ->
  Forall (fun v => 0 <= v < 2 ^ 32) (regs t).
Proof.
  intros (Hl & Hw & Hsp) H13. apply Forall_forall. intros v Hv.
  apply (In_nth _ _ 0) in Hv as (i & Hi & <-).
  destruct (Nat.eq_dec i 13) as [-> | Hne]; [lia|].
  apply (Hw i Hne).
Qed.

(** X28.  The notes of [gcore] for the thread list of a state that the
    module has reached, with a signal that fits 16 bits and labels that
    fit 32 bits, can be built exactly when no thread has a stack pointer
    beyond 32 bits, which [_update] produces when it adds [0x68] to a
    stack pointer in the last [0x68] bytes of the address space;
    otherwise [struct.pack] raises. *)
Theorem gcore_notes_of_session (fuel : nat) (evs : list event) (s : Session)
    (sig : Z) :
  run fuel evs initial = Some s ->
  0 <= sig < 2 ^ 16 ->
  next_lwp s <= 2 ^ 32 ->
  ((exists notes, notes_of sig (thread_cache s) [] = Val notes) <->
   Forall (fun t => nth 13 (regs t) 0 < 2 ^ 32) (thread_cache s))
  /\ (forall e, notes_of sig (thread_cache s) [] = Raise e ->
                e = StructError).
Proof.
  intros Hrun Hsig Hnext.
  assert (Hok : registry_ok s).
  { eapply run_registry_ok; [|exact Hrun]. apply registry_ok_fresh; reflexivity. }
  pose proof (run_regs_ok fuel evs initial s (Forall_nil _) Hrun) as Hregs.
  destruct Hok as (_ & _ & _ & Hlab & _).
  split; [split|].
  - intros [notes H]. apply notes_of_inv in H as (ns & Hf & _).
    clear - Hf. induction Hf as [|t n ts ns Hn _ IH]; constructor;
      [|exact IH].
    apply thread_note_inv in Hn as (_ & Hl & F & _).
    rewrite Forall_forall in F.
    apply (F (nth 13 (regs t) 0)), nth_In. lia.
  - intros Hsp. apply notes_of_fits.
    rewrite Forall_forall in *. intros t Ht.
    apply thread_note_fits.
    + apply (Hregs t Ht).
    + apply regs_ok_words; [apply (Hregs t Ht) | apply (Hsp t Ht)].
    + specialize (Hlab t Ht). lia.
    + intros _. exact Hsig.
  - intros e. apply notes_of_raise.
Qed.

Lemma gcore_notes_of_session_witness :
  let low := [Stop Examples.two_threads] in
  let high := [Stop (Examples.high_stack Examples.two_threads)] in
  exists s1 s2,
    run 3 low initial = Some s1 /\
    run 3 high initial = Some s2 /\
    map (fun t => nth 13 (regs t) 0) (thread_cache s1)
    = [0x100d; 0x2000088c] /\
    map (fun t => nth 13 (regs t) 0) (thread_cache s2)
    = [0x100d; 0x10000003c] /\
    (exists notes, notes_of SIGINT (thread_cache s1) [] = Val notes) /\
    notes_of SIGINT (thread_cache s2) [] = Raise StructError.
Proof.
  intros low high.
  destruct (run 3 low initial) as [s1|] eqn:E1;
    [ | vm_compute in E1; discriminate E1].
  destruct (run 3 high initial) as [s2|] eqn:E2;
    [ | vm_compute in E2; discriminate E2].
  assert (N1 : next_lwp s1 <= 2 ^ 32)
    by (vm_compute in E1; inversion E1; subst s1; vm_compute; discriminate).
  assert (N2 : next_lwp s2 <= 2 ^ 32)
    by (vm_compute in E2; inversion E2; subst s2; vm_compute; discriminate).
  assert (Hsig : 0 <= SIGINT < 2 ^ 16) by (vm_compute; split; congruence).
  destruct (gcore_notes_of_session 3 low s1 SIGINT E1 Hsig N1) as [[_ G1] _].
  destruct (gcore_notes_of_session 3 high s2 SIGINT E2 Hsig N2)
    as [[G2 _] G3].
  assert (M1 : map (fun t => nth 13 (regs t) 0) (thread_cache s1)
               = [0x100d; 0x2000088c])
    by (vm_compute in E1; inversion E1; reflexivity).
  assert (M2 : map (fun t => nth 13 (regs t) 0) (thread_cache s2)
               = [0x100d; 0x10000003c])
    by (vm_compute in E2; inversion E2; reflexivity).
  exists s1, s2. split; [reflexivity|]. split; [reflexivity|].
  split; [exact M1|]. split; [exact M2|]. split.
  - apply G1. apply Forall_forall. intros t Ht.
    apply (in_map (fun t => nth 13 (regs t) 0)) in Ht. rewrite M1 in Ht.
    destruct Ht as [<- | [<- | []]]; reflexivity.
  - destruct (notes_of SIGINT (thread_cache s2) []) as [notes|e] eqn:En.
    + exfalso. assert (F : Forall (fun t => nth 13 (regs t) 0 < 2 ^ 32)
                                  (thread_cache s2)) by (apply G2; eauto).
      assert (F' : Forall (fun v => v < 2 ^ 32)
                          (map (fun t => nth 13 (regs t) 0)
                               (thread_cache s2)))
        by (apply Forall_map; exact F).
      rewrite M2 in F'. inversion F' as [|? ? _ F'']; subst.
      inversion F'' as [|? ? Hbad _]; subst. revert Hbad. vm_compute.
      discriminate.
    + now rewrite (G3 e eq_refl).
Defined.

(** X29.  The dump on a segmentation fault. [coredump.stop_handler] does
    nothing unless the event is a signal event for [SIGSEGV], and then
    runs [gcore] with signal 11 and the default file name. After a stop
    of [chibios] that has returned with [currp] evaluated to [c], the
    notes of that dump, when they can be built, have the signal 11 in
    the note of the thread whose pointer is [c] and 0 in every other
    note, the label of each thread as its process id, and, in the note
    of the thread whose pointer is [c], the registers that the stop
    captured. *)
Theorem segv_dump_marks_running_thread (inf : Inferior) (fuel : nat)
    (s s' : Session) (c : Z) (host : Host) (gcore_file_name : string)
    (notes : list byte) :
  Chibios.stop_handler inf fuel s = Some (s', Val tt) ->
  sym_currp inf = Some c ->
  notes_of SIGSEGV (thread_cache s') [] = Val notes ->
  stop_handler inf host gcore_file_name (thread_cache s')
               (SignalEvent "SIGSEGV")
  = Some (CommandGCore_invoke inf host gcore_file_name (thread_cache s')
                              EmptyString 11) /\
  (forall sg, sg <> "SIGSEGV"%string ->
              stop_handler inf host gcore_file_name (thread_cache s')
                           (SignalEvent sg) = None) /\
  stop_handler inf host gcore_file_name (thread_cache s') OtherEvent = None /\
  forall (k : nat) (t : ChibiThread),
    nth_error (thread_cache s') k = Some t ->
    let note := slice notes (168 * Z.of_nat k) (168 * Z.of_nat k + 168) in
    le_decode (slice note 32 34) = (if tp t =? c then 11 else 0) /\
    le_decode (slice note 44 48) = lwp t /\
    (tp t = c ->
     map (fun i => le_decode (slice note (92 + 4 * Z.of_nat i)
                                         (96 + 4 * Z.of_nat i)))
         (seq 0 19)
     = reg_cache s').
Proof.
  intros Hstop Hcp Hnotes.
  split; [reflexivity|]. split.
  { intros sg Hne. cbn [stop_handler].
    now rewrite (proj2 (String.eqb_neq _ _) Hne). }
  split; [reflexivity|].
  - intros k t Ht note. subst note.
    destruct (stop_marks inf fuel s s' c Hcp Hstop)
      as (rc & _ & Hcache & Hm).
    rewrite Forall_forall in Hm.
    destruct (Hm t (nth_error_In _ _ Ht)) as [Hact Hregs].
    cbn [is_currp] in Hact.
    destruct (notes_of_inv _ _ _ _ Hnotes) as (ns & Hf & ->).
    cbn [app].
    pose proof (proj2 (concat_notes _ _ _ Hf) k t Ht) as Hk.
    destruct (thread_note_fields _ _ _ Hk) as (F1 & F2 & F3).
    rewrite Hact in F1.
    split; [exact F1|]. split; [exact F2|].
    intros Hc. rewrite F3, Hcache. apply Hregs.
    rewrite Hact. now apply Z.eqb_eq.
Qed.

Lemma segv_dump_marks_running_thread_witness :
  let inf := Examples.two_threads in
  exists s' notes,
    Chibios.stop_handler inf 3 initial = Some (s', Val tt) /\
    sym_currp inf = Some 0x20000100 /\
    notes_of SIGSEGV (thread_cache s') [] = Val notes /\
    map tp (thread_cache s') = [0x20000100; 0x20000200] /\
    forall (k : nat) (t : ChibiThread),
      nth_error (thread_cache s') k = Some t ->
      let note := slice notes (168 * Z.of_nat k) (168 * Z.of_nat k + 168) in
      le_decode (slice note 32 34) = (if tp t =? 0x20000100 then 11 else 0) /\
      le_decode (slice note 44 48) = lwp t /\
      (tp t = 0x20000100 ->
       map (fun i => le_decode (slice note (92 + 4 * Z.of_nat i)
                                           (96 + 4 * Z.of_nat i)))
           (seq 0 19)
       = reg_cache s').
Proof.
  intros inf.
  destruct (Chibios.stop_handler inf 3 initial) as [[s' [[]|e]]|] eqn:E;
    try (vm_compute in E; discriminate E).
  destruct (notes_of SIGSEGV (thread_cache s') []) as [notes|e] eqn:En;
    [ | vm_compute in E; inversion E; subst s'; vm_compute in En;
        discriminate En].
  exists s', notes. split; [reflexivity|]. split; [reflexivity|].
  split; [exact En|].
  split; [vm_compute in E; inversion E; reflexivity|].
  apply (segv_dump_marks_running_thread inf 3 initial s' 0x20000100
           Examples.host "core" notes E eq_refl En).
Defined.

End DumpSessions.
